(** * Path-addressed editing of a JSON document (NodeModal)

    A shallow embedding of [normalizeNodeData] and [applyEditToJson] of the
    node modal, together with the parts of the ECMAScript library they call:
    [String.prototype.trim], [String.prototype.toLowerCase], [Number],
    [Number::toString], property reads and writes, [JSON.parse] and
    [JSON.stringify (_, null, 2)].

    Modelling choices, each stated again where it is made:
    - a JS string is the list of its UTF-16 code units;
    - a JS number is the decimal that [Number::toString] prints for it
      (sign, digits, power of ten), plus NaN and the two infinities; a
      literal is rounded to the nearest binary64 value, with its
      overflow to an infinity and its underflow to zero, and that value
      is kept as the shortest decimal that denotes it;
    - a freshly parsed document is a tree, so an assignment through the
      walking pointer [ptr] is an update of the tree along the path;
    - objects carry their own properties only, in the order
      [OrdinaryOwnPropertyKeys] lists them; members inherited from host
      prototypes and named (non-index) properties of arrays are not
      modelled: the theorems that read a name which is not an own
      property leave out the inherited names;
    - the length an engine allows a string is not modelled: a theorem
      about a save that makes the document grow bounds the saved text. *)

From Stdlib Require Import Ascii String List NArith ZArith Bool Lia.
Import ListNotations.

Local Open Scope N_scope.

(* ================================================================== *)
(** ** Strings as UTF-16 code units *)

Module JsString.

Definition jsstring := list N.

(** A literal of the source text, as code units. *)
Definition str (s : string) : jsstring :=
  List.map N_of_ascii (list_ascii_of_string s).

Fixpoint eqb (a b : jsstring) : bool :=
  match a, b with
  | [], [] => true
  | x :: a', y :: b' => (x =? y) && eqb a' b'
  | _, _ => false
  end.

(** [StrWhiteSpaceChar]: WhiteSpace and LineTerminator of ECMA-262. *)
Definition isWhiteSpace (c : N) : bool :=
  (c =? 9) || (c =? 10) || (c =? 11) || (c =? 12) || (c =? 13) ||
  (c =? 32) || (c =? 160) || (c =? 5760) ||
  ((8192 <=? c) && (c <=? 8202)) ||
  (c =? 8232) || (c =? 8233) || (c =? 8239) || (c =? 8287) ||
  (c =? 12288) || (c =? 65279).

Fixpoint trimStart (s : jsstring) : jsstring :=
  match s with
  | c :: t => if isWhiteSpace c then trimStart t else s
  | [] => []
  end.

Definition trimEnd (s : jsstring) : jsstring := rev (trimStart (rev s)).

(** [String.prototype.trim]. *)
Definition trim (s : jsstring) : jsstring := trimEnd (trimStart s).

(** Lower-case mapping of one code unit: ASCII and Latin-1 capitals.
    The Unicode case mapping above U+00FF is not modelled: those code
    units are left as they are. *)
Definition lowerUnit (c : N) : N :=
  if (65 <=? c) && (c <=? 90) then c + 32
  else if (192 <=? c) && (c <=? 222) && negb (c =? 215) then c + 32
  else c.

(** [String.prototype.toLowerCase]. *)
Definition toLowerCase (s : jsstring) : jsstring := List.map lowerUnit s.

End JsString.

Import JsString.

(* ================================================================== *)
(** ** Numbers *)

Module JsNumber.

(** [Fin neg m e] is the number [(-1)^neg * m * 10^e]. The canonical
    form has [m] not divisible by ten, and [e = 0] when [m = 0]; it is
    the triple "digits s, k = length s, n = e + k" of [Number::toString].
    [Fin true 0 0] is the negative zero. *)
Inductive number :=
| NaN
| Inf (neg : bool)
| Fin (neg : bool) (m : N) (e : Z).

Definition isNaN (x : number) : bool :=
  match x with NaN => true | _ => false end.

Definition isFinite (x : number) : bool :=
  match x with Fin _ _ _ => true | _ => false end.

Fixpoint strip_zeros (fuel : nat) (m : N) (e : Z) : N * Z :=
  match fuel with
  | O => (m, e)
  | S f => if m mod 10 =? 0 then strip_zeros f (m / 10) (e + 1)%Z else (m, e)
  end.

Definition normalize (m : N) (e : Z) : N * Z :=
  if m =? 0 then (0, 0%Z) else strip_zeros (N.size_nat m) m e.

(** The decimal [(-1)^neg * m * 10^e] in canonical form. *)
Definition mkFin (neg : bool) (m : N) (e : Z) : number :=
  let (m', e') := normalize m e in Fin neg m' e'.

(** The number of a non-negative integer, the index of a path segment. *)
Definition ofN (n : N) : number := mkFin false n 0.

Definition canonical (x : number) : Prop :=
  match x with
  | Fin _ m e => (m = 0 -> e = 0%Z) /\ (m <> 0 -> m mod 10 <> 0)
  | _ => True
  end.

(** *** Decimal digits *)

Fixpoint digits_aux (fuel : nat) (m : N) (acc : list N) : list N :=
  match fuel with
  | O => acc
  | S f => if m =? 0 then acc else digits_aux f (m / 10) (m mod 10 :: acc)
  end.

(** Digits of [m], most significant first; no digit for zero. *)
Definition digits (m : N) : list N := digits_aux (N.size_nat m) m [].

Definition of_digits (l : list N) : N :=
  fold_left (fun a d => 10 * a + d) l 0.

Definition digitChar (d : N) : N := 48 + d.

Definition isDigit (c : N) : bool := (48 <=? c) && (c <=? 57).

Definition digitVal (c : N) : N := c - 48.

Definition chars (ds : list N) : jsstring := List.map digitChar ds.

(** The decimal numeral of a natural number. *)
Definition decimal (m : N) : jsstring :=
  if m =? 0 then [48] else chars (digits m).

(** *** The Number value of a decimal

    A number is a binary64 value. The value of a decimal [m * 10^e] is
    the binary64 value nearest to it, ties to even, an infinity past the
    largest and zero below the least; it is kept as the shortest decimal
    that denotes it, the one [Number::toString] prints. *)

(** A positive binary64 value [M * 2^E], with [2^52 <= M < 2^53] and
    [-1074 <= E <= 971], or [M < 2^52] and [E = -1074]; zero; what
    is past the largest value. *)
Inductive double :=
| DZero
| DInf
| DFin (M : N) (E : Z).

Definition pow2 (k : Z) : N := 2 ^ Z.to_N k.

Definition pow10 (k : Z) : N := 10 ^ Z.to_N k.

(** [num / den] divided by [2^E], as a fraction. *)
Definition scale2 (num den : N) (E : Z) : N * N :=
  if (0 <=? E)%Z then (num, den * pow2 E) else (num * pow2 (- E), den).

(** The integer nearest to [n / d], the even one of two. *)
Definition roundHalfEven (n d : N) : N :=
  let (q, r) := N.div_eucl n d in
  match 2 * r ?= d with
  | Lt => q
  | Gt => q + 1
  | Eq => if N.even q then q else q + 1
  end.

(** The binary64 value nearest to [m * 10^e], for [m] other than zero.
    A decimal of more than 310 digits before the point is past the
    largest value, one that starts more than 330 places after the point
    is below half the least. *)
Definition toDouble (m : N) (e : Z) : double :=
  let k := Z.of_nat (length (digits m)) in
  if (310 <? e + k)%Z then DInf
  else if (e + k <? -330)%Z then DZero
  else
    let (num, den) :=
      if (0 <=? e)%Z then (m * pow10 e, 1) else (m, pow10 (- e)) in
    let E1 := (Z.of_N (N.log2 num) - Z.of_N (N.log2 den) - 52)%Z in
    let (n1, d1) := scale2 num den E1 in
    let E2 := if n1 <? d1 * 2 ^ 52 then (E1 - 1)%Z else E1 in
    let E := Z.max E2 (-1074) in
    let (n, d) := scale2 num den E in
    let Q := roundHalfEven n d in
    let (M, E') := if Q =? 2 ^ 53 then (2 ^ 52, (E + 1)%Z) else (Q, E) in
    if M =? 0 then DZero
    else if (971 <? E')%Z then DInf
    else DFin M E'.

(** How many times [vn / vd], below one, is multiplied by ten to reach
    one. *)
Fixpoint placesBelow (fuel : nat) (vn vd : N) : Z :=
  match fuel with
  | O => 0%Z
  | S f => if vd <=? 10 * vn then 1%Z else (1 + placesBelow f (10 * vn) vd)%Z
  end.

(** The [n] with [10^(n-1) <= vn / vd < 10^n]. *)
Definition decimalExponent (vn vd : N) : Z :=
  if vd <=? vn then Z.of_nat (length (digits (vn / vd)))
  else (1 - placesBelow 400 vn vd)%Z.

(** The two decimals of [k] digits around [vn / vd], the nearer first. *)
Definition candidates (vn vd : N) (n k : Z) : list (N * Z) :=
  let x := (n - k)%Z in
  let (a, b) :=
    if (0 <=? x)%Z then (vn, vd * pow10 x) else (vn * pow10 (- x), vd) in
  let (q, r) := N.div_eucl a b in
  let lo := normalize q x in
  let hi := normalize (q + 1) x in
  match 2 * r ?= b with
  | Lt => [lo; hi]
  | Gt => [hi; lo]
  | Eq => if N.even q then [lo; hi] else [hi; lo]
  end.

(** The decimal [c], in canonical form, has the value [M * 2^E]. *)
Definition denotes (M : N) (E : Z) (c : N * Z) : bool :=
  let (s, x) := c in
  negb (s =? 0) && negb (s mod 10 =? 0) &&
  match toDouble s x with
  | DFin M' E' => (M' =? M) && (E' =? E)%Z
  | _ => false
  end.

Fixpoint shortestFrom (fuel : nat) (vn vd : N) (n : Z) (M : N) (E : Z) (k : Z)
  : option (N * Z) :=
  match fuel with
  | O => None
  | S f =>
      match find (denotes M E) (candidates vn vd n k) with
      | Some c => Some c
      | None => shortestFrom f vn vd n M E (k + 1)
      end
  end.

(** The decimal of the fewest digits that denotes [M * 2^E], the
    nearest of them: seventeen digits are enough for every binary64
    value. *)
Definition shortest (M : N) (E : Z) : option (N * Z) :=
  let (vn, vd) :=
    if (0 <=? E)%Z then (M * pow2 E, 1) else (M, pow2 (- E)) in
  shortestFrom 17 vn vd (decimalExponent vn vd) M E 1.

(** The Number value of [(-1)^neg * m * 10^e]: the binary64 value
    nearest to it, in the shortest decimal that denotes it. Zero keeps
    the sign. The last case is for totality: the search of [shortest]
    ends within seventeen digits. *)
Definition binary64 (neg : bool) (m : N) (e : Z) : number :=
  let (m1, e1) := normalize m e in
  if m1 =? 0 then Fin neg 0 0
  else
    match toDouble m1 e1 with
    | DZero => Fin neg 0 0
    | DInf => Inf neg
    | DFin M E =>
        match shortest M E with
        | Some (s, x) => Fin neg s x
        | None => Fin neg m1 e1
        end
    end.

(** The number is a binary64 value, in the decimal that is printed for
    it. *)
Definition isDouble (x : number) : Prop :=
  match x with
  | Fin neg m e => binary64 neg m e = Fin neg m e
  | _ => True
  end.

(** *** Number::toString, radix ten *)

Definition zeros (n : nat) : jsstring := repeat 48 n.

Definition exponentPart (n : Z) : jsstring :=
  101 :: (if (n - 1 <? 0)%Z then 45 else 43) :: decimal (Z.abs_N (n - 1)).

Definition toString_pos (m : N) (e : Z) : jsstring :=
  let s := digits m in
  let k := Z.of_nat (length s) in
  let n := (e + k)%Z in
  if (k <=? n)%Z && (n <=? 21)%Z then
    chars s ++ zeros (Z.to_nat (n - k))
  else if (0 <? n)%Z && (n <=? 21)%Z then
    chars (firstn (Z.to_nat n) s) ++ 46 :: chars (skipn (Z.to_nat n) s)
  else if (-6 <? n)%Z && (n <=? 0)%Z then
    48 :: 46 :: zeros (Z.to_nat (- n)) ++ chars s
  else
    match s with
    | [d] => digitChar d :: exponentPart n
    | d :: ds => digitChar d :: 46 :: chars ds ++ exponentPart n
    | [] => []
    end.

Definition toString (x : number) : jsstring :=
  match x with
  | NaN => str "NaN"
  | Inf neg => (if neg then [45] else []) ++ str "Infinity"
  | Fin neg m e =>
      if m =? 0 then [48]
      else (if neg then [45] else []) ++ toString_pos m e
  end.

(** *** StringToNumber, the conversion [Number (raw)] applies to a string *)

Fixpoint spanDigits (s : jsstring) : list N * jsstring :=
  match s with
  | c :: t =>
      if isDigit c then let (ds, r) := spanDigits t in (digitVal c :: ds, r)
      else ([], s)
  | [] => ([], [])
  end.

(** The digits of an exponent and its value, signed by [neg]; [None]
    when there is no digit. *)
Definition exponentDigits (neg : bool) (s : jsstring) : option (Z * jsstring) :=
  match spanDigits s with
  | ([], _) => None
  | (ds, r) =>
      let x := Z.of_N (of_digits ds) in
      Some (if neg then (- x)%Z else x, r)
  end.

(** The optional [ExponentPart]: its value (zero when there is none) and
    the rest; [None] when an [e] is not followed by a digit. *)
Definition exponentOpt (s : jsstring) : option (Z * jsstring) :=
  match s with
  | c :: t =>
      if (c =? 101) || (c =? 69) then
        match t with
        | d :: u =>
            if d =? 45 then exponentDigits true u
            else if d =? 43 then exponentDigits false u
            else exponentDigits false t
        | [] => None
        end
      else Some (0%Z, s)
  | [] => Some (0%Z, [])
  end.

(** [StrUnsignedDecimalLiteral] other than [Infinity]: mantissa and
    power of ten of a literal that spans the whole of [s]. *)
Definition decimalLiteral (s : jsstring) : option (N * Z) :=
  let (int, r1) := spanDigits s in
  let '(frac, r2) :=
    match r1 with
    | 46 :: t => spanDigits t
    | _ => ([], r1)
    end in
  match int, frac with
  | [], [] => None
  | _, _ =>
      match exponentOpt r2 with
      | Some (x, []) =>
          Some (of_digits (int ++ frac), (x - Z.of_nat (length frac))%Z)
      | _ => None
      end
  end.

Definition radixDigit (radix c : N) : option N :=
  let v :=
    if isDigit c then Some (c - 48)
    else if (97 <=? c) && (c <=? 102) then Some (c - 87)
    else if (65 <=? c) && (c <=? 70) then Some (c - 55)
    else None in
  match v with
  | Some d => if d <? radix then Some d else None
  | None => None
  end.

Fixpoint radixDigits (radix : N) (s : jsstring) (acc : N) : option N :=
  match s with
  | [] => Some acc
  | c :: t =>
      match radixDigit radix c with
      | Some d => radixDigits radix t (radix * acc + d)
      | None => None
      end
  end.

(** [NonDecimalIntegerLiteral]: [0x], [0o] and [0b] numerals. *)
Definition nonDecimalLiteral (s : jsstring) : option N :=
  match s with
  | 48 :: p :: (_ :: _) as ds =>
      if (p =? 120) || (p =? 88) then radixDigits 16 ds 0
      else if (p =? 111) || (p =? 79) then radixDigits 8 ds 0
      else if (p =? 98) || (p =? 66) then radixDigits 2 ds 0
      else None
  | _ => None
  end.

Definition ofString (raw : jsstring) : number :=
  match trim raw with
  | [] => Fin false 0 0
  | s =>
      match nonDecimalLiteral s with
      | Some n => binary64 false n 0
      | None =>
          let '(neg, body) :=
            match s with
            | 45 :: t => (true, t)
            | 43 :: t => (false, t)
            | _ => (false, s)
            end in
          if JsString.eqb body (str "Infinity") then Inf neg
          else
            match decimalLiteral body with
            | Some (m, e) => binary64 neg m e
            | None => NaN
            end
      end
  end.

End JsNumber.

Import JsNumber.

(* ================================================================== *)
(** ** Values, property access *)

Module Json.

(** The values a variable of the modal can hold. [VUndef] is
    [undefined]; it is also what a hole of an array reads as. An object is
    the list of its own properties in property order. *)
#[warnings="-register-all"]
Inductive jsvalue :=
| VUndef
| VNull
| VBool (b : bool)
| VNum (n : number)
| VStr (s : jsstring)
| VArr (l : list jsvalue)
| VObj (m : list (jsstring * jsvalue)).

Definition isUndefined (v : jsvalue) : bool :=
  match v with VUndef => true | _ => false end.

(** Modelled from the spec: the segments of [NodeData["path"]], whose
    declaration (types/graph) is not among the sources: a string, the key
    of an object, or a non-negative integer, the index in an array. *)
Inductive segment :=
| SegKey (s : jsstring)
| SegIdx (n : N).

(** [ToPropertyKey]: a number is named by its [Number::toString]. *)
Definition propertyKey (seg : segment) : jsstring :=
  match seg with
  | SegKey s => s
  | SegIdx n => toString (ofN n)
  end.

(** An array index is a canonical numeral below [2^32 - 1]. *)
Definition arrayIndex (k : jsstring) : option N :=
  match k with
  | [] => None
  | c :: t =>
      if forallb isDigit k && ((List.length k =? 1)%nat || negb (c =? 48)) then
        let n := of_digits (List.map digitVal k) in
        if n <? 4294967295 then Some n else None
      else None
  end.

Fixpoint lookup (m : list (jsstring * jsvalue)) (k : jsstring) : option jsvalue :=
  match m with
  | [] => None
  | (k', v) :: t => if JsString.eqb k' k then Some v else lookup t k
  end.

(** Where a new property goes: index keys come first, in ascending
    order; the other keys follow in the order of their creation. *)
Fixpoint insertKey (m : list (jsstring * jsvalue)) (k : jsstring) (v : jsvalue)
  : list (jsstring * jsvalue) :=
  match m with
  | [] => [(k, v)]
  | (k', v') :: t =>
      match arrayIndex k, arrayIndex k' with
      | Some i, Some j => if i <? j then (k, v) :: m else (k', v') :: insertKey t k v
      | Some _, None => (k, v) :: m
      | None, _ => (k', v') :: insertKey t k v
      end
  end.

Fixpoint replaceKey (m : list (jsstring * jsvalue)) (k : jsstring) (v : jsvalue)
  : list (jsstring * jsvalue) :=
  match m with
  | [] => []
  | (k', v') :: t =>
      if JsString.eqb k' k then (k', v) :: t else (k', v') :: replaceKey t k v
  end.

(** [obj[k] = v] on an ordinary object whose properties are all its
    own: the accessor [__proto__] of the host prototype is not modelled. *)
Definition objSet (m : list (jsstring * jsvalue)) (k : jsstring) (v : jsvalue)
  : list (jsstring * jsvalue) :=
  match lookup m k with
  | Some _ => replaceKey m k v
  | None => insertKey m k v
  end.

Fixpoint replaceNth (l : list jsvalue) (i : nat) (v : jsvalue) : list jsvalue :=
  match l, i with
  | [], _ => []
  | _ :: t, O => v :: t
  | x :: t, S j => x :: replaceNth t j v
  end.

(** [arr[i] = v]: past the end, the array grows and the gap is holes. *)
Definition arrSet (l : list jsvalue) (i : N) (v : jsvalue) : list jsvalue :=
  let n := N.to_nat i in
  if (n <? List.length l)%nat then replaceNth l n v
  else l ++ repeat VUndef (n - List.length l) ++ [v].

(** [o[k]]. [None] is the TypeError of reading a property of [null] or
    [undefined]. A name that is not an own property of the JSON data
    reads as [undefined]. *)
Definition getProp (o : jsvalue) (k : jsstring) : option jsvalue :=
  match o with
  | VUndef | VNull => None
  | VObj m => Some (match lookup m k with Some v => v | None => VUndef end)
  | VArr l =>
      Some (match arrayIndex k with
            | Some i => nth (N.to_nat i) l VUndef
            | None => VUndef
            end)
  | VStr s =>
      Some (match arrayIndex k with
            | Some i =>
                match nth_error s (N.to_nat i) with
                | Some c => VStr [c]
                | None => VUndef
                end
            | None => VUndef
            end)
  | VBool _ | VNum _ => Some VUndef
  end.

(** [o[k] = v] in strict code, as the value [o] refers to afterwards.
    [None] is the TypeError of writing a property of [null], [undefined]
    or a primitive. A named property written on an array is not among
    the elements [JSON.stringify] prints: the array is returned as it is. *)
Definition setProp (o : jsvalue) (k : jsstring) (v : jsvalue) : option jsvalue :=
  match o with
  | VObj m => Some (VObj (objSet m k v))
  | VArr l =>
      Some (match arrayIndex k with
            | Some i => VArr (arrSet l i v)
            | None => VArr l
            end)
  | _ => None
  end.

(* ------------------------------------------------------------------ *)
(** *** JSON.stringify (value, null, 2) *)

Definition hexDigit (d : N) : N := if d <? 10 then 48 + d else 87 + d.

(** [UnicodeEscape]: a backslash, [u] and four lower-case hex digits. *)
Definition unicodeEscape (c : N) : jsstring :=
  [92; 117; hexDigit (c / 4096 mod 16); hexDigit (c / 256 mod 16);
   hexDigit (c / 16 mod 16); hexDigit (c mod 16)].

Definition isHighSurrogate (c : N) : bool := (55296 <=? c) && (c <=? 56319).
Definition isLowSurrogate (c : N) : bool := (56320 <=? c) && (c <=? 57343).

Definition quoteUnit (c : N) : jsstring :=
  if c =? 8 then [92; 98]
  else if c =? 9 then [92; 116]
  else if c =? 10 then [92; 110]
  else if c =? 12 then [92; 102]
  else if c =? 13 then [92; 114]
  else if c =? 34 then [92; 34]
  else if c =? 92 then [92; 92]
  else if c <? 32 then unicodeEscape c
  else [c].

Fixpoint quoteBody (s : jsstring) : jsstring :=
  match s with
  | [] => []
  | c :: t =>
      if isHighSurrogate c then
        match t with
        | d :: t' =>
            if isLowSurrogate d then c :: d :: quoteBody t'
            else unicodeEscape c ++ quoteBody t
        | [] => unicodeEscape c
        end
      else if isLowSurrogate c then unicodeEscape c ++ quoteBody t
      else quoteUnit c ++ quoteBody t
  end.

(** [QuoteJSONString]. *)
Definition quote (s : jsstring) : jsstring := 34 :: quoteBody s ++ [34].

Definition gap : jsstring := [32; 32].

Fixpoint joinWith (sep : jsstring) (parts : list jsstring) : jsstring :=
  match parts with
  | [] => []
  | [p] => p
  | p :: ps => p ++ sep ++ joinWith sep ps
  end.

(** The text of a container from the texts of its parts. *)
Definition wrap (opening closing : N) (stepback : jsstring)
  (parts : list jsstring) : jsstring :=
  match parts with
  | [] => [opening; closing]
  | _ =>
      let indent := stepback ++ gap in
      opening :: 10 :: indent ++ joinWith (44 :: 10 :: indent) parts
        ++ 10 :: stepback ++ [closing]
  end.

Definition nullText : jsstring := str "null".

(** [SerializeJSONProperty] at indentation [indent]; [None] is the
    result [undefined]. *)
Fixpoint serialize (indent : jsstring) (v : jsvalue) : option jsstring :=
  match v with
  | VUndef => None
  | VNull => Some nullText
  | VBool true => Some (str "true")
  | VBool false => Some (str "false")
  | VNum n => Some (if isFinite n then toString n else nullText)
  | VStr s => Some (quote s)
  | VArr l =>
      Some (wrap 91 93 indent
              (List.map (fun x =>
                           match serialize (indent ++ gap) x with
                           | Some t => t
                           | None => nullText
                           end) l))
  | VObj m =>
      Some (wrap 123 125 indent
              (flat_map (fun kv =>
                           match serialize (indent ++ gap) (snd kv) with
                           | Some t => [quote (fst kv) ++ 58 :: 32 :: t]
                           | None => []
                           end) m))
  end.

Definition JSON_stringify (v : jsvalue) : option jsstring := serialize [] v.

(* ------------------------------------------------------------------ *)
(** *** JSON.parse *)

Inductive token :=
| TokLBrace | TokRBrace | TokLBrack | TokRBrack | TokColon | TokComma
| TokStr (s : jsstring)
| TokNum (n : number)
| TokTrue | TokFalse | TokNull.

(** JSON white space: space, tab, line feed, carriage return. *)
Definition isJsonSpace (c : N) : bool :=
  (c =? 32) || (c =? 9) || (c =? 10) || (c =? 13).

Definition hexVal (c : N) : option N :=
  if isDigit c then Some (c - 48)
  else if (97 <=? c) && (c <=? 102) then Some (c - 87)
  else if (65 <=? c) && (c <=? 70) then Some (c - 55)
  else None.

Definition hex4 (a b c d : N) : option N :=
  match hexVal a, hexVal b, hexVal c, hexVal d with
  | Some x, Some y, Some z, Some w => Some (4096 * x + 256 * y + 16 * z + w)
  | _, _, _, _ => None
  end.

(** The character a single-character escape stands for. *)
Definition unescape (e : N) : option N :=
  if e =? 34 then Some 34
  else if e =? 92 then Some 92
  else if e =? 47 then Some 47
  else if e =? 98 then Some 8
  else if e =? 102 then Some 12
  else if e =? 110 then Some 10
  else if e =? 114 then Some 13
  else if e =? 116 then Some 9
  else None.

Definition consFst {A B : Type} (a : A) (r : option (list A * B))
  : option (list A * B) :=
  match r with
  | Some (l, b) => Some (a :: l, b)
  | None => None
  end.

(** A string token after its opening quote: the string and the text
    after the closing quote. *)
Fixpoint lexString (s : jsstring) : option (jsstring * jsstring) :=
  match s with
  | [] => None
  | c :: t =>
      if c =? 34 then Some ([], t)
      else if c =? 92 then
        match t with
        | [] => None
        | e :: t' =>
            if e =? 117 then
              match t' with
              | h1 :: h2 :: h3 :: h4 :: t'' =>
                  match hex4 h1 h2 h3 h4 with
                  | Some u => consFst u (lexString t'')
                  | None => None
                  end
              | _ => None
              end
            else
              match unescape e with
              | Some u => consFst u (lexString t')
              | None => None
              end
        end
      else if c <? 32 then None
      else consFst c (lexString t)
  end.

(** The fraction of a number token, if there is one: its digits and
    the rest; [None] when no digit follows the point. *)
Definition lexFraction (s : jsstring) : option (list N * jsstring) :=
  match s with
  | c :: t =>
      if c =? 46 then
        match spanDigits t with
        | ([], _) => None
        | (fr, r) => Some (fr, r)
        end
      else Some ([], s)
  | [] => Some ([], s)
  end.

(** The decimal of a number token after its sign: integer part without
    a leading zero, fraction and exponent, each of the last two with a
    digit at least. *)
Definition lexDecimal (s : jsstring) : option (N * Z * jsstring) :=
  let (int, r1) := spanDigits s in
  match int with
  | [] => None
  | d :: ds =>
      if (d =? 0) && negb ((List.length ds =? 0)%nat) then None
      else
        match lexFraction r1 with
        | None => None
        | Some (fr, r2) =>
            match exponentOpt r2 with
            | None => None
            | Some (x, r3) =>
                Some (of_digits (int ++ fr),
                      (x - Z.of_nat (List.length fr))%Z, r3)
            end
        end
  end.

(** A number token after its sign: the Number value of its decimal. *)
Definition lexUnsigned (neg : bool) (s : jsstring) : option (number * jsstring) :=
  match lexDecimal s with
  | Some (m, e, r) => Some (binary64 neg m e, r)
  | None => None
  end.

Definition lexNumber (s : jsstring) : option (number * jsstring) :=
  match s with
  | c :: t => if c =? 45 then lexUnsigned true t else lexUnsigned false s
  | [] => None
  end.

Fixpoint stripPrefix (p s : jsstring) : option jsstring :=
  match p, s with
  | [], _ => Some s
  | a :: p', b :: s' => if a =? b then stripPrefix p' s' else None
  | _ :: _, [] => None
  end.

Definition consTok (t : token) (r : option (list token)) : option (list token) :=
  match r with
  | Some l => Some (t :: l)
  | None => None
  end.

Definition lexWord (word : jsstring) (t : token) (s : jsstring)
  (k : jsstring -> option (list token)) : option (list token) :=
  match stripPrefix word s with
  | Some r => consTok t (k r)
  | None => None
  end.

(** The first token of a text, [k] giving the tokens of what is left. *)
Definition lexStep (k : jsstring -> option (list token)) (s : jsstring)
  : option (list token) :=
  match s with
  | [] => Some []
  | c :: t =>
      if isJsonSpace c then k t
      else if c =? 123 then consTok TokLBrace (k t)
      else if c =? 125 then consTok TokRBrace (k t)
      else if c =? 91 then consTok TokLBrack (k t)
      else if c =? 93 then consTok TokRBrack (k t)
      else if c =? 58 then consTok TokColon (k t)
      else if c =? 44 then consTok TokComma (k t)
      else if c =? 34 then
        match lexString t with
        | Some (x, r) => consTok (TokStr x) (k r)
        | None => None
        end
      else if (c =? 45) || isDigit c then
        match lexNumber s with
        | Some (n, r) => consTok (TokNum n) (k r)
        | None => None
        end
      else if c =? 116 then lexWord (str "true") TokTrue s k
      else if c =? 102 then lexWord (str "false") TokFalse s k
      else if c =? 110 then lexWord (str "null") TokNull s k
      else None
  end.

(** The tokens of a text. Every step takes a character at least, so the
    length of the text is fuel enough. *)
Fixpoint lex (fuel : nat) (s : jsstring) : option (list token) :=
  match fuel with
  | O => None
  | S f => lexStep (lex f) s
  end.

Section Parser.

Variable parseValue : list token -> option (jsvalue * list token).

(** The elements of an array after the first bracket, up to the closing
    one. *)
Fixpoint parseElements (fuel : nat) (ts : list token)
  : option (list jsvalue * list token) :=
  match fuel with
  | O => None
  | S f =>
      match parseValue ts with
      | Some (v, TokComma :: r) => consFst v (parseElements f r)
      | Some (v, TokRBrack :: r) => Some ([v], r)
      | _ => None
      end
  end.

(** The members of an object after the first brace, up to the closing
    one. *)
Fixpoint parseMembers (fuel : nat) (ts : list token)
  : option (list (jsstring * jsvalue) * list token) :=
  match fuel with
  | O => None
  | S f =>
      match ts with
      | TokStr k :: TokColon :: r =>
          match parseValue r with
          | Some (v, TokComma :: r') => consFst (k, v) (parseMembers f r')
          | Some (v, TokRBrace :: r') => Some ([(k, v)], r')
          | _ => None
          end
      | _ => None
      end
  end.

End Parser.

(** The object a list of members builds: each member is defined in turn
    ([CreateDataProperty]), a repeated key keeps its first place and takes
    the last value. *)
Definition buildObject (kvs : list (jsstring * jsvalue)) : list (jsstring * jsvalue) :=
  fold_left (fun m kv => objSet m (fst kv) (snd kv)) kvs [].

Fixpoint parseValue (fuel : nat) (ts : list token)
  : option (jsvalue * list token) :=
  match fuel with
  | O => None
  | S f =>
      match ts with
      | TokNull :: r => Some (VNull, r)
      | TokTrue :: r => Some (VBool true, r)
      | TokFalse :: r => Some (VBool false, r)
      | TokNum n :: r => Some (VNum n, r)
      | TokStr s :: r => Some (VStr s, r)
      | TokLBrack :: TokRBrack :: r => Some (VArr [], r)
      | TokLBrack :: r =>
          match parseElements (parseValue f) f r with
          | Some (vs, r') => Some (VArr vs, r')
          | None => None
          end
      | TokLBrace :: TokRBrace :: r => Some (VObj [], r)
      | TokLBrace :: r =>
          match parseMembers (parseValue f) f r with
          | Some (kvs, r') => Some (VObj (buildObject kvs), r')
          | None => None
          end
      | _ => None
      end
  end.

(** [JSON.parse]; [None] is the SyntaxError. *)
Definition JSON_parse (text : jsstring) : option jsvalue :=
  match lex (S (List.length text)) text with
  | Some ts =>
      match parseValue (S (List.length ts)) ts with
      | Some (v, []) => Some v
      | _ => None
      end
  | None => None
  end.

End Json.

Import Json.

(* ================================================================== *)
(** ** The node modal *)

Module NodeModal.

(** Modelled from the spec: the type of a row, one of string, number,
    boolean, null, object, array (types/graph is not among the sources). *)
Inductive rowType := TString | TNumber | TBoolean | TNull | TObject | TArray.

(** Modelled from the spec: the value of a row, a scalar. *)
Inductive scalar :=
| SStr (s : jsstring)
| SNum (n : number)
| SBool (b : bool)
| SNull.

(** Modelled from the spec: a row, with its optional key. *)
Record NodeRow := {
  key : option jsstring;
  value : scalar;
  type : rowType
}.

(** Modelled from the spec: the selection, the rows of the node and its
    path; the code reads the path as optional ([nodeData.path ?? []]). *)
Record NodeData := {
  text : list NodeRow;
  path : option (list segment)
}.

Definition ofScalar (s : scalar) : jsvalue :=
  match s with
  | SStr x => VStr x
  | SNum n => VNum n
  | SBool b => VBool b
  | SNull => VNull
  end.

(** [ToString], as the template literal applies it. *)
Definition ToString (s : scalar) : jsstring :=
  match s with
  | SStr x => x
  | SNum n => toString n
  | SBool true => str "true"
  | SBool false => str "false"
  | SNull => str "null"
  end.

(** [row.key] is truthy: it is there and it is not the empty string. *)
Definition hasKey (row : NodeRow) : bool :=
  match key row with
  | Some (_ :: _) => true
  | _ => false
  end.

Definition keyOf (row : NodeRow) : jsstring :=
  match key row with
  | Some k => k
  | None => []
  end.

Definition isContainerType (t : rowType) : bool :=
  match t with
  | TObject | TArray => true
  | _ => false
  end.

(** The object literal [obj] while the [forEach] fills it: its own
    properties, and whether its prototype is still [Object.prototype],
    whose accessor [__proto__] then takes the assignments to that name. *)
Definition literal : Type := (list (jsstring * jsvalue) * bool)%type.

(** [obj[key] = value] for the value of a row. While the prototype is
    [Object.prototype], the name [__proto__] is its accessor and not a
    property of [obj]: assigning [null] removes the prototype, assigning
    any other scalar does nothing. Every other assignment writes an own
    property, and so does one to [__proto__] once the prototype is gone. *)
Definition assignRow (obj : literal) (k : jsstring) (v : scalar) : literal :=
  let (own, proto) := obj in
  if proto && JsString.eqb k (str "__proto__") then
    match v with
    | SNull => (own, false)
    | _ => (own, true)
    end
  else (objSet own k (ofScalar v), proto).

(** The body of the [forEach] of [normalizeNodeData]. *)
Definition addRow (obj : literal) (row : NodeRow) : literal :=
  if negb (isContainerType (type row)) then
    if hasKey row then assignRow obj (keyOf row) (value row) else obj
  else obj.

(** The own properties of [obj] after the [forEach]: what
    [JSON.stringify] prints. *)
Definition rowsObject (nodeRows : list NodeRow) : list (jsstring * jsvalue) :=
  fst (fold_left addRow nodeRows ([], true)).

(** [JSON.stringify] of an object is a string. *)
Definition stringifyObject (obj : list (jsstring * jsvalue)) : jsstring :=
  match JSON_stringify (VObj obj) with
  | Some t => t
  | None => []
  end.

Definition normalizeNodeData (nodeRows : list NodeRow) : jsstring :=
  match nodeRows with
  | [] => str "{}"
  | [row] =>
      if negb (hasKey row) then ToString (value row)
      else stringifyObject (rowsObject nodeRows)
  | _ => stringifyObject (rowsObject nodeRows)
  end.

(* ------------------------------------------------------------------ *)
(** *** applyEditToJson *)

(** The messages [setError] is called with. *)
Definition MalformedDocument : string := "Failed to parse current JSON document.".
Definition InvalidNumber : string := "Invalid number".
Definition InvalidBoolean : string := "Invalid boolean (must be true or false)".
Definition InvalidFragment : string := "Invalid JSON for object/array node".
Definition ApplyFailed : string := "Failed to apply changes".

Inductive result :=
| Ok (newValue : jsvalue)
| Err (message : string).

(** The row of a leaf: [text.length === 1 && !text[0].key]. *)
Definition leafRow (nodeData : NodeData) : option NodeRow :=
  match text nodeData with
  | [row] => if negb (hasKey row) then Some row else None
  | _ => None
  end.

Definition isLeaf (nodeData : NodeData) : bool :=
  match leafRow nodeData with
  | Some _ => true
  | None => false
  end.

(** The coercion of the edited text by the type of the leaf. *)
Definition coerceLeaf (leafType : rowType) (raw : jsstring) : result :=
  match leafType with
  | TString => Ok (VStr raw)
  | TNumber =>
      let n := ofString raw in
      if isNaN n then Err InvalidNumber else Ok (VNum n)
  | TBoolean =>
      let v := toLowerCase (trim raw) in
      if negb (JsString.eqb v (str "true")) && negb (JsString.eqb v (str "false"))
      then Err InvalidBoolean
      else Ok (VBool (JsString.eqb v (str "true")))
  | TNull => Ok VNull
  | _ =>
      match JSON_parse raw with
      | Some v => Ok v
      | None => Ok (VStr raw)
      end
  end.

(** [newValue], or the message of the failure. *)
Definition newValueOf (nodeData : NodeData) (raw : jsstring) : result :=
  match leafRow nodeData with
  | Some row => coerceLeaf (type row) raw
  | None =>
      match JSON_parse raw with
      | Some v => Ok v
      | None => Err InvalidFragment
      end
  end.

(** The loop over [path] and the assignment after it, on the value [ptr]
    refers to: [seg] is [path[i]] and [rest] the segments after it. The
    result is that value after the assignment; [None] is a TypeError. *)
Fixpoint assignAt (ptr : jsvalue) (seg : segment) (rest : list segment)
  (newValue : jsvalue) : option jsvalue :=
  let k := propertyKey seg in
  match rest with
  | [] => setProp ptr k newValue
  | next :: rest' =>
      match getProp ptr k with
      | None => None
      | Some cur =>
          if isUndefined cur then
            match setProp ptr k (VObj []) with
            | None => None
            | Some ptr1 =>
                match assignAt (VObj []) next rest' newValue with
                | None => None
                | Some child => setProp ptr1 k child
                end
            end
          else
            match assignAt cur next rest' newValue with
            | None => None
            | Some child => setProp ptr k child
            end
      end
  end.

(** [currentObj] once [newValue] is applied at [path]. *)
Definition applyAtPath (currentObj : jsvalue) (path : list segment)
  (newValue : jsvalue) : option jsvalue :=
  match path with
  | [] => Some newValue
  | seg :: rest => assignAt currentObj seg rest newValue
  end.

(** The calls to the stores; the argument of [setJson], [setContents]
    and [setGraph] is [newJsonStr], [None] when that is [undefined]. *)
Inductive call :=
| SetJson (json : option jsstring)
| SetContents (contents : option jsstring) (hasChanges : bool)
| SetGraph (json : option jsstring)
| SetSelectedNode_null.

(** The state of the modal. *)
Record modal := {
  editing : bool;
  edited : jsstring;
  error : option string
}.

(** How [applyEditToJson] ends: it returns, with the state the modal has
    after it and the calls it made; or an exception leaves it, no state
    having been set. *)
Inductive outcome :=
| Returned (st : modal) (calls : list call)
| Uncaught (calls : list call).

Definition setError (st : modal) (e : option string) : modal :=
  {| editing := editing st; edited := edited st; error := e |}.

Definition closed : modal :=
  {| editing := false; edited := []; error := None |}.

Section Stores.

(** Whether a call to a store throws. *)
Variable throws : call -> bool.

(** The calls of the [try] block that are made, and whether the last of
    them threw. *)
Fixpoint tryCalls (cs : list call) : list call * bool :=
  match cs with
  | [] => ([], false)
  | c :: r =>
      if throws c then ([c], true)
      else let (made, t) := tryCalls r in (c :: made, t)
  end.

Definition applyEditToJson (nodeData : option NodeData) (jsonState : jsstring)
  (st : modal) (raw : jsstring) : outcome :=
  match nodeData with
  | None => Returned st []
  | Some nd =>
      match JSON_parse jsonState with
      | None => Returned (setError st (Some MalformedDocument)) []
      | Some currentObj =>
          match newValueOf nd raw with
          | Err message => Returned (setError st (Some message)) []
          | Ok newValue =>
              let path := match path nd with Some p => p | None => [] end in
              match applyAtPath currentObj path newValue with
              | None => Uncaught []
              | Some currentObj' =>
                  let newJsonStr := JSON_stringify currentObj' in
                  let (made, threw) :=
                    tryCalls [SetJson newJsonStr; SetContents newJsonStr true;
                              SetGraph newJsonStr; SetSelectedNode_null] in
                  if threw then Returned (setError st (Some ApplyFailed)) made
                  else Returned closed made
              end
          end
      end
  end.

Definition handleSave (nodeData : option NodeData) (jsonState : jsstring)
  (st : modal) : outcome :=
  applyEditToJson nodeData jsonState st (edited st).

End Stores.

Definition handleEdit (nodeData : option NodeData) (st : modal) : modal :=
  {| editing := true;
     edited := normalizeNodeData
                 (match nodeData with Some nd => text nd | None => [] end);
     error := None |}.

Definition handleCancel (st : modal) : modal := closed.

(** The text of the json store after the calls made: the last argument
    of [setJson]. *)
Fixpoint jsonAfter (calls : list call) (json : option jsstring) : option jsstring :=
  match calls with
  | [] => json
  | SetJson j :: r => jsonAfter r j
  | _ :: r => jsonAfter r json
  end.

End NodeModal.

Import NodeModal.

(* ================================================================== *)
(** ** Notions the statements use *)

(** A text written with the apostrophe standing for the double quote. *)
Definition jtext (s : string) : jsstring :=
  List.map (fun c => if c =? 39 then 34 else c) (str s).

Definition booleanLeaf : NodeData :=
  {| text := [ {| key := None; value := SBool true; type := TBoolean |} ];
     path := Some [SegKey (str "active")] |}.

Definition numberLeaf : NodeData :=
  {| text := [ {| key := None; value := SNum (Fin false 7 0); type := TNumber |} ];
     path := Some [SegKey (str "count")] |}.

(** A row set other than the single row without key. *)
Definition isComposite (rows : list NodeRow) : bool :=
  match rows with
  | [row] => hasKey row
  | _ => true
  end.

(** The JSON text of a scalar. *)
Definition scalarJson (s : scalar) : jsstring :=
  match s with
  | SStr x => quote x
  | SNum n => if isFinite n then toString n else nullText
  | SBool true => str "true"
  | SBool false => str "false"
  | SNull => nullText
  end.

Definition memberText (kv : jsstring * scalar) : jsstring :=
  quote (fst kv) ++ 58 :: 32 :: scalarJson (snd kv).

Definition ofEntry (kv : jsstring * scalar) : jsstring * jsvalue :=
  (fst kv, ofScalar (snd kv)).


(** What [ptr[seg] = v] can address in the JSON data: any key of an
    object, an index of an array. *)
Definition addressable (ptr : jsvalue) (k : jsstring) : Prop :=
  match ptr with
  | VObj _ => True
  | VArr _ => arrayIndex k <> None
  | _ => False
  end.

(** Re-reading a document at a path. *)
Fixpoint readPath (v : jsvalue) (p : list segment) : option jsvalue :=
  match p with
  | [] => Some v
  | seg :: rest =>
      match getProp v (propertyKey seg) with
      | Some child => readPath child rest
      | None => None
      end
  end.

(** The path addresses existing data: each segment names an own
    property of an object, or an element of an array. *)
Fixpoint validPath (v : jsvalue) (p : list segment) : bool :=
  match p with
  | [] => true
  | seg :: rest =>
      match v with
      | VObj m =>
          match lookup m (propertyKey seg) with
          | Some child => validPath child rest
          | None => false
          end
      | VArr l =>
          match arrayIndex (propertyKey seg) with
          | Some i =>
              match nth_error l (N.to_nat i) with
              | Some child => validPath child rest
              | None => false
              end
          | None => false
          end
      | _ => false
      end
  end.

Definition stringLeaf (p : list segment) : NodeData :=
  {| text := [ {| key := None; value := SStr (str "old"); type := TString |} ];
     path := Some p |}.

Definition keyedRow : NodeData :=
  {| text := [ {| key := Some (str "name"); value := SStr (str "old"); type := TString |} ];
     path := Some [] |}.

Definition editingState (raw : jsstring) : modal :=
  {| editing := true; edited := raw; error := None |}.


Definition sampleRows : list NodeRow :=
  [ {| key := Some (str "id"); value := SNum (Fin false 7 0); type := TNumber |};
    {| key := Some (str "tags"); value := SStr (str "[2 items]"); type := TArray |};
    {| key := Some (str "name"); value := SStr (str "Ann"); type := TString |} ].

(** What may follow a number in a JSON text without being read as part
    of it. *)
Definition numberStop (rest : jsstring) : Prop :=
  match rest with
  | [] => True
  | c :: _ => isDigit c = false /\ c <> 46 /\ c <> 101 /\ c <> 69
  end.

Definition noDigitAhead (rest : jsstring) : Prop :=
  match rest with
  | [] => True
  | c :: _ => isDigit c = false
  end.

(** The numbers a JSON text denotes: finite, canonical, and not the
    negative zero. *)
Definition plainNumber (x : number) : Prop :=
  match x with
  | Fin neg m e =>
      (m = 0 -> neg = false /\ e = 0%Z) /\ (m <> 0 -> m mod 10 <> 0)
  | _ => False
  end.

(** *** What JSON text can carry *)

(** The order of the own keys of an object: array indices first, in
    ascending order, then the other keys, each once. *)
Definition keyBefore (k k' : jsstring) : Prop :=
  match arrayIndex k, arrayIndex k' with
  | Some i, Some j => i < j
  | Some _, None => True
  | None, Some _ => False
  | None, None => k <> k'
  end.

Fixpoint orderedKeys (ks : list jsstring) : Prop :=
  match ks with
  | [] => True
  | k :: t => Forall (keyBefore k) t /\ orderedKeys t
  end.

(** Values as the program builds them: numbers binary64 values in
    canonical form, objects with their keys in property order. *)
#[warnings="-register-all"]
Inductive wf : jsvalue -> Prop :=
| wf_undef : wf VUndef
| wf_null : wf VNull
| wf_bool b : wf (VBool b)
| wf_num n : canonical n -> isDouble n -> wf (VNum n)
| wf_str s : wf (VStr s)
| wf_arr l : Forall wf l -> wf (VArr l)
| wf_obj m :
    orderedKeys (List.map fst m) -> Forall (fun kv => wf (snd kv)) m -> wf (VObj m).

(** Values a JSON text denotes. *)
#[warnings="-register-all"]
Inductive plain : jsvalue -> Prop :=
| plain_null : plain VNull
| plain_bool b : plain (VBool b)
| plain_num n : plainNumber n -> isDouble n -> plain (VNum n)
| plain_str s : plain (VStr s)
| plain_arr l : Forall plain l -> plain (VArr l)
| plain_obj m :
    orderedKeys (List.map fst m) -> Forall (fun kv => plain (snd kv)) m ->
    plain (VObj m).

Definition jsonifyNumber (n : number) : jsvalue :=
  match n with
  | Fin neg m e => if m =? 0 then VNum (Fin false 0 0) else VNum n
  | _ => VNull
  end.

(** What is left of a value in its JSON text: an infinite number or
    NaN is [null], the negative zero is zero, [undefined] is [null] in an
    array and drops the property it is the value of. *)
Fixpoint jsonify (v : jsvalue) : jsvalue :=
  match v with
  | VNum n => jsonifyNumber n
  | VArr l =>
      VArr (List.map (fun x => match x with
                               | VUndef => VNull
                               | _ => jsonify x
                               end) l)
  | VObj m =>
      VObj (flat_map (fun kv => match snd kv with
                                | VUndef => []
                                | _ => [(fst kv, jsonify (snd kv))]
                                end) m)
  | _ => v
  end.

Definition jsonifyElement (x : jsvalue) : jsvalue :=
  match x with
  | VUndef => VNull
  | _ => jsonify x
  end.

Definition jsonifyMember (kv : jsstring * jsvalue) : list (jsstring * jsvalue) :=
  match snd kv with
  | VUndef => []
  | _ => [(fst kv, jsonify (snd kv))]
  end.

(** The value is one a JSON text denotes: no [undefined], no NaN, no
    infinite number and no negative zero in it. *)
Fixpoint representable (v : jsvalue) : bool :=
  match v with
  | VUndef => false
  | VNum (Fin neg m _) => negb (neg && (m =? 0))
  | VNum _ => false
  | VArr l => forallb representable l
  | VObj m => forallb (fun kv => representable (snd kv)) m
  | _ => true
  end.

Fixpoint sepTokens (parts : list (list token)) : list token :=
  match parts with
  | [] => []
  | [p] => p
  | p :: ps => p ++ TokComma :: sepTokens ps
  end.

(** The tokens of the JSON text of a plain value. *)
Fixpoint tokens (v : jsvalue) : list token :=
  match v with
  | VUndef => []
  | VNull => [TokNull]
  | VBool true => [TokTrue]
  | VBool false => [TokFalse]
  | VNum n => [TokNum n]
  | VStr s => [TokStr s]
  | VArr l => TokLBrack :: sepTokens (List.map tokens l) ++ [TokRBrack]
  | VObj m =>
      TokLBrace ::
      sepTokens (List.map (fun kv => TokStr (fst kv) :: TokColon :: tokens (snd kv)) m)
      ++ [TokRBrace]
  end.

(** What follows a value in the text [JSON.stringify] writes. *)
Definition valueStop (rest : jsstring) : Prop :=
  match rest with
  | [] => True
  | c :: _ => c = 44 \/ c = 10
  end.

(** [text] is read as the tokens [toks], whatever follows it. *)
Definition Lexes (text : jsstring) (toks : list token) : Prop :=
  forall rest ts f,
    valueStop rest -> lex f rest = Some ts ->
    lex (f + List.length text) (text ++ rest) = Some (toks ++ ts).

Definition isSpaces (s : jsstring) : Prop := Forall (fun c => isJsonSpace c = true) s.

(** A token a value can begin with. *)
Definition startsValue (t : token) : Prop :=
  match t with
  | TokRBrace | TokRBrack | TokColon | TokComma => False
  | _ => True
  end.

Definition tokenWf (t : token) : Prop :=
  match t with
  | TokNum n => canonical n /\ isDouble n
  | _ => True
  end.

Definition memberTokens (kv : jsstring * jsvalue) : list token :=
  TokStr (fst kv) :: TokColon :: tokens (snd kv).

(** The parser returns well-formed values on well-formed tokens. *)
Definition parsesWf (pv : list token -> option (jsvalue * list token)) : Prop :=
  forall ts v r, pv ts = Some (v, r) -> Forall tokenWf ts -> wf v /\ Forall tokenWf r.


(** *** The round trip of a save *)

(** The text a save hands to the json store. *)
Definition savedText (o : outcome) : option jsstring :=
  match o with
  | Returned _ (SetJson (Some t) :: _) => Some t
  | _ => None
  end.

Definition pathOf (nd : NodeData) : list segment :=
  match path nd with
  | Some p => p
  | None => []
  end.

(** The save of [raw] hands over a text which, parsed again and walked
    along the path of the selection, gives [v]. *)
Definition roundTrip (throws : call -> bool) (st : modal) (nd : NodeData)
  (raw jsonState : jsstring) (v : jsvalue) : Prop :=
  exists text d',
    savedText (applyEditToJson throws (Some nd) jsonState st raw) = Some text /\
    JSON_parse text = Some d' /\
    readPath d' (pathOf nd) = Some v.

(** The first element of the array [limits], a number. *)
Definition limitLeaf : NodeData :=
  {| text := [ {| key := None; value := SNum (Fin false 1 1); type := TNumber |} ];
     path := Some [SegKey (str "limits"); SegIdx 0] |}.

(* ================================================================== *)
(** ** The path shown in the modal *)

Module PathText.

(** A segment between its brackets: a number as it is, a string between
    double quotes, with no escape. *)
Definition segmentText (seg : segment) : jsstring :=
  match seg with
  | SegIdx n => toString (ofN n)
  | SegKey s => 34 :: s ++ [34]
  end.

(** [jsonPathToString]: the root marker for no path and for the empty
    path, else the segments joined by [][] between [$[] and []]. *)
Definition jsonPathToString (path : option (list segment)) : jsstring :=
  match path with
  | None => str "$"
  | Some [] => str "$"
  | Some p => 36 :: 91 :: joinWith [93; 91] (List.map segmentText p) ++ [93]
  end.

(** A segment with its brackets. *)
Definition bracketed (seg : segment) : jsstring :=
  91 :: segmentText seg ++ [93].

End PathText.

Import PathText.

(* ================================================================== *)
(** ** The Save button of the text editor *)

Module TextEditor.

(** What a [catch] receives: a string, [null] or [undefined], or any
    other value, of which the handler reads the property [message]
    ([VUndef] when there is none). *)
Inductive thrown :=
| ThrownString (s : jsstring)
| ThrownNullish
| ThrownOther (message : jsvalue).

(** The calls of the handler: to the json store, to the file store and
    to the toasts. *)
Inductive effect :=
| StoreJson (json : option jsstring)
| StoreContents (contents : jsstring) (hasChanges skipUpdate : bool)
| StoreHasChanges (hasChanges : bool)
| ToastSuccess (message : string)
| ToastError (message : jsvalue).

(** How the promise of the handler settles, with the calls made. *)
Inductive settled :=
| Resolved (calls : list effect)
| Rejected (calls : list effect).

(** The calls made, however the promise settles. *)
Definition callsOf (s : settled) : list effect :=
  match s with
  | Resolved calls => calls
  | Rejected calls => calls
  end.

Definition FailedToSave : jsstring := str "Failed to save".

(** [typeof err === "string" ? err : err?.message ?? "Failed to save"]. *)
Definition messageOf (err : thrown) : jsvalue :=
  match err with
  | ThrownString s => VStr s
  | ThrownNullish => VStr FailedToSave
  | ThrownOther VUndef => VStr FailedToSave
  | ThrownOther VNull => VStr FailedToSave
  | ThrownOther m => m
  end.

Section Save.

(** The file format, and the conversion of the contents of the editor by
    [contentToJson] (lib/utils/jsonAdapter, not among the sources): the
    value the promise resolves to, or what it is rejected with. *)
Variable format : Type.
Variable contentToJson : jsstring -> format -> jsvalue + thrown.

(** What a call throws, if it does. *)
Variable throws : effect -> option thrown.

(** The calls of the [try] block after the conversion, up to the first
    that throws. *)
Fixpoint tryEffects (cs : list effect) : list effect * option thrown :=
  match cs with
  | [] => ([], None)
  | c :: r =>
      match throws c with
      | Some err => ([c], Some err)
      | None => let (made, err) := tryEffects r in (c :: made, err)
      end
  end.

(** The [catch] block: one error toast, outside every [try]. *)
Definition catchBlock (made : list effect) (err : thrown) : settled :=
  let toast := ToastError (messageOf err) in
  match throws toast with
  | Some _ => Rejected (made ++ [toast])
  | None => Resolved (made ++ [toast])
  end.

(** The [onClick] of the Save button. *)
Definition saveClick (contents : jsstring) (fileType : format) : settled :=
  match contentToJson contents fileType with
  | inr err => catchBlock [] err
  | inl parsed =>
      let jsonStr := JSON_stringify parsed in
      let (made, err) :=
        tryEffects [StoreJson jsonStr;
                    StoreContents contents false true;
                    StoreHasChanges false;
                    ToastSuccess "Saved and graph updated"] in
      match err with
      | Some e => catchBlock made e
      | None => Resolved made
      end
  end.

End Save.

End TextEditor.

(* ================================================================== *)
(** ** More notions the statements use *)

(** The value is an array or an object. *)
Definition isContainer (v : jsvalue) : bool :=
  match v with
  | VArr _ | VObj _ => true
  | _ => false
  end.

(** [q] leaves the path [p]: at some position, after equal property
    keys, the two have segments that name different properties. *)
Fixpoint offPath (p q : list segment) : bool :=
  match p, q with
  | seg :: rest, seg' :: rest' =>
      if JsString.eqb (propertyKey seg) (propertyKey seg') then offPath rest rest'
      else true
  | _, _ => false
  end.

(** The text a call hands to a store. *)
Definition storedText (c : call) : option (option jsstring) :=
  match c with
  | SetJson t => Some t
  | SetContents t _ => Some t
  | SetGraph t => Some t
  | SetSelectedNode_null => None
  end.

(** The numbers of the rows are binary64 values in canonical form. *)
Definition rowCanonical (row : NodeRow) : Prop :=
  match value row with
  | SNum n => canonical n /\ isDouble n
  | _ => True
  end.

(** The type of the row is the type of its value; a number is one a
    JSON document can hold. *)
Definition rowTyped (row : NodeRow) : Prop :=
  match value row, type row with
  | SStr _, TString => True
  | SNum n, TNumber => plainNumber n /\ isDouble n
  | SBool _, TBoolean => True
  | SNull, TNull => True
  | _, _ => False
  end.

(** No double quote in the segment, when it is a key. *)
Definition quoteFree (seg : segment) : Prop :=
  match seg with
  | SegKey s => ~ In 34 s
  | SegIdx _ => True
  end.

(** The characters of the numerals [Number::toString] writes for finite
    numbers. *)
Definition isNumeralChar (c : N) : bool :=
  isDigit c || (c =? 45) || (c =? 46) || (c =? 101) || (c =? 43).

(** No [undefined] in the value: no hole in an array, no property whose
    value is [undefined]. *)
Fixpoint holeFree (v : jsvalue) : bool :=
  match v with
  | VUndef => false
  | VArr l => forallb holeFree l
  | VObj m => forallb (fun kv => holeFree (snd kv)) m
  | _ => true
  end.

(** The own property [k] of an object or the element [k] of an array,
    where there is one: what a step of a valid path reads. *)
Definition ownProp (v : jsvalue) (k : jsstring) : option jsvalue :=
  match v with
  | VObj m => lookup m k
  | VArr l =>
      match arrayIndex k with
      | Some i => nth_error l (N.to_nat i)
      | None => None
      end
  | _ => None
  end.

(** Two values have the same shape at their top: objects with the same
    keys in the same order, or arrays of the same length. *)
Definition sameShape (a b : jsvalue) : Prop :=
  match a, b with
  | VObj m, VObj m' => List.map fst m = List.map fst m'
  | VArr l, VArr l' => List.length l = List.length l'
  | _, _ => False
  end.



(** Two rows of a composite, the first with the key [__proto__]. *)
Definition protoRows : list NodeRow :=
  [ {| key := Some (str "__proto__"); value := SStr (str "x"); type := TString |};
    {| key := Some (str "a"); value := SNum (Fin false 1 0); type := TNumber |} ].
(* ================================================================== *)
(** * Properties *)

Local Open Scope N_scope.

(** ** Strings *)

Lemma jsstring_eqb_refl (a : jsstring) : JsString.eqb a a = true.
Proof.
  induction a as [|x a IH]; simpl; [reflexivity|].
  now rewrite N.eqb_refl, IH.
Qed.

Lemma jsstring_eqb_eq (a b : jsstring) : JsString.eqb a b = true <-> a = b.
Proof.
  split.
  - revert b; induction a as [|x a IH]; intros [|y b] H; simpl in H;
      try discriminate; [reflexivity|].
    apply andb_true_iff in H as [Hx Hab].
    apply N.eqb_eq in Hx. now rewrite Hx, (IH b Hab).
  - intros ->. apply jsstring_eqb_refl.
Qed.

Lemma jsstring_eqb_neq (a b : jsstring) : JsString.eqb a b = false <-> a <> b.
Proof.
  split.
  - intros H E. apply jsstring_eqb_eq in E. congruence.
  - intros H. destruct (JsString.eqb a b) eqn:E; [|reflexivity].
    apply jsstring_eqb_eq in E. contradiction.
Qed.

(** ** Coercion of a leaf *)

Lemma newValueOf_leaf (nd : NodeData) (row : NodeRow) (raw : jsstring) :
  leafRow nd = Some row -> newValueOf nd raw = coerceLeaf (type row) raw.
Proof. unfold newValueOf. now intros ->. Qed.

Lemma newValueOf_composite (nd : NodeData) (raw : jsstring) :
  leafRow nd = None ->
  newValueOf nd raw =
  match JSON_parse raw with Some v => Ok v | None => Err InvalidFragment end.
Proof. unfold newValueOf. now intros ->. Qed.

(** C5. On a leaf whose declared type is boolean the edited text is
    trimmed and lower-cased; the result is [true] exactly when that text
    is "true", [false] exactly when it is "false", and the failure
    InvalidBoolean in every other case. So "true" and "false" are
    accepted and "yes" is refused. *)
Theorem C5_boolean_coercion (nd : NodeData) (row : NodeRow) (raw : jsstring) :
  leafRow nd = Some row ->
  type row = TBoolean ->
  let v := toLowerCase (trim raw) in
  (newValueOf nd raw = Ok (VBool true) <-> v = str "true") /\
  (newValueOf nd raw = Ok (VBool false) <-> v = str "false") /\
  (newValueOf nd raw = Err InvalidBoolean <->
     v <> str "true" /\ v <> str "false") /\
  newValueOf nd (str "true") = Ok (VBool true) /\
  newValueOf nd (str "false") = Ok (VBool false) /\
  newValueOf nd (str "yes") = Err InvalidBoolean.
Proof.
  intros Hleaf Hty v.
  assert (E : forall r, newValueOf nd r = coerceLeaf TBoolean r).
  { intros r. rewrite (newValueOf_leaf nd row r Hleaf). now rewrite Hty. }
  rewrite !E. unfold coerceLeaf. fold v.
  assert (Hne : str "true" <> str "false") by (vm_compute; discriminate).
  destruct (JsString.eqb v (str "true")) eqn:Et;
    [apply jsstring_eqb_eq in Et | apply jsstring_eqb_neq in Et];
    (destruct (JsString.eqb v (str "false")) eqn:Ef;
     [apply jsstring_eqb_eq in Ef | apply jsstring_eqb_neq in Ef]); simpl.
  all: repeat split; intros; try reflexivity; try assumption;
    try discriminate; try contradiction; try intuition congruence.
Qed.

Lemma C5_boolean_coercion_witness :
  newValueOf booleanLeaf (str " TRUE ") = Ok (VBool true) <->
  toLowerCase (trim (str " TRUE ")) = str "true".
Proof.
  exact (proj1 (C5_boolean_coercion booleanLeaf
                  {| key := None; value := SBool true; type := TBoolean |}
                  (str " TRUE ") eq_refl eq_refl)).
Defined.

(** C6. On a leaf whose declared type is number the edited text is
    converted by [Number]; the coercion fails with InvalidNumber exactly
    when the result is NaN, and yields that number otherwise. "42" gives
    the number 42 and "abc" fails. *)
Theorem C6_number_coercion (nd : NodeData) (row : NodeRow) (raw : jsstring) :
  leafRow nd = Some row ->
  type row = TNumber ->
  (newValueOf nd raw = Err InvalidNumber <-> isNaN (ofString raw) = true) /\
  (isNaN (ofString raw) = false ->
     newValueOf nd raw = Ok (VNum (ofString raw))) /\
  newValueOf nd (str "42") = Ok (VNum (Fin false 42 0)) /\
  newValueOf nd (str "abc") = Err InvalidNumber.
Proof.
  intros Hleaf Hty.
  assert (E : forall r, newValueOf nd r = coerceLeaf TNumber r).
  { intros r. rewrite (newValueOf_leaf nd row r Hleaf). now rewrite Hty. }
  rewrite !E. unfold coerceLeaf.
  repeat split; try reflexivity.
  - destruct (isNaN (ofString raw)); [reflexivity | discriminate].
  - now intros ->.
  - now intros ->.
Qed.

Lemma C6_number_coercion_witness :
  newValueOf numberLeaf (str "1.5e3") = Ok (VNum (Fin false 15 2)).
Proof.
  exact (proj1 (proj2 (C6_number_coercion numberLeaf
                  {| key := None; value := SNum (Fin false 7 0); type := TNumber |}
                  (str "1.5e3") eq_refl eq_refl)) eq_refl).
Defined.

(** ** Own properties: reading what was written *)

Lemma lookup_replaceKey_same m k v x :
  lookup m k = Some x -> lookup (replaceKey m k v) k = Some v.
Proof.
  induction m as [|[k' v'] m IH]; simpl; [discriminate|].
  destruct (JsString.eqb k' k) eqn:E; simpl; rewrite E; auto.
Qed.

Lemma lookup_insertKey_same m k v :
  lookup m k = None -> lookup (insertKey m k v) k = Some v.
Proof.
  induction m as [|[k' v'] m IH]; simpl.
  - now rewrite jsstring_eqb_refl.
  - destruct (JsString.eqb k' k) eqn:E; [discriminate|]. intros H.
    destruct (arrayIndex k) as [i|]; [destruct (arrayIndex k') as [j|];
      [destruct (i <? j)|]|]; simpl;
      rewrite ?jsstring_eqb_refl, ?E; auto.
Qed.

Lemma lookup_objSet_same m k v : lookup (objSet m k v) k = Some v.
Proof.
  unfold objSet. destruct (lookup m k) eqn:E.
  - eapply lookup_replaceKey_same; eauto.
  - now apply lookup_insertKey_same.
Qed.

Lemma lookup_replaceKey_other m k k' v :
  JsString.eqb k k' = false -> lookup (replaceKey m k v) k' = lookup m k'.
Proof.
  intros Hne. induction m as [|[k0 v0] m IH]; simpl; [reflexivity|].
  destruct (JsString.eqb k0 k) eqn:E; simpl.
  - apply jsstring_eqb_eq in E. subst k0. now rewrite Hne.
  - now rewrite IH.
Qed.

Lemma lookup_insertKey_other m k k' v :
  JsString.eqb k k' = false -> lookup (insertKey m k v) k' = lookup m k'.
Proof.
  intros Hne. induction m as [|[k0 v0] m IH]; simpl.
  - now rewrite Hne.
  - destruct (arrayIndex k) as [i|]; [destruct (arrayIndex k0) as [j|];
      [destruct (i <? j)|]|]; simpl; rewrite ?Hne, ?IH; reflexivity.
Qed.

Lemma lookup_objSet_other m k k' v :
  JsString.eqb k k' = false -> lookup (objSet m k v) k' = lookup m k'.
Proof.
  intros Hne. unfold objSet. destruct (lookup m k);
    [now apply lookup_replaceKey_other | now apply lookup_insertKey_other].
Qed.

Lemma In_replaceKey m k v k0 v0 :
  In (k0, v0) (replaceKey m k v) -> In (k0, v0) m \/ (k0 = k /\ v0 = v).
Proof.
  induction m as [|[k' v'] m IH]; simpl; [tauto|].
  destruct (JsString.eqb k' k) eqn:E; simpl.
  - apply jsstring_eqb_eq in E. intros [H|H]; [inversion H; subst; auto | auto].
  - intros [H|H]; [auto | destruct (IH H); auto].
Qed.

Lemma In_insertKey m k v k0 v0 :
  In (k0, v0) (insertKey m k v) -> In (k0, v0) m \/ (k0 = k /\ v0 = v).
Proof.
  induction m as [|[k' v'] m IH]; simpl.
  - intros [H|[]]. inversion H; auto.
  - destruct (arrayIndex k) as [i|]; [destruct (arrayIndex k') as [j|];
      [destruct (i <? j)|]|]; simpl;
      intros [H|H]; try (inversion H; subst; now auto); auto;
      try (destruct H as [H|H]; now auto);
      destruct (IH H); auto.
Qed.

Lemma In_objSet m k v k0 v0 :
  In (k0, v0) (objSet m k v) -> In (k0, v0) m \/ (k0 = k /\ v0 = v).
Proof.
  unfold objSet. destruct (lookup m k);
    [apply In_replaceKey | apply In_insertKey].
Qed.

(** ** The projection of the rows to text *)

Lemma normalizeNodeData_composite rows :
  isComposite rows = true ->
  normalizeNodeData rows = stringifyObject (rowsObject rows).
Proof.
  destruct rows as [|r [|r' rows]]; simpl; try reflexivity.
  now intros ->.
Qed.

Lemma hasKey_keyOf row : hasKey row = true -> key row = Some (keyOf row) /\ keyOf row <> [].
Proof.
  unfold hasKey, keyOf. destruct (key row) as [[|c k]|]; try discriminate.
  intros _. split; [reflexivity | discriminate].
Qed.

(** Every entry of the mapping comes from a row that has a key and whose
    type is neither object nor array. *)
Lemma In_assignRow obj k s k0 v0 :
  In (k0, v0) (fst (assignRow obj k s)) ->
  In (k0, v0) (fst obj) \/ (k0 = k /\ v0 = ofScalar s).
Proof.
  unfold assignRow. destruct obj as [own proto].
  destruct (proto && JsString.eqb k (str "__proto__")).
  - destruct s; simpl; auto.
  - simpl. apply In_objSet.
Qed.

Lemma fold_addRow_origin rows : forall acc k v,
  In (k, v) (fst (fold_left addRow rows acc)) ->
  In (k, v) (fst acc) \/
  exists row, In row rows /\ isContainerType (type row) = false /\
              key row = Some k /\ k <> [] /\ v = ofScalar (value row).
Proof.
  induction rows as [|r rows IH]; simpl; intros acc k v H; [auto|].
  destruct (IH _ _ _ H) as [Hacc|(row & Hin & Hrest)].
  - unfold addRow in Hacc.
    destruct (isContainerType (type r)) eqn:Et; simpl in Hacc; [auto|].
    destruct (hasKey r) eqn:Ek; [|auto].
    destruct (In_assignRow _ _ _ _ _ Hacc) as [?|[-> ->]]; [auto|].
    right. exists r. destruct (hasKey_keyOf r Ek) as [Hk Hne]. auto 6.
  - right. exists row. auto.
Qed.

Lemma rowsObject_origin rows k v :
  In (k, v) (rowsObject rows) ->
  exists row, In row rows /\ isContainerType (type row) = false /\
              key row = Some k /\ k <> [] /\ v = ofScalar (value row).
Proof.
  intros H. destruct (fold_addRow_origin rows ([], true) k v H) as [[]|H']. exact H'.
Qed.

Lemma fold_addRow_filter (keep : NodeRow -> bool) rows :
  (forall row, keep row = false -> forall acc, addRow acc row = acc) ->
  forall acc, fold_left addRow (filter keep rows) acc = fold_left addRow rows acc.
Proof.
  intros Hskip. induction rows as [|r rows IH]; simpl; intros acc; [reflexivity|].
  destruct (keep r) eqn:E; simpl; [apply IH|].
  rewrite (Hskip r E). apply IH.
Qed.

Lemma serialize_scalar indent s : serialize indent (ofScalar s) = Some (scalarJson s).
Proof. destruct s as [x|n|[]|]; reflexivity. Qed.

Lemma stringifyObject_scalars entries :
  stringifyObject (List.map ofEntry entries) =
  wrap 123 125 [] (List.map memberText entries).
Proof.
  unfold stringifyObject, JSON_stringify. simpl. f_equal.
  induction entries as [|[k s] entries IH]; simpl; [reflexivity|].
  rewrite serialize_scalar. simpl. now rewrite IH.
Qed.

Lemma scalar_entries (m : list (jsstring * jsvalue)) :
  (forall k v, In (k, v) m -> exists s, v = ofScalar s) ->
  exists entries, m = List.map ofEntry entries.
Proof.
  induction m as [|[k v] m IH]; intros H.
  - now exists [].
  - destruct (H k v (or_introl eq_refl)) as [s ->].
    destruct IH as [entries ->]; [intros; eapply H; right; eauto|].
    now exists ((k, s) :: entries).
Qed.

Lemma ofScalar_inj s s' : ofScalar s = ofScalar s' -> s = s'.
Proof. destruct s, s'; simpl; intros H; inversion H; reflexivity. Qed.

Lemma wrap_root parts :
  wrap 123 125 [] parts =
  match parts with
  | [] => [123; 125]
  | _ => 123 :: 10 :: 32 :: 32 :: joinWith [44; 10; 32; 32] parts ++ [10; 125]
  end.
Proof. destruct parts; reflexivity. Qed.

Lemma fold_addRow_lookup rows k :
  k <> str "__proto__" ->
  forall acc,
    lookup (fst (fold_left addRow rows acc)) k =
      match find (fun row => negb (isContainerType (type row)) && hasKey row
                             && JsString.eqb (keyOf row) k) (rev rows) with
      | Some row => Some (ofScalar (value row))
      | None => lookup (fst acc) k
      end.
Proof.
  intros Hk.
  induction rows as [|r rows IH] using rev_ind; intros acc; [reflexivity|].
  rewrite fold_left_app, rev_app_distr. cbn [fold_left rev app find].
  unfold addRow at 1.
  destruct (negb (isContainerType (type r))); cbn [andb]; [|apply IH].
  destruct (hasKey r); cbn [andb]; [|apply IH].
  unfold assignRow. destruct (fold_left addRow rows acc) as [own proto] eqn:E.
  specialize (IH acc). rewrite E in IH. cbn [fst] in IH.
  destruct (JsString.eqb (keyOf r) k) eqn:Ek.
  - apply jsstring_eqb_eq in Ek. subst k.
    replace (JsString.eqb (keyOf r) (str "__proto__")) with false
      by (symmetry; now apply jsstring_eqb_neq).
    rewrite andb_false_r. cbn [fst]. apply lookup_objSet_same.
  - destruct (proto && JsString.eqb (keyOf r) (str "__proto__")).
    + destruct (value r); exact IH.
    + cbn [fst]. rewrite lookup_objSet_other by exact Ek. exact IH.
Qed.

(** C7. The projection of a composite row set is the JSON text
    of a mapping from keys to values. Rows of type object or array are
    skipped: dropping them all from the rows changes nothing, and every
    entry of the mapping comes from a row of another type. Under every
    key other than [__proto__] the mapping holds the value of the last
    row that has this key (not empty) and a type other than object or
    array, and nothing when there is no such row. The mapping is printed
    with line breaks and an indentation of two spaces. *)
Theorem C7_composite_projection (rows : list NodeRow) :
  isComposite rows = true ->
  rowsObject rows =
    rowsObject (filter (fun row => negb (isContainerType (type row))) rows) /\
  (forall k, k <> str "__proto__" ->
     lookup (rowsObject rows) k =
       match find (fun row => negb (isContainerType (type row)) && hasKey row
                              && JsString.eqb (keyOf row) k) (rev rows) with
       | Some row => Some (ofScalar (value row))
       | None => None
       end) /\
  exists entries : list (jsstring * scalar),
    rowsObject rows = List.map ofEntry entries /\
    (forall k s, In (k, s) entries ->
       exists row, In row rows /\ isContainerType (type row) = false /\
                   key row = Some k /\ value row = s) /\
    normalizeNodeData rows =
      match entries with
      | [] => [123; 125]
      | _ => 123 :: 10 :: 32 :: 32 ::
             joinWith [44; 10; 32; 32] (List.map memberText entries) ++ [10; 125]
      end.
Proof.
  intros Hc. split; [|split].
  - unfold rowsObject. f_equal. symmetry. apply fold_addRow_filter.
    intros row H acc. unfold addRow. now rewrite H.
  - intros k Hk. unfold rowsObject. now rewrite (fold_addRow_lookup rows k Hk).
  - destruct (scalar_entries (rowsObject rows)) as [entries He].
    { intros k v H. destruct (rowsObject_origin rows k v H) as (row & _ & _ & _ & _ & ->).
      now exists (value row). }
    exists entries. split; [exact He|]. split.
    + intros k s Hin.
      assert (Hin' : In (k, ofScalar s) (rowsObject rows)).
      { rewrite He. change (k, ofScalar s) with (ofEntry (k, s)). now apply in_map. }
      destruct (rowsObject_origin rows _ _ Hin') as (row & H1 & H2 & H3 & _ & H5).
      exists row. repeat split; auto. symmetry. now apply ofScalar_inj.
    + rewrite (normalizeNodeData_composite rows Hc), He, stringifyObject_scalars, wrap_root.
      destruct entries; reflexivity.
Qed.

Lemma C7_composite_projection_witness :
  isComposite sampleRows = true /\
  rowsObject sampleRows =
    rowsObject (filter (fun row => negb (isContainerType (type row))) sampleRows) /\
  (forall k, k <> str "__proto__" ->
     lookup (rowsObject sampleRows) k =
       match find (fun row => negb (isContainerType (type row)) && hasKey row
                              && JsString.eqb (keyOf row) k) (rev sampleRows) with
       | Some row => Some (ofScalar (value row))
       | None => None
       end) /\
  exists entries : list (jsstring * scalar),
    rowsObject sampleRows = List.map ofEntry entries /\
    (forall k s, In (k, s) entries ->
       exists row, In row sampleRows /\ isContainerType (type row) = false /\
                   key row = Some k /\ value row = s) /\
    normalizeNodeData sampleRows =
      match entries with
      | [] => [123; 125]
      | _ => 123 :: 10 :: 32 :: 32 ::
             joinWith [44; 10; 32; 32] (List.map memberText entries) ++ [10; 125]
      end.
Proof.
  split; [reflexivity | apply (C7_composite_projection sampleRows); reflexivity].
Defined.

(** C7 fails on the key [__proto__]: a row with this key and a string
    value has a key and a type other than object or array, and the
    mapping has no entry for it. The assignment [obj[row.key] = row.value]
    goes to the accessor of [Object.prototype], which ignores a string:
    the projection prints the other row only. *)
Lemma C7_counterexample_proto :
  isComposite protoRows = true /\
  In {| key := Some (str "__proto__"); value := SStr (str "x"); type := TString |}
     protoRows /\
  lookup (rowsObject protoRows) (str "__proto__") = None /\
  rowsObject protoRows = [(str "a", VNum (Fin false 1 0))] /\
  normalizeNodeData protoRows
    = 123 :: 10 :: 32 :: 32 :: jtext "'a': 1" ++ [10; 125].
Proof. repeat split. now left. Qed.

(** C8. The projection of a single row without key is the value of the
    row as plain text, whatever its type: a string is given as it is,
    with no quotes and no escapes, a number by its numeral, a boolean by
    [true] or [false], null by [null]. The projection of no row is the
    text of the empty object. *)
Theorem C8_leaf_projection (k : option jsstring) (v : scalar) (t : rowType) :
  k = None \/ k = Some [] ->
  normalizeNodeData [ {| key := k; value := v; type := t |} ] =
    match v with
    | SStr x => x
    | SNum n => toString n
    | SBool b => if b then str "true" else str "false"
    | SNull => str "null"
    end /\
  normalizeNodeData [] = str "{}".
Proof.
  intros [-> | ->]; split; try reflexivity; destruct v as [x|n|[]|]; reflexivity.
Qed.

Lemma C8_leaf_projection_witness :
  normalizeNodeData
    [ {| key := None; value := SStr (jtext "say 'hi'"); type := TString |} ]
  = jtext "say 'hi'".
Proof.
  exact (proj1 (C8_leaf_projection None (SStr (jtext "say 'hi'")) TString
                  (or_introl eq_refl))).
Defined.

Lemma fold_addRow_skip rows :
  (forall row, In row rows -> hasKey row = false \/ isContainerType (type row) = true) ->
  forall acc, fold_left addRow rows acc = acc.
Proof.
  induction rows as [|r rows IH]; simpl; intros H acc; [reflexivity|].
  assert (E : addRow acc r = acc).
  { unfold addRow. destruct (H r (or_introl eq_refl)) as [-> | ->];
      simpl; destruct (isContainerType (type r)); reflexivity. }
  rewrite E. apply IH. intros row Hin. apply H. now right.
Qed.

(** C10. A row whose key is absent or the empty string is never part of
    the mapping of the composite projection: dropping those rows changes
    nothing, and every key of the mapping is a non-empty key of a row. A
    composite row set made of keyless rows and rows of type object or
    array only is projected to the text of the empty object. *)
Theorem C10_keyless_rows_excluded (rows : list NodeRow) :
  rowsObject rows = rowsObject (filter hasKey rows) /\
  (forall k v, In (k, v) (rowsObject rows) ->
     k <> [] /\ exists row, In row rows /\ key row = Some k) /\
  (isComposite rows = true ->
   (forall row, In row rows ->
      hasKey row = false \/ isContainerType (type row) = true) ->
   normalizeNodeData rows = str "{}").
Proof.
  split; [|split].
  - unfold rowsObject. f_equal. symmetry. apply fold_addRow_filter.
    intros row H acc. unfold addRow. rewrite H.
    destruct (isContainerType (type row)); reflexivity.
  - intros k v H.
    destruct (rowsObject_origin rows k v H) as (row & H1 & _ & H3 & H4 & _).
    split; [exact H4 | now exists row].
  - intros Hc Hall. rewrite (normalizeNodeData_composite rows Hc).
    unfold rowsObject. rewrite (fold_addRow_skip rows Hall). reflexivity.
Qed.

Lemma C10_keyless_rows_excluded_witness :
  normalizeNodeData
    [ {| key := None; value := SStr (str "loose"); type := TString |};
      {| key := Some []; value := SNum (Fin false 1 0); type := TNumber |};
      {| key := Some (str "items"); value := SStr (str "[3 items]"); type := TArray |} ]
  = str "{}".
Proof.
  apply (proj2 (proj2 (C10_keyless_rows_excluded _))); [reflexivity|].
  intros row [<-|[<-|[<-|[]]]]; simpl; auto.
Defined.

(** ** Saving *)

Lemma leafRow_spec nd row :
  leafRow nd = Some row <->
  text nd = [row] /\ (key row = None \/ key row = Some []).
Proof.
  unfold leafRow, hasKey. split.
  - destruct (text nd) as [|r [|r' l]]; try discriminate.
    destruct (key r) as [[|c k]|] eqn:E; simpl; try discriminate;
      intros H; inversion H; subst; auto.
  - intros [-> [-> | ->]]; reflexivity.
Qed.

(** C9. A selection is saved as a leaf, by the coercion of its type,
    exactly when it has one row and the key of that row is absent or the
    empty string: the value of the save is then the coercion of the
    edited text by the type of that row, and for every other selection
    (no row, several rows, or one row with a non-empty key) it is the
    edited text parsed as JSON, with the failure InvalidFragment when it
    does not parse. A selection of one row with a non-empty key is saved
    as a composite: when its edited text does not parse (the document
    being well-formed) the save sets the error InvalidFragment and calls
    no store. *)
Theorem C9_leaf_dispatch (throws : call -> bool) (nd : NodeData) (row : NodeRow)
  (raw jsonState : jsstring) (st : modal) :
  (isLeaf nd = true <->
     exists r, text nd = [r] /\ (key r = None \/ key r = Some [])) /\
  ((exists r, text nd = [r] /\ (key r = None \/ key r = Some [])) ->
     exists r, text nd = [r] /\ newValueOf nd raw = coerceLeaf (type r) raw) /\
  (~ (exists r, text nd = [r] /\ (key r = None \/ key r = Some [])) ->
     newValueOf nd raw =
       match JSON_parse raw with
       | Some v => Ok v
       | None => Err InvalidFragment
       end) /\
  (text nd = [row] -> hasKey row = false ->
     newValueOf nd raw = coerceLeaf (type row) raw) /\
  (text nd = [row] -> hasKey row = true ->
     newValueOf nd raw =
       match JSON_parse raw with
       | Some v => Ok v
       | None => Err InvalidFragment
       end) /\
  (text nd = [row] -> hasKey row = true ->
     JSON_parse jsonState <> None -> JSON_parse raw = None ->
     applyEditToJson throws (Some nd) jsonState st raw =
       Returned (setError st (Some InvalidFragment)) []).
Proof.
  split; [|split; [|split; [|split; [|split]]]].
  - unfold isLeaf. split.
    + destruct (leafRow nd) as [r|] eqn:E; [|discriminate].
      intros _. exists r. now apply leafRow_spec.
    + intros [r H]. apply leafRow_spec in H. now rewrite H.
  - intros [r H]. exists r. split; [exact (proj1 H)|].
    apply newValueOf_leaf. now apply leafRow_spec.
  - intros H. apply newValueOf_composite.
    destruct (leafRow nd) as [r|] eqn:E; [|reflexivity].
    exfalso. apply H. exists r. now apply leafRow_spec.
  - intros Ht Hk. apply newValueOf_leaf. unfold leafRow. now rewrite Ht, Hk.
  - intros Ht Hk. apply newValueOf_composite. unfold leafRow. now rewrite Ht, Hk.
  - intros Ht Hk Hdoc Hraw. unfold applyEditToJson.
    destruct (JSON_parse jsonState) as [doc|]; [|contradiction].
    rewrite newValueOf_composite by (unfold leafRow; now rewrite Ht, Hk).
    now rewrite Hraw.
Qed.

Lemma C9_leaf_dispatch_witness :
  applyEditToJson (fun _ => false) (Some keyedRow) (jtext "{'name': 'old'}")
    (editingState (str "new")) (str "new")
  = Returned (setError (editingState (str "new")) (Some InvalidFragment)) [].
Proof.
  apply (proj2 (proj2 (proj2 (proj2 (proj2
    (C9_leaf_dispatch (fun _ => false) keyedRow
       {| key := Some (str "name"); value := SStr (str "old"); type := TString |}
       (str "new") (jtext "{'name': 'old'}") (editingState (str "new"))))))));
    try reflexivity.
  vm_compute. discriminate.
Defined.

(** C2. When the text of the current document does not parse as JSON,
    the save of any selection with any edited text sets the error
    MalformedDocument and does nothing else: no store is called (neither
    the json store nor the file contents nor the graph), the edited text
    and the editing flag stay, and the text of the document is what it
    was. *)
Theorem C2_malformed_document (throws : call -> bool) (nd : NodeData)
  (jsonState raw : jsstring) (st : modal) :
  JSON_parse jsonState = None ->
  exists st' calls,
    applyEditToJson throws (Some nd) jsonState st raw = Returned st' calls /\
    error st' = Some MalformedDocument /\
    calls = [] /\
    edited st' = edited st /\ editing st' = editing st /\
    jsonAfter calls (Some jsonState) = Some jsonState.
Proof.
  intros H. exists (setError st (Some MalformedDocument)), [].
  unfold applyEditToJson. rewrite H. repeat split.
Qed.

Lemma C2_malformed_document_witness :
  exists st' calls,
    applyEditToJson (fun _ => false) (Some (stringLeaf [SegKey (str "name")]))
      (jtext "{'name': ") (editingState (str "Ann")) (str "Ann")
    = Returned st' calls /\
    error st' = Some MalformedDocument /\
    calls = [] /\
    edited st' = edited (editingState (str "Ann")) /\
    editing st' = editing (editingState (str "Ann")) /\
    jsonAfter calls (Some (jtext "{'name': ")) = Some (jtext "{'name': ").
Proof.
  apply C2_malformed_document. reflexivity.
Defined.

(** A failure that is reported keeps the edited text and the editing
    flag; unless it is the failure of a store, no store was called. *)
Lemma save_failure_reported (throws : call -> bool) nd jsonState st raw st' calls msg :
  applyEditToJson throws (Some nd) jsonState st raw = Returned st' calls ->
  error st' = Some msg ->
  edited st' = edited st /\ editing st' = editing st /\
  (msg <> ApplyFailed -> calls = []).
Proof.
  unfold applyEditToJson.
  destruct (JSON_parse jsonState) as [doc|];
    [|intros [= <- <-] _; repeat split].
  destruct (newValueOf nd raw) as [v|message];
    [|intros [= <- <-] _; repeat split].
  destruct (applyAtPath doc _ v) as [doc'|]; [|discriminate].
  destruct (tryCalls throws _) as [made threw].
  destruct threw; intros [= <- <-]; simpl.
  - intros [= <-]. repeat split. congruence.
  - discriminate.
Qed.

Lemma assignAt_null seg rest v : assignAt VNull seg rest v = None.
Proof. destruct rest; reflexivity. Qed.

(** C4 fails on the code. The walk along the path and the assignment
    are outside every [try]: when the document is [null] and the path is
    not empty, the TypeError of the assignment leaves [applyEditToJson]
    with no error set and no store called, whatever the selection and the
    accepted edit are. When a store throws after [setJson] has returned,
    the error ApplyFailed is set but the json store already holds the new
    text. *)
Theorem C4_uncaught_type_error (throws : call -> bool) (st : modal) :
  (forall nd raw v seg rest,
     path nd = Some (seg :: rest) -> newValueOf nd raw = Ok v ->
     applyEditToJson throws (Some nd) (str "null") st raw = Uncaught []) /\
  applyEditToJson throws (Some (stringLeaf [SegKey (str "name")]))
    (str "null") st (str "Ann") = Uncaught [] /\
  (throws = (fun c => match c with SetGraph _ => true | _ => false end) ->
   exists calls,
     applyEditToJson throws (Some (stringLeaf [SegKey (str "name")]))
       (str "{}") st (str "Ann")
     = Returned (setError st (Some ApplyFailed)) calls /\
     jsonAfter calls (Some (str "{}")) <> Some (str "{}")).
Proof.
  split; [|split; [reflexivity|]].
  - intros nd raw v seg rest Hp Hv. unfold applyEditToJson.
    change (JSON_parse (str "null")) with (Some VNull).
    rewrite Hv, Hp. cbn [applyAtPath]. now rewrite assignAt_null.
  - intros ->. eexists. split; [reflexivity|].
    vm_compute. discriminate.
Qed.

Lemma C4_uncaught_type_error_witness :
  applyEditToJson (fun _ => false) (Some booleanLeaf) (str "null")
    (editingState (str "true")) (str "true") = Uncaught [] /\
  exists calls,
    applyEditToJson (fun c => match c with SetGraph _ => true | _ => false end)
      (Some (stringLeaf [SegKey (str "name")])) (str "{}")
      (editingState (str "Ann")) (str "Ann")
    = Returned (setError (editingState (str "Ann")) (Some ApplyFailed)) calls /\
    jsonAfter calls (Some (str "{}")) <> Some (str "{}").
Proof.
  split.
  - exact (proj1 (C4_uncaught_type_error (fun _ => false) (editingState (str "true")))
             booleanLeaf (str "true") (VBool true) (SegKey (str "active")) []
             eq_refl eq_refl).
  - exact (proj2 (proj2 (C4_uncaught_type_error _ (editingState (str "Ann")))) eq_refl).
Defined.

(** ** Walking the path *)

Lemma nth_replaceNth l : forall i v,
  (i < List.length l)%nat -> nth i (replaceNth l i v) VUndef = v.
Proof.
  induction l as [|x l IH]; simpl; intros i v H; [lia|].
  destruct i; simpl; [reflexivity|]. apply IH. lia.
Qed.

Lemma nth_arrSet l i v : nth (N.to_nat i) (arrSet l i v) VUndef = v.
Proof.
  unfold arrSet. destruct (N.to_nat i <? List.length l)%nat eqn:E.
  - apply Nat.ltb_lt in E. now apply nth_replaceNth.
  - apply Nat.ltb_ge in E.
    rewrite app_nth2 by lia. rewrite app_nth2 by (rewrite repeat_length; lia).
    rewrite repeat_length.
    replace (N.to_nat i - List.length l - (N.to_nat i - List.length l))%nat
      with 0%nat by lia.
    reflexivity.
Qed.

Lemma getProp_setProp_same ptr k v :
  addressable ptr k ->
  exists r, setProp ptr k v = Some r /\ getProp r k = Some v /\ addressable r k.
Proof.
  destruct ptr as [| |b|n|s|l|m]; simpl; try contradiction; intros H.
  - destruct (arrayIndex k) as [i|] eqn:E; [|contradiction].
    exists (VArr (arrSet l i v)). simpl. rewrite E, nth_arrSet.
    repeat split. congruence.
  - exists (VObj (objSet m k v)). simpl. rewrite lookup_objSet_same. auto.
Qed.






(** ** Decimal digits *)

Lemma size_nat_bound (m : N) : m < 2 ^ N.of_nat (N.size_nat m).
Proof.
  destruct m as [|p]; [reflexivity|]. simpl N.size_nat.
  induction p as [p IH|p IH|]; simpl Pos.size_nat.
  - rewrite Nat2N.inj_succ, N.pow_succ_r'. lia.
  - rewrite Nat2N.inj_succ, N.pow_succ_r'. lia.
  - reflexivity.
Qed.

Lemma pow2_succ_nat (f : nat) : 2 ^ N.of_nat (S f) = 2 * 2 ^ N.of_nat f.
Proof. now rewrite Nat2N.inj_succ, N.pow_succ_r'. Qed.

Lemma pow10_succ_nat (j : nat) : 10 ^ N.of_nat (S j) = 10 * 10 ^ N.of_nat j.
Proof. now rewrite Nat2N.inj_succ, N.pow_succ_r'. Qed.

Lemma div10_lt (m : N) (f : nat) : m < 2 * 2 ^ N.of_nat f -> m / 10 < 2 ^ N.of_nat f.
Proof.
  intros H. apply N.Div0.div_lt_upper_bound. lia.
Qed.

Lemma digits_aux_app f : forall m acc,
  digits_aux f m acc = digits_aux f m [] ++ acc.
Proof.
  induction f as [|f IH]; intros m acc; simpl; [reflexivity|].
  destruct (m =? 0); [reflexivity|].
  rewrite (IH _ (m mod 10 :: acc)), (IH _ [m mod 10]).
  now rewrite <- app_assoc.
Qed.

Lemma digits_aux_fuel f : forall m f',
  m < 2 ^ N.of_nat f -> m < 2 ^ N.of_nat f' ->
  digits_aux f m [] = digits_aux f' m [].
Proof.
  induction f as [|f IH]; intros m f' H H'.
  - simpl in H. assert (m = 0) by lia. subst. destruct f'; reflexivity.
  - destruct f' as [|f'].
    + simpl in H'. assert (m = 0) by lia. subst. reflexivity.
    + simpl. destruct (m =? 0) eqn:E; [reflexivity|].
      rewrite (digits_aux_app f), (digits_aux_app f'). f_equal.
      rewrite pow2_succ_nat in H, H'.
      apply IH; now apply div10_lt.
Qed.

Lemma digits_step (m : N) :
  m <> 0 -> digits m = digits (m / 10) ++ [m mod 10].
Proof.
  intros Hm. unfold digits.
  pose proof (size_nat_bound m) as Hb.
  destruct (N.size_nat m) as [|f] eqn:Ef.
  - simpl in Hb. lia.
  - simpl. apply N.eqb_neq in Hm. rewrite Hm.
    rewrite digits_aux_app. f_equal.
    rewrite pow2_succ_nat in Hb.
    apply digits_aux_fuel; [now apply div10_lt | apply size_nat_bound].
Qed.

Lemma of_digits_snoc l d : of_digits (l ++ [d]) = 10 * of_digits l + d.
Proof. unfold of_digits. now rewrite fold_left_app. Qed.

Lemma of_digits_app a b :
  of_digits (a ++ b) = of_digits a * 10 ^ N.of_nat (List.length b) + of_digits b.
Proof.
  induction b as [|d b IH] using rev_ind.
  - rewrite app_nil_r. simpl. change (of_digits []) with 0. lia.
  - rewrite app_assoc, !of_digits_snoc, IH, length_app. simpl List.length.
    rewrite Nat.add_1_r, pow10_succ_nat. lia.
Qed.

Lemma of_digits_zeros j : of_digits (repeat 0 j) = 0.
Proof.
  induction j as [|j IH]; [reflexivity|].
  change (repeat 0 (S j)) with ([0] ++ repeat 0 j).
  rewrite of_digits_app, IH. reflexivity.
Qed.

Lemma of_digits_leading_zeros j l : of_digits (repeat 0 j ++ l) = of_digits l.
Proof. rewrite of_digits_app, of_digits_zeros. lia. Qed.

(** Induction on a number by its decimal digits. *)
Lemma decimal_induction (P : N -> Prop) :
  P 0 -> (forall m, m <> 0 -> P (m / 10) -> P m) -> forall m, P m.
Proof.
  intros H0 Hs m. induction m as [m IH] using (well_founded_induction N.lt_wf_0).
  destruct (N.eq_dec m 0) as [->|Hm]; [exact H0|].
  apply Hs; [exact Hm|]. apply IH. apply N.div_lt; lia.
Qed.

Lemma of_digits_digits (m : N) : of_digits (digits m) = m.
Proof.
  induction m as [|m Hm IH] using decimal_induction; [reflexivity|].
  rewrite (digits_step m Hm), of_digits_snoc, IH.
  symmetry. apply N.div_mod'.
Qed.

Lemma digits_lt10 (m : N) : Forall (fun d => d < 10) (digits m).
Proof.
  induction m as [|m Hm IH] using decimal_induction; [constructor|].
  rewrite (digits_step m Hm). apply Forall_app. split; [exact IH|].
  constructor; [|constructor]. apply N.mod_lt. lia.
Qed.

Lemma digits_head (m : N) :
  m <> 0 -> exists d ds, digits m = d :: ds /\ d <> 0.
Proof.
  induction m as [|m Hm IH] using decimal_induction; [congruence|].
  intros _. rewrite (digits_step m Hm).
  destruct (N.eq_dec (m / 10) 0) as [E|E].
  - rewrite E. simpl. exists (m mod 10), []. split; [reflexivity|].
    pose proof (N.div_mod' m 10). lia.
  - destruct (IH E) as (d & ds & -> & Hd). exists d, (ds ++ [m mod 10]). auto.
Qed.

(** ** Canonical numbers *)

Lemma strip_zeros_canonical fuel : forall m e,
  m <> 0 -> m < 2 ^ N.of_nat fuel ->
  fst (strip_zeros fuel m e) <> 0 /\ fst (strip_zeros fuel m e) mod 10 <> 0.
Proof.
  induction fuel as [|f IH]; intros m e Hm Hb.
  - simpl in Hb. lia.
  - simpl. destruct (m mod 10 =? 0) eqn:E.
    + apply N.eqb_eq in E. rewrite pow2_succ_nat in Hb.
      apply IH; [|now apply div10_lt].
      pose proof (N.div_mod' m 10). lia.
    + apply N.eqb_neq in E. simpl. auto.
Qed.

Lemma mkFin_canonical neg m e : canonical (mkFin neg m e).
Proof.
  unfold mkFin, normalize. destruct (m =? 0) eqn:E.
  - simpl. split; [reflexivity | congruence].
  - apply N.eqb_neq in E.
    pose proof (strip_zeros_canonical (N.size_nat m) m e E (size_nat_bound m)) as [H1 H2].
    destruct (strip_zeros (N.size_nat m) m e) as [m' e']. simpl in *.
    split; [congruence | auto].
Qed.

Lemma strip_zeros_pow j : forall fuel m e,
  m <> 0 -> m mod 10 <> 0 -> m * 10 ^ N.of_nat j < 2 ^ N.of_nat fuel ->
  strip_zeros fuel (m * 10 ^ N.of_nat j) e = (m, (e + Z.of_nat j)%Z).
Proof.
  induction j as [|j IH]; intros fuel m e Hm Hd Hb.
  - simpl N.of_nat. rewrite N.pow_0_r, N.mul_1_r, Z.add_0_r.
    destruct fuel; simpl; [reflexivity|].
    apply N.eqb_neq in Hd. now rewrite Hd.
  - destruct fuel as [|f].
    + simpl in Hb. assert (0 < 10 ^ N.of_nat (S j)) by (apply N.neq_0_lt_0, N.pow_nonzero; lia).
      nia.
    + rewrite pow10_succ_nat in *. rewrite pow2_succ_nat in Hb.
      replace (m * (10 * 10 ^ N.of_nat j)) with ((m * 10 ^ N.of_nat j) * 10) in * by lia.
      cbn [strip_zeros].
      rewrite N.Div0.mod_mul, N.div_mul by lia. rewrite N.eqb_refl.
      rewrite IH by (auto; lia). f_equal. lia.
Qed.

Lemma normalize_pow m j e :
  m <> 0 -> m mod 10 <> 0 ->
  normalize (m * 10 ^ N.of_nat j) e = (m, (e + Z.of_nat j)%Z).
Proof.
  intros Hm Hd. unfold normalize.
  assert (Hp : m * 10 ^ N.of_nat j <> 0).
  { apply N.neq_mul_0. split; [exact Hm | apply N.pow_nonzero; lia]. }
  apply N.eqb_neq in Hp. rewrite Hp.
  apply strip_zeros_pow; auto. apply size_nat_bound.
Qed.

Lemma mkFin_pow neg m j :
  m <> 0 -> m mod 10 <> 0 ->
  mkFin neg (m * 10 ^ N.of_nat j) 0 = Fin neg m (Z.of_nat j).
Proof.
  intros Hm Hd. unfold mkFin. now rewrite normalize_pow.
Qed.

Lemma mkFin_id neg m e :
  m <> 0 -> m mod 10 <> 0 -> mkFin neg m e = Fin neg m e.
Proof.
  intros Hm Hd. unfold mkFin.
  pose proof (normalize_pow m 0 e Hm Hd) as H.
  simpl N.of_nat in H. rewrite N.pow_0_r, N.mul_1_r, Z.add_0_r in H.
  now rewrite H.
Qed.

(** ** Reading back a printed number *)

Lemma spanDigits_chars ds rest :
  Forall (fun d => d < 10) ds -> noDigitAhead rest ->
  spanDigits (chars ds ++ rest) = (ds, rest).
Proof.
  intros Hd Hr. induction Hd as [|d ds Hlt _ IH]; simpl.
  - destruct rest as [|c t]; [reflexivity|]. simpl in *. now rewrite Hr.
  - unfold digitChar, isDigit, digitVal.
    replace ((48 <=? 48 + d) && (48 + d <=? 57)) with true
      by (symmetry; apply andb_true_iff; split; apply N.leb_le; lia).
    fold (chars ds). rewrite IH. f_equal. f_equal. lia.
Qed.

Lemma zeros_chars j : zeros j = chars (repeat 0 j).
Proof. unfold zeros, chars. now rewrite map_repeat. Qed.

Lemma chars_app a b : chars (a ++ b) = chars a ++ chars b.
Proof. apply map_app. Qed.

Lemma Forall_lt10_zeros j : Forall (fun d => d < 10) (repeat 0 j).
Proof. apply Forall_forall. intros d H. apply repeat_spec in H. subst. lia. Qed.

Lemma numberStop_noDigit rest : numberStop rest -> noDigitAhead rest.
Proof. destruct rest; simpl; tauto. Qed.

Lemma lexFraction_none rest : numberStop rest -> lexFraction rest = Some ([], rest).
Proof.
  destruct rest as [|c t]; simpl; [reflexivity|]. intros (_ & H & _).
  apply N.eqb_neq in H. now rewrite H.
Qed.

Lemma lexFraction_digits fr rest :
  fr <> [] -> Forall (fun d => d < 10) fr -> noDigitAhead rest ->
  lexFraction (46 :: chars fr ++ rest) = Some (fr, rest).
Proof.
  intros Hne Hlt Hr. simpl. rewrite spanDigits_chars by assumption.
  destruct fr; [contradiction | reflexivity].
Qed.

Lemma exponentOpt_none rest : numberStop rest -> exponentOpt rest = Some (0%Z, rest).
Proof.
  destruct rest as [|c t]; simpl; [reflexivity|]. intros (_ & _ & H1 & H2).
  apply N.eqb_neq in H1, H2. now rewrite H1, H2.
Qed.

Lemma decimal_digits (a : N) :
  exists ds, decimal a = chars ds /\ ds <> [] /\ Forall (fun d => d < 10) ds /\
             of_digits ds = a.
Proof.
  unfold decimal. destruct (a =? 0) eqn:E.
  - apply N.eqb_eq in E. subst. exists [0]. repeat split; try discriminate.
    constructor; [lia | constructor].
  - apply N.eqb_neq in E. exists (digits a).
    destruct (digits_head a E) as (d & ds & H & _).
    repeat split; [rewrite H; discriminate | apply digits_lt10 | apply of_digits_digits].
Qed.

Lemma exponentOpt_exponentPart n rest :
  numberStop rest ->
  exponentOpt (exponentPart n ++ rest) = Some ((n - 1)%Z, rest).
Proof.
  intros Hr. unfold exponentPart.
  destruct (decimal_digits (Z.abs_N (n - 1))) as (ds & -> & Hne & Hlt & Hv).
  assert (Hs : spanDigits (chars ds ++ rest) = (ds, rest))
    by (apply spanDigits_chars; [exact Hlt | now apply numberStop_noDigit]).
  destruct (n - 1 <? 0)%Z eqn:E; simpl; unfold exponentDigits; rewrite Hs;
    destruct ds as [|d ds]; try congruence; rewrite Hv; f_equal; f_equal.
  - apply Z.ltb_lt in E. lia.
  - apply Z.ltb_ge in E. lia.
Qed.

(** The decimal of a number token, from its parts. *)
Lemma lexDecimal_parts d ds tail fr r2 x r3 :
  Forall (fun d => d < 10) (d :: ds) ->
  (d =? 0) && negb ((List.length ds =? 0)%nat) = false ->
  noDigitAhead tail ->
  lexFraction tail = Some (fr, r2) ->
  exponentOpt r2 = Some (x, r3) ->
  lexDecimal (chars (d :: ds) ++ tail) =
    Some (of_digits ((d :: ds) ++ fr), (x - Z.of_nat (List.length fr))%Z, r3).
Proof.
  intros Hlt Hz Ht Hf He. unfold lexDecimal.
  rewrite spanDigits_chars by assumption.
  rewrite Hz, Hf, He. reflexivity.
Qed.


Lemma lexFraction_exponent n rest :
  lexFraction (exponentPart n ++ rest) = Some ([], exponentPart n ++ rest).
Proof. reflexivity. Qed.

Lemma noDigitAhead_exponent n rest : noDigitAhead (exponentPart n ++ rest).
Proof. reflexivity. Qed.

(** The decimal of the number token of the numeral of a positive
    canonical number is, in canonical form, that number. *)
Lemma lexDecimal_toString_pos_mkFin neg m e rest :
  m <> 0 -> m mod 10 <> 0 -> numberStop rest ->
  match lexDecimal (toString_pos m e ++ rest) with
  | Some (a, b, r) => Some (mkFin neg a b, r)
  | None => None
  end = Some (Fin neg m e, rest).
Proof.
  intros Hm Hd Hr.
  destruct (digits_head m Hm) as (d0 & ds & Hs & Hd0).
  pose proof (digits_lt10 m) as Hlt.
  pose proof (of_digits_digits m) as Hof.
  assert (Hd0' : (d0 =? 0) = false) by now apply N.eqb_neq.
  assert (Hnd : noDigitAhead rest) by now apply numberStop_noDigit.
  unfold toString_pos.
  rewrite Hs in *.
  set (s := d0 :: ds) in *.
  set (k := Z.of_nat (List.length s)).
  set (n := (e + k)%Z).
  assert (Hk : k = Z.of_nat (S (List.length ds))) by reflexivity.
  destruct ((k <=? n)%Z && (n <=? 21)%Z) eqn:C1.
  { (* the digits, then zeros *)
    apply andb_true_iff in C1 as [C1 _]. apply Z.leb_le in C1.
    set (j := Z.to_nat (n - k)).
    rewrite zeros_chars, <- chars_app.
    change (s ++ repeat 0 j) with (d0 :: (ds ++ repeat 0 j)).
    rewrite (lexDecimal_parts d0 (ds ++ repeat 0 j) rest [] rest 0%Z rest).
    - cbv beta iota. rewrite app_nil_r.
      change (d0 :: ds ++ repeat 0 j) with (s ++ repeat 0 j).
      rewrite of_digits_app, of_digits_zeros, repeat_length, N.add_0_r, Hof.
      simpl List.length. rewrite Z.sub_0_r, mkFin_pow by assumption.
      repeat f_equal. unfold j, n in *. lia.
    - change (d0 :: ds ++ repeat 0 j) with (s ++ repeat 0 j).
      apply Forall_app. split; [exact Hlt | apply Forall_lt10_zeros].
    - now rewrite Hd0'.
    - exact Hnd.
    - now apply lexFraction_none.
    - now apply exponentOpt_none. }
  destruct ((0 <? n)%Z && (n <=? 21)%Z) eqn:C2.
  { (* a point inside the digits *)
    apply andb_true_iff in C2 as [C2 C2']. apply Z.ltb_lt in C2.
    rewrite C2', andb_true_r in C1. apply Z.leb_gt in C1.
    set (i := Z.to_nat n).
    assert (Hi : (0 < i < List.length s)%nat) by (unfold i, k in *; lia).
    destruct i as [|i'] eqn:Ei; [lia|].
    change (firstn (S i') s) with (d0 :: firstn i' ds).
    assert (Hsk : skipn (S i') s <> []).
    { intros E. apply (f_equal (@List.length N)) in E.
      rewrite length_skipn in E. simpl in E. lia. }
    assert (Hboth : Forall (fun d => d < 10) (firstn (S i') s ++ skipn (S i') s))
      by now rewrite firstn_skipn.
    apply Forall_app in Hboth as [Hfs Hss].
    rewrite <- app_assoc. cbn [app].
    rewrite (lexDecimal_parts d0 (firstn i' ds)
               (46 :: chars (skipn (S i') s) ++ rest) (skipn (S i') s) rest 0%Z rest).
    - cbv beta iota. change (d0 :: firstn i' ds) with (firstn (S i') s).
      rewrite firstn_skipn, Hof, length_skipn.
      rewrite mkFin_id by assumption. repeat f_equal.
      unfold n, k in *. lia.
    - exact Hfs.
    - now rewrite Hd0'.
    - reflexivity.
    - now apply lexFraction_digits.
    - now apply exponentOpt_none. }
  destruct ((-6 <? n)%Z && (n <=? 0)%Z) eqn:C3.
  { (* zero, a point, zeros, the digits *)
    apply andb_true_iff in C3 as [_ C3]. apply Z.leb_le in C3.
    set (j := Z.to_nat (- n)).
    cbn [app]. rewrite zeros_chars, <- chars_app.
    change (48 :: 46 :: chars (repeat 0 j ++ s) ++ rest)
      with (chars [0] ++ 46 :: chars (repeat 0 j ++ s) ++ rest).
    assert (Hfr : Forall (fun d => d < 10) (repeat 0 j ++ s))
      by (apply Forall_app; split; [apply Forall_lt10_zeros | exact Hlt]).
    rewrite (lexDecimal_parts 0 []
               (46 :: chars (repeat 0 j ++ s) ++ rest) (repeat 0 j ++ s) rest 0%Z rest).
    - cbv beta iota. change ([0] ++ repeat 0 j ++ s) with (repeat 0 (S j) ++ s).
      rewrite of_digits_leading_zeros, Hof, length_app, repeat_length.
      rewrite mkFin_id by assumption. repeat f_equal.
      unfold j, n, k in *. lia.
    - constructor; [lia | constructor].
    - reflexivity.
    - reflexivity.
    - apply lexFraction_digits; [|exact Hfr|exact Hnd].
      unfold s. destruct (repeat 0 j); discriminate.
    - now apply exponentOpt_none. }
  (* exponent notation *)
  unfold s in *. destruct ds as [|d1 ds'].
  - change (digitChar d0 :: exponentPart n) with (chars [d0] ++ exponentPart n).
    rewrite <- app_assoc.
    rewrite (lexDecimal_parts d0 [] (exponentPart n ++ rest) []
               (exponentPart n ++ rest) (n - 1)%Z rest).
    + cbv beta iota. rewrite app_nil_r, Hof. rewrite mkFin_id by assumption. repeat f_equal.
      unfold n, k. simpl. lia.
    + exact Hlt.
    + now rewrite Hd0'.
    + apply noDigitAhead_exponent.
    + apply lexFraction_exponent.
    + now apply exponentOpt_exponentPart.
  - change (digitChar d0 :: 46 :: chars (d1 :: ds') ++ exponentPart n)
      with (chars [d0] ++ 46 :: chars (d1 :: ds') ++ exponentPart n).
    rewrite <- app_assoc. cbn [app]. rewrite <- app_assoc.
    rewrite (lexDecimal_parts d0 []
               (46 :: chars (d1 :: ds') ++ exponentPart n ++ rest) (d1 :: ds')
               (exponentPart n ++ rest) (n - 1)%Z rest).
    + cbv beta iota. change ([d0] ++ d1 :: ds') with (d0 :: d1 :: ds'). rewrite Hof.
      rewrite mkFin_id by assumption. repeat f_equal.
      unfold n, k. simpl List.length. lia.
    + constructor; [now inversion Hlt | constructor].
    + now rewrite Hd0'.
    + reflexivity.
    + apply lexFraction_digits; [discriminate | now inversion Hlt | apply noDigitAhead_exponent].
    + now apply exponentOpt_exponentPart.
Qed.

Lemma normalize_id m e :
  canonical (Fin false m e) -> normalize m e = (m, e).
Proof.
  intros [H0 H1]. destruct (N.eq_dec m 0) as [->|Hm].
  - now rewrite (H0 eq_refl).
  - pose proof (normalize_pow m 0 e Hm (H1 Hm)) as H.
    simpl N.of_nat in H. now rewrite N.pow_0_r, N.mul_1_r, Z.add_0_r in H.
Qed.

Lemma normalize_canonical m e :
  canonical (Fin false (fst (normalize m e)) (snd (normalize m e))).
Proof.
  pose proof (mkFin_canonical false m e) as H. unfold mkFin in H.
  now destruct (normalize m e).
Qed.

Lemma normalize_idempotent m e m1 e1 :
  normalize m e = (m1, e1) -> normalize m1 e1 = (m1, e1).
Proof.
  intros H. apply normalize_id.
  pose proof (normalize_canonical m e) as C. now rewrite H in C.
Qed.

(** The Number value of a decimal is that of its canonical form. *)
Lemma binary64_normalize neg a b m e :
  normalize a b = (m, e) -> binary64 neg a b = binary64 neg m e.
Proof.
  intros H. unfold binary64.
  now rewrite H, (normalize_idempotent _ _ _ _ H).
Qed.

(** The decimal of the number token of the numeral of a positive
    canonical number. *)
Lemma lexDecimal_toString_pos m e rest :
  m <> 0 -> m mod 10 <> 0 -> numberStop rest ->
  exists a b,
    lexDecimal (toString_pos m e ++ rest) = Some (a, b, rest) /\
    normalize a b = (m, e).
Proof.
  intros Hm Hd Hr.
  pose proof (lexDecimal_toString_pos_mkFin false m e rest Hm Hd Hr) as H.
  destruct (lexDecimal (toString_pos m e ++ rest)) as [[[a b] r]|]; [|discriminate].
  exists a, b. unfold mkFin in H. destruct (normalize a b) as [m' e'].
  now injection H as -> -> ->.
Qed.

(** The number token of the numeral of a positive canonical number is
    the Number value of that number. *)
Lemma lexUnsigned_toString_pos neg m e rest :
  m <> 0 -> m mod 10 <> 0 -> numberStop rest ->
  lexUnsigned neg (toString_pos m e ++ rest) = Some (binary64 neg m e, rest).
Proof.
  intros Hm Hd Hr.
  destruct (lexDecimal_toString_pos m e rest Hm Hd Hr) as (a & b & H & Hn).
  unfold lexUnsigned. rewrite H. now rewrite (binary64_normalize neg a b m e Hn).
Qed.

(** *** The Number value of a decimal is a number in canonical form *)

Lemma find_denotes M E l c :
  find (denotes M E) l = Some c -> denotes M E c = true.
Proof. intros H. now apply find_some in H. Qed.

Lemma shortestFrom_denotes fuel : forall vn vd n M E k c,
  shortestFrom fuel vn vd n M E k = Some c -> denotes M E c = true.
Proof.
  induction fuel as [|f IH]; intros vn vd n M E k c; simpl; [discriminate|].
  destruct (find (denotes M E) (candidates vn vd n k)) eqn:F.
  - intros [= <-]. now apply find_denotes in F.
  - apply IH.
Qed.

Lemma shortest_denotes M E c : shortest M E = Some c -> denotes M E c = true.
Proof.
  unfold shortest.
  destruct (if (0 <=? E)%Z then (M * pow2 E, 1) else (M, pow2 (- E))) as [vn vd].
  apply shortestFrom_denotes.
Qed.

Lemma denotes_spec M E s x :
  denotes M E (s, x) = true ->
  s <> 0 /\ s mod 10 <> 0 /\ toDouble s x = DFin M E.
Proof.
  unfold denotes. intros H.
  apply andb_true_iff in H as [H H3]. apply andb_true_iff in H as [H1 H2].
  apply negb_true_iff, N.eqb_neq in H1. apply negb_true_iff, N.eqb_neq in H2.
  repeat split; [exact H1 | exact H2 |].
  destruct (toDouble s x) as [| |M' E']; try discriminate.
  apply andb_true_iff in H3 as [HM HE].
  apply N.eqb_eq in HM. apply Z.eqb_eq in HE. now subst.
Qed.

Lemma binary64_cases neg m e :
  binary64 neg m e = Fin neg 0 0 \/
  (exists s, binary64 neg m e = Inf s) \/
  (exists s x, binary64 neg m e = Fin neg s x /\ s <> 0 /\ s mod 10 <> 0 /\
               normalize s x = (s, x) /\
               exists M E, toDouble s x = DFin M E /\
                           (shortest M E = Some (s, x) \/ shortest M E = None)).
Proof.
  unfold binary64. destruct (normalize m e) as [m1 e1] eqn:Hn.
  destruct (m1 =? 0) eqn:Hz; [now left|]. apply N.eqb_neq in Hz.
  destruct (toDouble m1 e1) as [| |M E] eqn:Hd; [now left | right; left; eauto |].
  right; right.
  pose proof (normalize_canonical m e) as C. rewrite Hn in C. destruct C as [_ C].
  destruct (shortest M E) as [[s x]|] eqn:Hs.
  - pose proof (shortest_denotes _ _ _ Hs) as D.
    apply denotes_spec in D as (D1 & D2 & D3).
    exists s, x. repeat split; auto.
    + apply normalize_id. split; [contradiction | auto].
    + exists M, E. split; auto.
  - exists m1, e1. repeat split; auto.
    + now apply (normalize_idempotent m e).
    + exists M, E. split; auto.
Qed.

Lemma binary64_canonical neg m e : canonical (binary64 neg m e).
Proof.
  destruct (binary64_cases neg m e)
    as [->|[[s ->]|(s & x & -> & Hs & Hd & _)]]; simpl.
  - split; [reflexivity | congruence].
  - exact I.
  - split; [intros H; contradiction | auto].
Qed.

(** The Number value of a decimal is a binary64 value: rounding it
    again gives it back. *)
Lemma binary64_isDouble neg m e : isDouble (binary64 neg m e).
Proof.
  destruct (binary64_cases neg m e)
    as [->|[[s ->]|(s & x & -> & Hs & Hd & Hn & M & E & HD & Hsh)]];
    [reflexivity | exact I |].
  unfold isDouble, binary64. rewrite Hn.
  apply N.eqb_neq in Hs. rewrite Hs, HD.
  now destruct Hsh as [->| ->].
Qed.

Lemma lexUnsigned_head neg s r :
  lexUnsigned neg s = Some r -> exists c t, s = c :: t /\ isDigit c = true.
Proof.
  unfold lexUnsigned, lexDecimal. destruct s as [|c t]; simpl; [discriminate|].
  destruct (isDigit c) eqn:E; [intros _; now exists c, t | discriminate].
Qed.

Lemma toString_pos_head m e :
  m <> 0 -> m mod 10 <> 0 ->
  exists c t, toString_pos m e = c :: t /\ isDigit c = true.
Proof.
  intros Hm Hd.
  pose proof (lexUnsigned_toString_pos false m e [] Hm Hd I) as H.
  rewrite app_nil_r in H. now apply lexUnsigned_head in H.
Qed.

Lemma isDigit_not_minus c : isDigit c = true -> (c =? 45) = false.
Proof.
  unfold isDigit. intros H. apply andb_true_iff in H as [H _].
  apply N.leb_le in H. apply N.eqb_neq. lia.
Qed.

(** The number token of the numeral of a number. *)
Lemma lexNumber_toString x rest :
  plainNumber x -> isDouble x -> numberStop rest ->
  lexNumber (toString x ++ rest) = Some (x, rest).
Proof.
  destruct x as [|neg|neg m e]; try contradiction.
  intros [H0 H1] Hx Hr. change (binary64 neg m e = Fin neg m e) in Hx.
  cbn [toString]. destruct (m =? 0) eqn:E.
  - apply N.eqb_eq in E. destruct (H0 E) as [-> ->]. subst m.
    cbn [app lexNumber]. change (48 =? 45) with false. cbv iota.
    change (48 :: rest) with (chars [0] ++ rest). unfold lexUnsigned.
    rewrite (lexDecimal_parts 0 [] rest [] rest 0%Z rest);
      try reflexivity.
    + constructor; [lia | constructor].
    + now apply numberStop_noDigit.
    + now apply lexFraction_none.
    + now apply exponentOpt_none.
  - apply N.eqb_neq in E. specialize (H1 E). rewrite <- Hx. destruct neg.
    + cbn [app lexNumber]. change (45 =? 45) with true. cbv iota.
      now apply lexUnsigned_toString_pos.
    + cbn [app].
      destruct (toString_pos_head m e E H1) as (c & t & Ht & Hc).
      pose proof (lexUnsigned_toString_pos false m e rest E H1 Hr) as H.
      rewrite Ht in *. cbn [app lexNumber]. rewrite (isDigit_not_minus c Hc).
      exact H.
Qed.

Lemma toString_head x :
  plainNumber x ->
  exists c t, toString x = c :: t /\ ((c =? 45) || isDigit c) = true.
Proof.
  destruct x as [|neg|neg m e]; simpl; try contradiction.
  intros [H0 H1]. destruct (m =? 0) eqn:E.
  - now exists 48, [].
  - apply N.eqb_neq in E. destruct neg.
    + eexists 45, _. split; reflexivity.
    + destruct (toString_pos_head m e E (H1 E)) as (c & t & -> & Hc).
      exists c, t. split; [reflexivity|]. rewrite Hc. apply orb_true_r.
Qed.

(** ** Reading back a quoted string *)

Lemma hexVal_hexDigit d : d < 16 -> hexVal (hexDigit d) = Some d.
Proof.
  intros H.
  assert (C : d = 0 \/ d = 1 \/ d = 2 \/ d = 3 \/ d = 4 \/ d = 5 \/ d = 6 \/ d = 7 \/
              d = 8 \/ d = 9 \/ d = 10 \/ d = 11 \/ d = 12 \/ d = 13 \/ d = 14 \/ d = 15)
    by lia.
  repeat (destruct C as [->|C]; [reflexivity|]). subst. reflexivity.
Qed.

Lemma hex_split c :
  c < 65536 ->
  4096 * (c / 4096 mod 16) + 256 * (c / 256 mod 16) + 16 * (c / 16 mod 16) + c mod 16 = c.
Proof.
  intros H. zify. Z.to_euclidean_division_equations. lia.
Qed.

Lemma lexString_unicodeEscape c t :
  c < 65536 -> lexString (unicodeEscape c ++ t) = consFst c (lexString t).
Proof.
  intros H. unfold unicodeEscape. cbn [app lexString].
  change (92 =? 34) with false. change (92 =? 92) with true.
  change (117 =? 117) with true. cbv iota.
  unfold hex4.
  rewrite !hexVal_hexDigit by (apply N.mod_lt; lia).
  now rewrite hex_split.
Qed.

Lemma lexString_plain c t :
  32 <= c -> c <> 34 -> c <> 92 -> lexString (c :: t) = consFst c (lexString t).
Proof.
  intros H1 H2 H3. cbn [lexString].
  apply N.eqb_neq in H2, H3. rewrite H2, H3.
  replace (c <? 32) with false by (symmetry; apply N.ltb_ge; lia).
  reflexivity.
Qed.

Lemma lexString_quoteUnit c t :
  lexString (quoteUnit c ++ t) = consFst c (lexString t).
Proof.
  unfold quoteUnit.
  destruct (c =? 8) eqn:E8; [apply N.eqb_eq in E8; subst; reflexivity|].
  destruct (c =? 9) eqn:E9; [apply N.eqb_eq in E9; subst; reflexivity|].
  destruct (c =? 10) eqn:E10; [apply N.eqb_eq in E10; subst; reflexivity|].
  destruct (c =? 12) eqn:E12; [apply N.eqb_eq in E12; subst; reflexivity|].
  destruct (c =? 13) eqn:E13; [apply N.eqb_eq in E13; subst; reflexivity|].
  destruct (c =? 34) eqn:E34; [apply N.eqb_eq in E34; subst; reflexivity|].
  destruct (c =? 92) eqn:E92; [apply N.eqb_eq in E92; subst; reflexivity|].
  destruct (c <? 32) eqn:E32.
  - apply lexString_unicodeEscape. apply N.ltb_lt in E32. lia.
  - apply N.ltb_ge in E32. apply N.eqb_neq in E34, E92.
    now apply lexString_plain.
Qed.

Lemma surrogate_bounds c :
  isHighSurrogate c = true \/ isLowSurrogate c = true ->
  c < 65536 /\ 32 <= c /\ c <> 34 /\ c <> 92.
Proof.
  unfold isHighSurrogate, isLowSurrogate.
  intros [H|H]; apply andb_true_iff in H as [H1 H2];
    apply N.leb_le in H1, H2; lia.
Qed.

Lemma lexString_quoteBody_bounded n : forall s rest,
  (List.length s <= n)%nat ->
  lexString (quoteBody s ++ 34 :: rest) = Some (s, rest).
Proof.
  induction n as [|n IH]; intros s rest Hn.
  - destruct s; [reflexivity | simpl in Hn; lia].
  - destruct s as [|c t]; [reflexivity|]. simpl in Hn.
    cbn [quoteBody].
    destruct (isHighSurrogate c) eqn:Eh.
    + destruct (surrogate_bounds c (or_introl Eh)) as (B1 & B2 & B3 & B4).
      destruct t as [|d t'].
      * rewrite lexString_unicodeEscape by exact B1. reflexivity.
      * destruct (isLowSurrogate d) eqn:El.
        -- destruct (surrogate_bounds d (or_intror El)) as (D1 & D2 & D3 & D4).
           cbn [app]. rewrite lexString_plain by assumption.
           rewrite lexString_plain by assumption.
           rewrite IH by (simpl in Hn; lia). reflexivity.
        -- rewrite <- app_assoc, lexString_unicodeEscape by exact B1.
           rewrite IH by (simpl in *; lia). reflexivity.
    + destruct (isLowSurrogate c) eqn:El.
      * destruct (surrogate_bounds c (or_intror El)) as (B1 & _).
        rewrite <- app_assoc, lexString_unicodeEscape by exact B1.
        rewrite IH by lia. reflexivity.
      * rewrite <- app_assoc, lexString_quoteUnit.
        rewrite IH by lia. reflexivity.
Qed.

(** The string token of a quoted string is the string. *)
Lemma lexString_quoteBody s rest :
  lexString (quoteBody s ++ 34 :: rest) = Some (s, rest).
Proof. now apply (lexString_quoteBody_bounded (List.length s)). Qed.

(** ** The tokens of a printed value *)

Lemma consTok_some t r ts :
  consTok t r = Some ts -> exists ts', r = Some ts' /\ ts = t :: ts'.
Proof.
  destruct r as [l|]; simpl; [|discriminate].
  intros H. inversion H. now exists l.
Qed.

(** The tokens after a first token come from the continuation. *)
Ltac next_token Hk :=
  let H := fresh "H" in
  let ts' := fresh "ts" in
  intros H; apply consTok_some in H as (ts' & H & ->);
  now rewrite (Hk _ _ H).

Lemma lexStep_mono (k k' : jsstring -> option (list token)) s ts :
  (forall r x, k r = Some x -> k' r = Some x) ->
  lexStep k s = Some ts -> lexStep k' s = Some ts.
Proof.
  intros Hk. unfold lexStep, lexWord. destruct s as [|c t]; [auto|].
  repeat match goal with
         | |- context [if ?b then _ else _] => destruct b
         end;
    try (intros H; now apply Hk); try next_token Hk; try discriminate.
  - destruct (lexString t) as [[x r]|]; [next_token Hk | discriminate].
  - destruct (lexNumber (c :: t)) as [[x r]|]; [next_token Hk | discriminate].
  - destruct (stripPrefix (str "true") (c :: t)); [next_token Hk | discriminate].
  - destruct (stripPrefix (str "false") (c :: t)); [next_token Hk | discriminate].
  - destruct (stripPrefix (str "null") (c :: t)); [next_token Hk | discriminate].
Qed.

(** More fuel does not change the tokens. *)
Lemma lex_mono f : forall f' s ts,
  (f <= f')%nat -> lex f s = Some ts -> lex f' s = Some ts.
Proof.
  induction f as [|f IH]; intros f' s ts Hle H; [discriminate|].
  destruct f' as [|f']; [lia|].
  change (lexStep (lex f) s = Some ts) in H.
  change (lexStep (lex f') s = Some ts).
  apply (lexStep_mono (lex f)); [|exact H].
  intros r x Hr. apply (IH f'); [lia | exact Hr].
Qed.

Lemma lex_space f c t ts :
  isJsonSpace c = true -> lex f t = Some ts -> lex (S f) (c :: t) = Some ts.
Proof. intros Hc H. cbn [lex lexStep]. now rewrite Hc. Qed.

Lemma lex_spaces ws : forall f s ts,
  isSpaces ws -> lex f s = Some ts ->
  lex (f + List.length ws) (ws ++ s) = Some ts.
Proof.
  induction ws as [|c ws IH]; intros f s ts Hws H.
  - simpl. now rewrite Nat.add_0_r.
  - inversion Hws; subst. simpl List.length. rewrite Nat.add_succ_r.
    cbn [app]. apply lex_space; [assumption|]. now apply IH.
Qed.

Lemma valueStop_numberStop rest : valueStop rest -> numberStop rest.
Proof.
  destruct rest as [|c t]; simpl; [auto|].
  intros [-> | ->]; repeat split; discriminate.
Qed.

Lemma Lexes_word (word : jsstring) (tok : token) :
  (forall k rest, lexStep k (word ++ rest) = consTok tok (k rest)) ->
  word <> [] ->
  Lexes word [tok].
Proof.
  intros Hw Hne rest ts f _ H.
  destruct word as [|c w]; [contradiction|].
  simpl List.length. rewrite Nat.add_succ_r. cbn [lex].
  rewrite Hw. rewrite (lex_mono f (f + List.length w) rest ts); [reflexivity|lia|exact H].
Qed.

Lemma Lexes_null : Lexes nullText [TokNull].
Proof. apply Lexes_word; [reflexivity | discriminate]. Qed.

Lemma Lexes_true : Lexes (str "true") [TokTrue].
Proof. apply Lexes_word; [reflexivity | discriminate]. Qed.

Lemma Lexes_false : Lexes (str "false") [TokFalse].
Proof. apply Lexes_word; [reflexivity | discriminate]. Qed.

Lemma lex_quote s f rest ts :
  lex f rest = Some ts ->
  lex (f + List.length (quote s)) (quote s ++ rest) = Some (TokStr s :: ts).
Proof.
  intros H. unfold quote.
  simpl List.length. rewrite Nat.add_succ_r. cbn [app lex].
  unfold lexStep. change (isJsonSpace 34) with false.
  change (34 =? 123) with false. change (34 =? 125) with false.
  change (34 =? 91) with false. change (34 =? 93) with false.
  change (34 =? 58) with false. change (34 =? 44) with false.
  change (34 =? 34) with true. cbv iota.
  rewrite <- app_assoc. cbn [app]. rewrite lexString_quoteBody.
  rewrite (lex_mono f _ rest ts); [reflexivity|lia|exact H].
Qed.

Lemma Lexes_string s : Lexes (quote s) [TokStr s].
Proof. intros rest ts f _ H. now apply lex_quote. Qed.

Lemma lexStep_number k c t :
  ((c =? 45) || isDigit c) = true ->
  lexStep k (c :: t) =
  match lexNumber (c :: t) with
  | Some (n, r) => consTok (TokNum n) (k r)
  | None => None
  end.
Proof.
  intros H. unfold lexStep.
  assert (B : c = 45 \/ (48 <= c /\ c <= 57)).
  { apply orb_true_iff in H as [H|H]; [left; now apply N.eqb_eq|right].
    unfold isDigit in H. apply andb_true_iff in H as [H1 H2].
    apply N.leb_le in H1, H2. lia. }
  rewrite H.
  replace (isJsonSpace c) with false.
  2:{ symmetry. unfold isJsonSpace. repeat (apply orb_false_iff; split);
      apply N.eqb_neq; lia. }
  replace (c =? 123) with false by (symmetry; apply N.eqb_neq; lia).
  replace (c =? 125) with false by (symmetry; apply N.eqb_neq; lia).
  replace (c =? 91) with false by (symmetry; apply N.eqb_neq; lia).
  replace (c =? 93) with false by (symmetry; apply N.eqb_neq; lia).
  replace (c =? 58) with false by (symmetry; apply N.eqb_neq; lia).
  replace (c =? 44) with false by (symmetry; apply N.eqb_neq; lia).
  replace (c =? 34) with false by (symmetry; apply N.eqb_neq; lia).
  reflexivity.
Qed.

Lemma Lexes_number n :
  plainNumber n -> isDouble n -> Lexes (toString n) [TokNum n].
Proof.
  intros Hn Hx rest ts f Hr H.
  destruct (toString_head n Hn) as (c & t & Ht & Hc).
  pose proof (lexNumber_toString n rest Hn Hx (valueStop_numberStop rest Hr)) as Hl.
  rewrite Ht in *. simpl List.length. rewrite Nat.add_succ_r. cbn [app lex] in *.
  rewrite (lexStep_number _ c (t ++ rest) Hc), Hl.
  rewrite (lex_mono f _ rest ts); [reflexivity|lia|exact H].
Qed.

Lemma lex_punct f c tok t ts :
  (forall k, lexStep k (c :: t) = consTok tok (k t)) ->
  lex f t = Some ts -> lex (S f) (c :: t) = Some (tok :: ts).
Proof. intros Hc H. cbn [lex]. now rewrite Hc, H. Qed.

Lemma isSpaces_gap indent : isSpaces indent -> isSpaces (indent ++ gap).
Proof.
  intros H. apply Forall_app. split; [exact H|].
  repeat constructor.
Qed.

Lemma isSpaces_newline indent : isSpaces indent -> isSpaces (10 :: indent).
Proof. intros H. constructor; [reflexivity | exact H]. Qed.

(** The parts of a container, joined by a comma, a line break and the
    indentation. *)
Lemma Lexes_join indent parts tokss :
  isSpaces indent -> Forall2 Lexes parts tokss -> parts <> [] ->
  Lexes (joinWith (44 :: 10 :: indent) parts) (sepTokens tokss).
Proof.
  intros Hsp Hall. induction Hall as [|p tk ps tks Hp Hps IH]; [congruence|].
  intros _ rest ts f Hr H.
  destruct Hps as [|q tq qs tqs Hq Hqs].
  - simpl. now apply Hp.
  - set (J := joinWith (44 :: 10 :: indent) (q :: qs)) in *.
    set (T := sepTokens (tq :: tqs)) in *.
    change (joinWith (44 :: 10 :: indent) (p :: q :: qs))
      with (p ++ (44 :: 10 :: indent) ++ J).
    change (sepTokens (tk :: tq :: tqs)) with (tk ++ TokComma :: T).
    assert (H1 : lex (f + List.length J) (J ++ rest) = Some (T ++ ts))
      by (apply IH; [discriminate | exact Hr | exact H]).
    pose proof (lex_spaces (10 :: indent) _ _ _ (isSpaces_newline _ Hsp) H1) as H2.
    pose proof (lex_punct _ 44 TokComma _ _ (fun k => eq_refl) H2) as H3.
    pose proof (Hp _ _ _ (or_introl eq_refl : valueStop (44 :: _)) H3) as H4.
    rewrite <- ?app_assoc. rewrite <- ?app_assoc in H4. cbn [app] in *.
    eapply lex_mono; [|exact H4].
    repeat (progress (cbn [List.length]; rewrite ?length_app)). lia.
Qed.

(** A container: the bracket, its parts on lines of their own, the
    closing bracket at the indentation of the container. *)
Lemma Lexes_wrap (o c : N) (otok ctok : token) indent parts tokss :
  (forall k t, lexStep k (o :: t) = consTok otok (k t)) ->
  (forall k t, lexStep k (c :: t) = consTok ctok (k t)) ->
  isSpaces indent -> Forall2 Lexes parts tokss ->
  Lexes (wrap o c indent parts) (otok :: sepTokens tokss ++ [ctok]).
Proof.
  intros Ho Hc Hsp Hall rest ts f Hr H.
  pose proof (lex_punct _ c ctok _ _ (fun k => Hc k rest) H) as H1.
  destruct Hall as [|p tk ps tks Hp Hps].
  - simpl. rewrite Nat.add_succ_r. apply (lex_punct _ o otok); [intros; apply Ho|].
    eapply lex_mono; [|exact H1]. lia.
  - assert (Hall : Forall2 Lexes (p :: ps) (tk :: tks)) by now constructor.
    change (wrap o c indent (p :: ps))
      with (o :: 10 :: (indent ++ gap) ++
            joinWith (44 :: 10 :: indent ++ gap) (p :: ps) ++ 10 :: indent ++ [c]).
    set (J := joinWith (44 :: 10 :: indent ++ gap) (p :: ps)).
    set (T := sepTokens (tk :: tks)).
    pose proof (lex_spaces (10 :: indent) _ _ _ (isSpaces_newline _ Hsp) H1) as H2.
    assert (H3 : lex (S f + List.length (10 :: indent) + List.length J)
                   (J ++ (10 :: indent) ++ c :: rest)
                 = Some (T ++ ctok :: ts)).
    { apply (Lexes_join (indent ++ gap) (p :: ps) (tk :: tks));
        [now apply isSpaces_gap | exact Hall | discriminate
        | right; reflexivity | exact H2]. }
    pose proof (lex_spaces (10 :: indent ++ gap) _ _ _
                  (isSpaces_newline _ (isSpaces_gap _ Hsp)) H3) as H4.
    pose proof (lex_punct _ o otok _ _ (fun k => Ho k _) H4) as H5.
    cbn [app] in *. repeat (rewrite <- app_assoc in H5; cbn [app] in H5).
    repeat (rewrite <- app_assoc; cbn [app]).
    eapply lex_mono; [|exact H5].
    repeat (progress (cbn [List.length]; rewrite ?length_app)). lia.
Qed.

(** A member of an object: the quoted key, a colon, a space, the value. *)
Lemma Lexes_member k t toks :
  Lexes t toks -> Lexes (quote k ++ 58 :: 32 :: t) (TokStr k :: TokColon :: toks).
Proof.
  intros Ht rest ts f Hr H.
  pose proof (Ht _ _ _ Hr H) as H1.
  pose proof (lex_space _ 32 _ _ eq_refl H1) as H2.
  pose proof (lex_punct _ 58 TokColon _ _ (fun k => eq_refl) H2) as H3.
  pose proof (lex_quote k _ _ _ H3) as H4.
  rewrite <- app_assoc. cbn [app] in *.
  eapply lex_mono; [|exact H4].
  rewrite !length_app. simpl List.length. lia.
Qed.

(** ** Induction on values *)

Lemma jsvalue_induction (P : jsvalue -> Prop) :
  P VUndef -> P VNull -> (forall b, P (VBool b)) -> (forall n, P (VNum n)) ->
  (forall s, P (VStr s)) ->
  (forall l, Forall P l -> P (VArr l)) ->
  (forall m, Forall (fun kv => P (snd kv)) m -> P (VObj m)) ->
  forall v, P v.
Proof.
  intros Hu Hn Hb Hnum Hs Ha Ho.
  exact (fix IH (v : jsvalue) : P v :=
           match v with
           | VUndef => Hu
           | VNull => Hn
           | VBool b => Hb b
           | VNum n => Hnum n
           | VStr s => Hs s
           | VArr l =>
               Ha l ((fix all (l : list jsvalue) : Forall P l :=
                        match l with
                        | [] => Forall_nil P
                        | x :: t => Forall_cons x (IH x) (all t)
                        end) l)
           | VObj m =>
               Ho m ((fix all (m : list (jsstring * jsvalue))
                        : Forall (fun kv => P (snd kv)) m :=
                        match m with
                        | [] => Forall_nil _
                        | kv :: t => Forall_cons kv (IH (snd kv)) (all t)
                        end) m)
           end).
Qed.

Lemma Lexes_elements ind l :
  Forall (fun x => plain x -> forall indent, isSpaces indent ->
            exists text, serialize indent x = Some text /\ Lexes text (tokens x)) l ->
  Forall plain l -> isSpaces ind ->
  Forall2 Lexes
    (List.map (fun x => match serialize ind x with
                        | Some t => t
                        | None => nullText
                        end) l)
    (List.map tokens l).
Proof.
  intros IH Hp Hsp. induction l as [|x l IHl]; [constructor|].
  inversion IH; subst. inversion Hp; subst. cbn [List.map].
  destruct (H1 H3 ind Hsp) as (t & -> & Ht).
  constructor; [exact Ht | now apply IHl].
Qed.

Lemma Lexes_members ind (m : list (jsstring * jsvalue)) :
  Forall (fun kv => plain (snd kv) -> forall indent, isSpaces indent ->
            exists text, serialize indent (snd kv) = Some text /\
                         Lexes text (tokens (snd kv))) m ->
  Forall (fun kv => plain (snd kv)) m -> isSpaces ind ->
  Forall2 Lexes
    (flat_map (fun kv => match serialize ind (snd kv) with
                         | Some t => [quote (fst kv) ++ 58 :: 32 :: t]
                         | None => []
                         end) m)
    (List.map (fun kv => TokStr (fst kv) :: TokColon :: tokens (snd kv)) m).
Proof.
  intros IH Hp Hsp. induction m as [|kv m IHm]; [constructor|].
  inversion IH; subst. inversion Hp; subst. cbn [List.map flat_map].
  destruct (H1 H3 ind Hsp) as (t & -> & Ht). cbn [app].
  constructor; [now apply Lexes_member | now apply IHm].
Qed.

(** The text of a plain value is read as its tokens. *)
Lemma lex_serialize v :
  plain v -> forall indent, isSpaces indent ->
  exists text, serialize indent v = Some text /\ Lexes text (tokens v).
Proof.
  induction v as [| |b|n|s|l IH|m IH] using jsvalue_induction;
    intros Hp indent Hsp; inversion Hp; subst.
  - exists nullText. split; [reflexivity | apply Lexes_null].
  - destruct b; eexists; (split; [reflexivity|]);
      [apply Lexes_true | apply Lexes_false].
  - exists (toString n). split.
    + simpl. destruct n; try contradiction. reflexivity.
    + now apply Lexes_number.
  - exists (quote s). split; [reflexivity | apply Lexes_string].
  - eexists. split; [reflexivity|].
    apply (Lexes_wrap 91 93 TokLBrack TokRBrack);
      [reflexivity | reflexivity | exact Hsp |].
    apply Lexes_elements; [exact IH | assumption | now apply isSpaces_gap].
  - eexists. split; [reflexivity|].
    apply (Lexes_wrap 123 125 TokLBrace TokRBrace);
      [reflexivity | reflexivity | exact Hsp |].
    apply Lexes_members; [exact IH | assumption | now apply isSpaces_gap].
Qed.

(** ** The value of the tokens of a printed value *)

Lemma consFst_some {A B : Type} (a : A) (r : option (list A * B)) l b :
  consFst a r = Some (l, b) -> exists l', r = Some (l', b) /\ l = a :: l'.
Proof.
  destruct r as [[l' b']|]; simpl; [|discriminate].
  intros H. inversion H; subst. now exists l'.
Qed.

Lemma parseElements_mono (pv pv' : list token -> option (jsvalue * list token)) n :
  (forall ts r, pv ts = Some r -> pv' ts = Some r) ->
  forall n' ts r, (n <= n')%nat ->
  parseElements pv n ts = Some r -> parseElements pv' n' ts = Some r.
Proof.
  intros Hpv. induction n as [|n IH]; intros n' ts r Hle H; [discriminate|].
  destruct n' as [|n']; [lia|]. cbn [parseElements] in *.
  destruct (pv ts) as [[v rest]|] eqn:E; [|discriminate].
  rewrite (Hpv _ _ E).
  destruct rest as [|t rest]; [discriminate|].
  destruct t; try discriminate; [exact H|].
  destruct r as [vs r']. apply consFst_some in H as (l' & H & ->).
  rewrite (IH n' _ _ ltac:(lia) H). reflexivity.
Qed.

Lemma parseMembers_mono (pv pv' : list token -> option (jsvalue * list token)) n :
  (forall ts r, pv ts = Some r -> pv' ts = Some r) ->
  forall n' ts r, (n <= n')%nat ->
  parseMembers pv n ts = Some r -> parseMembers pv' n' ts = Some r.
Proof.
  intros Hpv. induction n as [|n IH]; intros n' ts r Hle H; [discriminate|].
  destruct n' as [|n']; [lia|]. cbn [parseMembers] in *.
  destruct ts as [|[| | | | | |k| | | |] [|[]  ts]]; try discriminate.
  destruct (pv ts) as [[v rest]|] eqn:E; [|discriminate].
  rewrite (Hpv _ _ E).
  destruct rest as [|t rest]; [discriminate|].
  destruct t; try discriminate; [exact H|].
  destruct r as [kvs r']. apply consFst_some in H as (l' & H & ->).
  rewrite (IH n' _ _ ltac:(lia) H). reflexivity.
Qed.

(** More fuel does not change the value. *)
Lemma parseValue_mono f : forall f' ts r,
  (f <= f')%nat -> parseValue f ts = Some r -> parseValue f' ts = Some r.
Proof.
  induction f as [|f IH]; intros f' ts r Hle H; [discriminate|].
  destruct f' as [|f']; [lia|]. cbn [parseValue] in *.
  assert (Hpv : forall ts r, parseValue f ts = Some r -> parseValue f' ts = Some r)
    by (intros; apply (IH f'); [lia | assumption]).
  destruct ts as [|t ts]; [discriminate|].
  destruct t; try discriminate; try exact H.
  - destruct ts as [|t' ts'].
    + destruct (parseMembers (parseValue f) f []) as [[kvs r']|] eqn:E;
        [|discriminate].
      now rewrite (parseMembers_mono _ _ f Hpv f' _ _ ltac:(lia) E).
    + destruct t'; try exact H;
        (destruct (parseMembers (parseValue f) f _) as [[kvs r']|] eqn:E;
         [|discriminate];
         now rewrite (parseMembers_mono _ _ f Hpv f' _ _ ltac:(lia) E)).
  - destruct ts as [|t' ts'].
    + destruct (parseElements (parseValue f) f []) as [[vs r']|] eqn:E;
        [|discriminate].
      now rewrite (parseElements_mono _ _ f Hpv f' _ _ ltac:(lia) E).
    + destruct t'; try exact H;
        (destruct (parseElements (parseValue f) f _) as [[vs r']|] eqn:E;
         [|discriminate];
         now rewrite (parseElements_mono _ _ f Hpv f' _ _ ltac:(lia) E)).
Qed.

Lemma tokens_head v :
  plain v -> exists t r, tokens v = t :: r /\ startsValue t.
Proof.
  intros H. destruct H as [|[]|n _|s|l _|m _ _]; simpl; eexists _, _; split;
    try reflexivity; exact I.
Qed.

Lemma sepTokens_cons p ps : exists q, sepTokens (p :: ps) = p ++ q.
Proof.
  destruct ps as [|p' ps]; simpl; [exists []; now rewrite app_nil_r|].
  eexists. reflexivity.
Qed.

Lemma sepTokens_length_part parts p :
  In p parts -> (List.length p <= List.length (sepTokens parts))%nat.
Proof.
  induction parts as [|q parts IH]; [contradiction|].
  intros [->|Hin].
  - destruct (sepTokens_cons p parts) as [x ->]. rewrite length_app. lia.
  - specialize (IH Hin). destruct parts as [|q' parts]; [contradiction|].
    change (sepTokens (q :: q' :: parts))
      with (q ++ TokComma :: sepTokens (q' :: parts)).
    rewrite length_app. cbn [List.length]. lia.
Qed.

Lemma sepTokens_length_parts parts :
  (List.length parts <= S (List.length (sepTokens parts)))%nat.
Proof.
  induction parts as [|q parts IH]; [simpl; lia|].
  destruct parts as [|q' parts]; [simpl; lia|].
  change (sepTokens (q :: q' :: parts))
    with (q ++ TokComma :: sepTokens (q' :: parts)).
  rewrite length_app. cbn [List.length] in *. lia.
Qed.

Lemma parseValue_array f ts :
  match ts with t :: _ => startsValue t | [] => True end ->
  parseValue (S f) (TokLBrack :: ts) =
  match parseElements (parseValue f) f ts with
  | Some (vs, r') => Some (VArr vs, r')
  | None => None
  end.
Proof. destruct ts as [|t ts]; [reflexivity|]. destruct t; simpl; tauto. Qed.

Lemma parseElements_tokens pv l : forall x n r,
  (forall y, In y (x :: l) -> forall r', pv (tokens y ++ r') = Some (y, r')) ->
  (List.length (x :: l) <= n)%nat ->
  parseElements pv n (sepTokens (List.map tokens (x :: l)) ++ TokRBrack :: r)
    = Some (x :: l, r).
Proof.
  induction l as [|y l IH]; intros x n r Hpv Hn;
    (destruct n as [|n]; [simpl in Hn; lia|]).
  - cbn [List.map sepTokens parseElements].
    now rewrite (Hpv x (or_introl eq_refl)).
  - change (sepTokens (List.map tokens (x :: y :: l)))
      with (tokens x ++ TokComma :: sepTokens (List.map tokens (y :: l))).
    cbn [parseElements].
    rewrite <- app_assoc. cbn [app].
    rewrite (Hpv x (or_introl eq_refl)).
    rewrite IH; [reflexivity | | simpl in *; lia].
    intros z Hz. apply Hpv. now right.
Qed.

Lemma parseMembers_tokens pv m : forall kv n r,
  (forall y, In y (kv :: m) -> forall r', pv (tokens (snd y) ++ r') = Some (snd y, r')) ->
  (List.length (kv :: m) <= n)%nat ->
  parseMembers pv n (sepTokens (List.map memberTokens (kv :: m)) ++ TokRBrace :: r)
    = Some (kv :: m, r).
Proof.
  induction m as [|y m IH]; intros [k v] n r Hpv Hn;
    (destruct n as [|n]; [simpl in Hn; lia|]).
  - cbn [List.map sepTokens parseMembers memberTokens fst snd app].
    pose proof (Hpv (k, v) (or_introl eq_refl)) as E. cbn [snd] in E.
    now rewrite E.
  - change (sepTokens (List.map memberTokens ((k, v) :: y :: m)))
      with ((TokStr k :: TokColon :: tokens v) ++
            TokComma :: sepTokens (List.map memberTokens (y :: m))).
    cbn [parseMembers app].
    rewrite <- app_assoc. cbn [app].
    pose proof (Hpv (k, v) (or_introl eq_refl)) as E. cbn [snd] in E.
    rewrite E.
    rewrite IH; [reflexivity | | simpl in *; lia].
    intros z Hz. apply Hpv. now right.
Qed.

(** ** The order of the keys of an object *)

Lemma digitChar_digitVal c : isDigit c = true -> digitChar (digitVal c) = c.
Proof.
  unfold isDigit, digitChar, digitVal. intros H.
  apply andb_true_iff in H as [H1 H2]. apply N.leb_le in H1, H2. lia.
Qed.

Lemma digitVal_lt10 c : isDigit c = true -> digitVal c < 10.
Proof.
  unfold isDigit, digitVal. intros H.
  apply andb_true_iff in H as [H1 H2]. apply N.leb_le in H1, H2. lia.
Qed.

(** A numeral without a leading zero is the list of the digits of its
    value. *)
Lemma digits_of_digits l :
  Forall (fun d => d < 10) l -> l <> [] -> hd 0 l <> 0 ->
  digits (of_digits l) = l.
Proof.
  induction l as [|d l IH] using rev_ind; [congruence|].
  intros Hlt _ Hhd. apply Forall_app in Hlt as [Hl Hd].
  inversion Hd as [|? ? Hd' _]; subst.
  rewrite of_digits_snoc.
  assert (Hdiv : (10 * of_digits l + d) / 10 = of_digits l).
  { rewrite N.mul_comm, N.div_add_l by lia. rewrite N.div_small by exact Hd'. lia. }
  assert (Hmod : (10 * of_digits l + d) mod 10 = d).
  { rewrite N.add_comm, N.mul_comm, N.Div0.mod_add. now apply N.mod_small. }
  destruct l as [|d0 l'].
  - simpl in *. replace (10 * of_digits [] + d) with d by (unfold of_digits; simpl; lia).
    rewrite digits_step by exact Hhd.
    rewrite (N.div_small d 10 Hd'), (N.mod_small d 10 Hd'). reflexivity.
  - assert (Hl' : digits (of_digits (d0 :: l')) = d0 :: l')
      by (apply IH; [exact Hl | discriminate | exact Hhd]).
    assert (Hne : of_digits (d0 :: l') <> 0).
    { intros E. rewrite E in Hl'. discriminate. }
    rewrite digits_step by lia.
    now rewrite Hdiv, Hmod, Hl'.
Qed.

Lemma map_digitChar_digitVal k :
  forallb isDigit k = true -> chars (List.map digitVal k) = k.
Proof.
  induction k as [|c k IH]; [reflexivity|]. simpl.
  intros H. apply andb_true_iff in H as [Hc Hk].
  now rewrite (digitChar_digitVal c Hc), (IH Hk).
Qed.

Lemma Forall_digitVal k :
  forallb isDigit k = true -> Forall (fun d => d < 10) (List.map digitVal k).
Proof.
  induction k as [|c k IH]; [constructor|]. simpl.
  intros H. apply andb_true_iff in H as [Hc Hk].
  constructor; [now apply digitVal_lt10 | now apply IH].
Qed.

(** The numeral of an array index is the decimal numeral of the index. *)
Lemma arrayIndex_decimal k n : arrayIndex k = Some n -> k = decimal n.
Proof.
  unfold arrayIndex. destruct k as [|c t]; [discriminate|].
  destruct (forallb isDigit (c :: t)) eqn:Ed; [|discriminate].
  cbn [andb].
  destruct ((List.length (c :: t) =? 1)%nat || negb (c =? 48)) eqn:Ec; [|discriminate].
  destruct (of_digits (List.map digitVal (c :: t)) <? 4294967295); [|discriminate].
  intros [= <-].
  pose proof (map_digitChar_digitVal _ Ed) as Hk.
  pose proof (Forall_digitVal _ Ed) as Hlt.
  set (l := List.map digitVal (c :: t)) in *.
  change (c :: t = decimal (of_digits l)).
  assert (Hc : isDigit c = true) by (simpl in Ed; now apply andb_true_iff in Ed as [? _]).
  destruct (c =? 48) eqn:E48.
  - (* the numeral 0 *)
    apply N.eqb_eq in E48. subst c.
    rewrite orb_false_r in Ec. apply Nat.eqb_eq in Ec.
    destruct t; [|discriminate]. reflexivity.

  - apply N.eqb_neq in E48.
    assert (Hhd : hd 0 l <> 0).
    { unfold l. simpl. unfold digitVal. unfold isDigit in Hc.
      apply andb_true_iff in Hc as [H1 _]. apply N.leb_le in H1. lia. }
    assert (Hd : digits (of_digits l) = l)
      by (apply digits_of_digits; [exact Hlt | discriminate | exact Hhd]).
    unfold decimal.
    destruct (of_digits l =? 0) eqn:E0.
    + apply N.eqb_eq in E0. rewrite E0 in Hd. discriminate.
    + now rewrite Hd.
Qed.

Lemma arrayIndex_inj k k' n :
  arrayIndex k = Some n -> arrayIndex k' = Some n -> k = k'.
Proof.
  intros H H'. apply arrayIndex_decimal in H, H'. congruence.
Qed.

Lemma keyBefore_neq k k' : keyBefore k k' -> k <> k'.
Proof.
  intros H E. subst. unfold keyBefore in H.
  destruct (arrayIndex k'); [lia | congruence].
Qed.

Lemma lookup_none_iff m k : lookup m k = None <-> ~ In k (List.map fst m).
Proof.
  induction m as [|[k' v'] m IH]; simpl; [tauto|].
  destruct (JsString.eqb k' k) eqn:E.
  - apply jsstring_eqb_eq in E. split; [discriminate | tauto].
  - apply jsstring_eqb_neq in E. rewrite IH. tauto.
Qed.

Lemma keys_replaceKey m k v : List.map fst (replaceKey m k v) = List.map fst m.
Proof.
  induction m as [|[k' v'] m IH]; simpl; [reflexivity|].
  destruct (JsString.eqb k' k); simpl; [reflexivity | now rewrite IH].
Qed.

Lemma keys_insertKey m k v x :
  In x (List.map fst (insertKey m k v)) -> x = k \/ In x (List.map fst m).
Proof.
  induction m as [|[k' v'] m IH]; simpl; [intuition|].
  destruct (arrayIndex k) as [i|]; [destruct (arrayIndex k') as [j|];
    [destruct (i <? j)|]|]; simpl; intuition.
Qed.

Lemma insertKey_append m k v :
  Forall (fun k' => keyBefore k' k) (List.map fst m) ->
  insertKey m k v = m ++ [(k, v)].
Proof.
  induction m as [|[k' v'] m IH]; simpl; [reflexivity|].
  intros H. inversion H as [|? ? Hb Hm]; subst. unfold keyBefore in Hb.
  destruct (arrayIndex k) as [i|]; [destruct (arrayIndex k') as [j|]|].
  - replace (i <? j) with false by (symmetry; apply N.ltb_ge; lia).
    now rewrite IH.
  - contradiction.
  - now rewrite IH.
Qed.

Lemma objSet_append m k v :
  Forall (fun k' => keyBefore k' k) (List.map fst m) ->
  objSet m k v = m ++ [(k, v)].
Proof.
  intros H. unfold objSet.
  assert (Hn : lookup m k = None).
  { apply lookup_none_iff. intros Hin.
    rewrite Forall_forall in H. now apply (keyBefore_neq k k (H k Hin)). }
  rewrite Hn. now apply insertKey_append.
Qed.

Lemma orderedKeys_app a b :
  orderedKeys (a ++ b) <->
  orderedKeys a /\ orderedKeys b /\ Forall (fun x => Forall (keyBefore x) b) a.
Proof.
  induction a as [|x a IH]; simpl.
  - intuition.
  - rewrite Forall_app, IH. split.
    + intros [[H1 H2] (H3 & H4 & H5)]. repeat split; auto.
    + intros [[H1 H2] [H3 H4]]. inversion H4; subst. repeat split; auto.
Qed.

Lemma fold_objSet_ordered m : forall acc,
  orderedKeys (List.map fst (acc ++ m)) ->
  fold_left (fun o kv => objSet o (fst kv) (snd kv)) m acc = acc ++ m.
Proof.
  induction m as [|[k v] m IH]; intros acc H; simpl.
  - now rewrite app_nil_r.
  - assert (E : acc ++ (k, v) :: m = (acc ++ [(k, v)]) ++ m)
      by now rewrite <- app_assoc.
    rewrite E in *. rewrite objSet_append.
    + now apply IH.
    + rewrite map_app in H. apply orderedKeys_app in H as (H & _ & _).
      rewrite map_app in H. apply orderedKeys_app in H as (_ & _ & H).
      simpl in H. apply Forall_forall. intros x Hx.
      rewrite Forall_forall in H. specialize (H x Hx). now inversion H.
Qed.

(** The members of an object whose keys are in property order build the
    object they list. *)
Lemma buildObject_ordered m : orderedKeys (List.map fst m) -> buildObject m = m.
Proof. intros H. unfold buildObject. now rewrite fold_objSet_ordered. Qed.

Lemma insertKey_ordered m k v :
  orderedKeys (List.map fst m) -> lookup m k = None ->
  orderedKeys (List.map fst (insertKey m k v)).
Proof.
  induction m as [|[k' v'] m IH]; simpl; [intros _ _; split; [constructor | exact I]|].
  intros [Hb Ho] Hl.
  destruct (JsString.eqb k' k) eqn:E; [discriminate|]. apply jsstring_eqb_neq in E.
  assert (Hrec : Forall (keyBefore k') (List.map fst (insertKey m k v)) ->
                 orderedKeys (List.map fst ((k', v') :: insertKey m k v)))
    by (intros; simpl; split; [assumption | now apply IH]).
  assert (Hins : keyBefore k' k ->
                 Forall (keyBefore k') (List.map fst (insertKey m k v))).
  { intros Hk. apply Forall_forall. intros x Hx.
    destruct (keys_insertKey _ _ _ _ Hx) as [->|Hx']; [exact Hk|].
    rewrite Forall_forall in Hb. now apply Hb. }
  destruct (arrayIndex k) as [i|] eqn:Ek; [destruct (arrayIndex k') as [j|] eqn:Ek'|].
  - destruct (i <? j) eqn:Eij.
    + apply N.ltb_lt in Eij. simpl. repeat split; auto.
      constructor.
      * unfold keyBefore. now rewrite Ek, Ek'.
      * apply Forall_forall. intros x Hx. rewrite Forall_forall in Hb.
        specialize (Hb x Hx). unfold keyBefore in *. rewrite Ek. rewrite Ek' in Hb.
        destruct (arrayIndex x); [lia | exact I].
    + apply N.ltb_ge in Eij. apply Hrec, Hins.
      unfold keyBefore. rewrite Ek, Ek'.
      assert (i <> j) by (intros ->; apply E; symmetry; eapply arrayIndex_inj; eauto).
      lia.
  - simpl. repeat split; auto. constructor.
    + unfold keyBefore. now rewrite Ek, Ek'.
    + apply Forall_forall. intros x Hx. rewrite Forall_forall in Hb.
      specialize (Hb x Hx). unfold keyBefore in *. rewrite Ek. rewrite Ek' in Hb.
      destruct (arrayIndex x); [contradiction | exact I].
  - apply Hrec, Hins. unfold keyBefore. rewrite Ek.
    destruct (arrayIndex k'); [exact I | exact E].
Qed.

Lemma objSet_ordered m k v :
  orderedKeys (List.map fst m) -> orderedKeys (List.map fst (objSet m k v)).
Proof.
  intros H. unfold objSet. destruct (lookup m k) eqn:E.
  - now rewrite keys_replaceKey.
  - now apply insertKey_ordered.
Qed.

Lemma parseValue_object f k ts :
  parseValue (S f) (TokLBrace :: TokStr k :: ts) =
  match parseMembers (parseValue f) f (TokStr k :: ts) with
  | Some (kvs, r') => Some (VObj (buildObject kvs), r')
  | None => None
  end.
Proof. reflexivity. Qed.

(** The tokens of a plain value are parsed as that value. *)
Lemma parse_tokens v :
  plain v -> forall r,
  parseValue (List.length (tokens v)) (tokens v ++ r) = Some (v, r).
Proof.
  induction v as [| |b|n|s|l IH|m IH] using jsvalue_induction;
    intros Hp r;
    inversion Hp as [ | | | |l' Hall|m' Hord Hall]; subst; try reflexivity.
  - destruct b; reflexivity.
  - (* arrays *)
    destruct l as [|x l]; [reflexivity|].
    cbn [tokens]. set (sep := sepTokens (List.map tokens (x :: l))).
    cbn [List.length app]. rewrite <- app_assoc. cbn [app].
    rewrite parseValue_array.
    + unfold sep. rewrite parseElements_tokens; [reflexivity| |].
      * intros y Hy r'. rewrite Forall_forall in IH, Hall.
        apply (parseValue_mono (List.length (tokens y))); [|now apply IH; auto].
        fold sep. rewrite length_app.
        pose proof (sepTokens_length_part (List.map tokens (x :: l)) (tokens y)
                      (in_map tokens _ _ Hy)).
        fold sep in H. lia.
      * fold sep. rewrite length_app. simpl List.length.
        pose proof (sepTokens_length_parts (List.map tokens (x :: l))) as H.
        fold sep in H. rewrite length_map in H. simpl List.length in H. lia.
    + inversion Hall as [|? ? Hx _]; subst.
      destruct (tokens_head x Hx) as (t & q & Ht & Hs).
      destruct (sepTokens_cons (tokens x) (List.map tokens l)) as [q' Hq].
      unfold sep. cbn [List.map]. rewrite Hq, Ht. exact Hs.
  - (* objects *)
    destruct m as [|[k x] m]; [reflexivity|].
    cbn [tokens]. fold memberTokens.
    change (fun kv : jsstring * jsvalue => TokStr (fst kv) :: TokColon :: tokens (snd kv))
      with memberTokens.
    set (sep := sepTokens (List.map memberTokens ((k, x) :: m))).
    cbn [List.length app]. rewrite <- app_assoc. cbn [app].
    destruct (sepTokens_cons (memberTokens (k, x)) (List.map memberTokens m)) as [q' Hq].
    assert (Hsep : sep ++ TokRBrace :: r
                   = TokStr k :: (TokColon :: tokens x ++ q') ++ TokRBrace :: r).
    { unfold sep. cbn [List.map]. rewrite Hq. unfold memberTokens. cbn [fst snd app].
      now rewrite <- !app_assoc. }
    rewrite Hsep, parseValue_object, <- Hsep.
    unfold sep. rewrite parseMembers_tokens.
    + now rewrite buildObject_ordered.
    + intros y Hy r'. rewrite Forall_forall in IH, Hall.
      apply (parseValue_mono (List.length (tokens (snd y)))); [|now apply IH; auto].
      fold sep. rewrite length_app.
      pose proof (sepTokens_length_part (List.map memberTokens ((k, x) :: m))
                    (memberTokens y) (in_map memberTokens _ _ Hy)) as H.
      fold sep in H. unfold memberTokens in H at 1. simpl List.length in H. lia.
    + fold sep. rewrite length_app. simpl List.length.
      pose proof (sepTokens_length_parts (List.map memberTokens ((k, x) :: m))) as H.
      fold sep in H. rewrite length_map in H. simpl List.length in H. lia.
Qed.

(** The text of a plain value parses as that value. *)
Theorem JSON_parse_stringify_plain v :
  plain v -> exists text, JSON_stringify v = Some text /\ JSON_parse text = Some v.
Proof.
  intros Hp.
  destruct (lex_serialize v Hp [] (Forall_nil _)) as (text & Hs & Hl).
  exists text. split; [exact Hs|].
  pose proof (Hl [] [] 1%nat I eq_refl) as H.
  rewrite !app_nil_r in H. unfold JSON_parse.
  change (S (List.length text)) with (1 + List.length text)%nat. rewrite H.
  pose proof (parse_tokens v Hp []) as Hv. rewrite app_nil_r in Hv.
  rewrite (parseValue_mono (List.length (tokens v)) (S (List.length (tokens v)))
             _ _ (Nat.le_succ_diag_r _) Hv).
  reflexivity.
Qed.

(** ** What is left of a value in its text *)

Lemma serialize_jsonify v : forall indent,
  serialize indent (jsonify v) = serialize indent v.
Proof.
  induction v as [| |b|n|s|l IH|m IH] using jsvalue_induction; intros indent;
    try reflexivity.
  - destruct n as [|neg|neg m e]; try reflexivity.
    simpl. destruct (m =? 0) eqn:E; simpl; rewrite ?E; reflexivity.
  - cbn [jsonify serialize]. do 2 f_equal. rewrite map_map.
    apply map_ext_Forall. apply Forall_forall. intros x Hx.
    rewrite Forall_forall in IH. specialize (IH x Hx (indent ++ gap)).
    destruct x; try (now rewrite IH); reflexivity.
  - cbn [jsonify serialize]. do 2 f_equal.
    induction m as [|[k x] m IHm]; [reflexivity|].
    inversion IH as [|? ? Hx Hm]; subst. cbn [snd] in Hx.
    cbn [flat_map fst snd]. rewrite <- IHm by exact Hm.
    specialize (Hx (indent ++ gap)).
    destruct x; cbn [app flat_map fst snd]; rewrite ?app_nil_r;
      try (rewrite Hx); try reflexivity;
      match goal with
      | |- context [serialize ?i ?y] =>
          destruct (serialize i y); reflexivity
      end.
Qed.

Lemma jsonify_arr l : jsonify (VArr l) = VArr (List.map jsonifyElement l).
Proof. reflexivity. Qed.

Lemma jsonify_obj m : jsonify (VObj m) = VObj (flat_map jsonifyMember m).
Proof. reflexivity. Qed.

Lemma orderedKeys_jsonify (m : list (jsstring * jsvalue)) :
  orderedKeys (List.map fst m) ->
  orderedKeys (List.map fst (flat_map jsonifyMember m)).
Proof.
  set (h := jsonifyMember).
  assert (Hin : forall m x, In x (List.map fst (flat_map h m)) -> In x (List.map fst m)).
  { intros m0. induction m0 as [|[k v] m0 IHm]; [auto|].
    intros x. cbn [flat_map List.map]. rewrite map_app, in_app_iff.
    intros [H|H]; [|right; now apply IHm].
    unfold h, jsonifyMember in H. left. destruct v; simpl in H; tauto. }
  induction m as [|[k v] m IH]; [auto|].
  cbn [List.map fst orderedKeys flat_map]. intros [Hb Ho].
  rewrite map_app. apply orderedKeys_app. repeat split.
  - unfold h, jsonifyMember. destruct v; simpl; auto using Forall_nil.
  - now apply IH.
  - assert (Hk : Forall (keyBefore k) (List.map fst (flat_map h m))).
    { apply Forall_forall. intros x Hx. rewrite Forall_forall in Hb.
      apply Hb. now apply Hin. }
    unfold h at 1. unfold jsonifyMember.
    destruct v; simpl; auto using Forall_nil, Forall_cons.
Qed.

Lemma plainNumber_jsonify n :
  canonical n -> isDouble n -> forall x, jsonifyNumber n = x -> plain x.
Proof.
  intros Hc Hx x <-. destruct n as [|neg|neg m e]; try constructor.
  destruct Hc as [H0 H1]. cbn [jsonifyNumber isFinite].
  destruct (m =? 0) eqn:E; constructor.
  - split; [auto | congruence].
  - reflexivity.
  - apply N.eqb_neq in E. split; [congruence | auto].
  - exact Hx.
Qed.

(** The value of the text of a value is plain. *)
Lemma plain_jsonify v : wf v -> v <> VUndef -> plain (jsonify v).
Proof.
  induction v as [| |b|n|s|l IH|m IH] using jsvalue_induction;
    intros Hw Hu;
    inversion Hw as [ | | |? Hc Hx| |l' Hall|m' Hord Hall]; subst.
  - congruence.
  - constructor.
  - constructor.
  - now apply (plainNumber_jsonify n Hc Hx).
  - constructor.
  - rewrite jsonify_arr. constructor. apply Forall_forall. intros y Hy.
    apply in_map_iff in Hy as (x & <- & Hx).
    rewrite Forall_forall in IH, Hall.
    specialize (IH x Hx (Hall x Hx)).
    destruct x; try (apply IH; discriminate). constructor.
  - rewrite jsonify_obj. constructor; [now apply orderedKeys_jsonify|].
    apply Forall_forall. intros y Hy.
    apply in_flat_map in Hy as ([k x] & Hx & Hy).
    rewrite Forall_forall in IH, Hall.
    specialize (IH _ Hx (Hall _ Hx)). unfold jsonifyMember in Hy.
    cbn [fst snd] in *.
    destruct x; simpl in Hy; try contradiction;
      destruct Hy as [<-|[]]; cbn [snd]; apply IH; discriminate.
Qed.

(** The text of a value parses as what is left of the value in it. *)
Theorem JSON_parse_stringify v :
  wf v -> v <> VUndef ->
  exists text, JSON_stringify v = Some text /\ JSON_parse text = Some (jsonify v).
Proof.
  intros Hw Hu.
  destruct (JSON_parse_stringify_plain (jsonify v) (plain_jsonify v Hw Hu))
    as (text & Hs & Hp).
  exists text. split; [|exact Hp].
  unfold JSON_stringify in *. now rewrite <- serialize_jsonify.
Qed.

(** ** Parsed values are well formed *)

Lemma lexUnsigned_canonical neg s n r :
  lexUnsigned neg s = Some (n, r) -> canonical n /\ isDouble n.
Proof.
  unfold lexUnsigned. destruct (lexDecimal s) as [[[m e] r']|]; [|discriminate].
  intros [= <- _]. split; [apply binary64_canonical | apply binary64_isDouble].
Qed.

Lemma lexNumber_canonical s n r :
  lexNumber s = Some (n, r) -> canonical n /\ isDouble n.
Proof.
  unfold lexNumber. destruct s as [|c t]; [discriminate|].
  destruct (c =? 45); apply lexUnsigned_canonical.
Qed.

(** A first token that is well formed, before well-formed tokens. *)
Ltac wf_token Hk :=
  let H := fresh "H" in
  let ts' := fresh "ts" in
  intros H; apply consTok_some in H as (ts' & H & ->);
  constructor; [try exact I | now apply (Hk _ _ H)].

Lemma lexStep_wf (k : jsstring -> option (list token)) s ts :
  (forall r x, k r = Some x -> Forall tokenWf x) ->
  lexStep k s = Some ts -> Forall tokenWf ts.
Proof.
  intros Hk. unfold lexStep, lexWord. destruct s as [|c t].
  - intros [= <-]. constructor.
  - repeat match goal with
           | |- context [if ?b then _ else _] => destruct b
           end;
      try (intros H; now apply (Hk _ _ H)); try (now wf_token Hk);
      try discriminate.
    + destruct (lexString t) as [[x r]|]; [now wf_token Hk | discriminate].
    + destruct (lexNumber (c :: t)) as [[x r]|] eqn:E; [|discriminate].
      wf_token Hk. now apply (lexNumber_canonical _ _ _ E).
    + destruct (stripPrefix (str "true") (c :: t)); [now wf_token Hk | discriminate].
    + destruct (stripPrefix (str "false") (c :: t)); [now wf_token Hk | discriminate].
    + destruct (stripPrefix (str "null") (c :: t)); [now wf_token Hk | discriminate].
Qed.

Lemma lex_wf f : forall s ts, lex f s = Some ts -> Forall tokenWf ts.
Proof.
  induction f as [|f IH]; intros s ts H; [discriminate|].
  apply (lexStep_wf (lex f) s); [exact IH | exact H].
Qed.

Lemma fold_objSet_wf kvs : forall acc,
  orderedKeys (List.map fst acc) -> Forall (fun kv => wf (snd kv)) acc ->
  Forall (fun kv => wf (snd kv)) kvs ->
  wf (VObj (fold_left (fun o kv => objSet o (fst kv) (snd kv)) kvs acc)).
Proof.
  induction kvs as [|[k v] kvs IH]; intros acc Ho Hw Hk; simpl.
  - now constructor.
  - inversion Hk as [|? ? Hv Hk']; subst. apply IH; [now apply objSet_ordered| |exact Hk'].
    apply Forall_forall. intros [k0 v0] Hin.
    destruct (In_objSet _ _ _ _ _ Hin) as [H|[-> ->]]; [|exact Hv].
    rewrite Forall_forall in Hw. exact (Hw _ H).
Qed.

Lemma buildObject_wf kvs :
  Forall (fun kv => wf (snd kv)) kvs -> wf (VObj (buildObject kvs)).
Proof.
  intros H. apply fold_objSet_wf; [exact I | constructor | exact H].
Qed.

Lemma parseElements_wf pv n : parsesWf pv ->
  forall ts vs r, parseElements pv n ts = Some (vs, r) -> Forall tokenWf ts ->
  Forall wf vs /\ Forall tokenWf r.
Proof.
  intros Hpv. induction n as [|n IH]; intros ts vs r H Hts; [discriminate|].
  cbn [parseElements] in H.
  destruct (pv ts) as [[v rest]|] eqn:E; [|discriminate].
  destruct (Hpv _ _ _ E Hts) as [Hv Hrest].
  destruct rest as [|t rest]; [discriminate|].
  inversion Hrest; subst.
  destruct t; try discriminate.
  - inversion H; subst. split; [now constructor | assumption].
  - apply consFst_some in H as (l' & H & ->).
    destruct (IH _ _ _ H) as [Hl Hr]; [assumption|]. split; [now constructor | assumption].
Qed.

Lemma parseMembers_wf pv n : parsesWf pv ->
  forall ts kvs r, parseMembers pv n ts = Some (kvs, r) -> Forall tokenWf ts ->
  Forall (fun kv => wf (snd kv)) kvs /\ Forall tokenWf r.
Proof.
  intros Hpv. induction n as [|n IH]; intros ts kvs r H Hts; [discriminate|].
  cbn [parseMembers] in H.
  destruct ts as [|[| | | | | |k| | | |] [|[] ts]]; try discriminate.
  assert (Hts' : Forall tokenWf ts) by (inversion Hts as [|? ? _ X]; now inversion X).
  destruct (pv ts) as [[v rest]|] eqn:E; [|discriminate].
  destruct (Hpv _ _ _ E Hts') as [Hv Hrest].
  destruct rest as [|t rest]; [discriminate|].
  inversion Hrest; subst.
  destruct t; try discriminate.
  - inversion H; subst. split; [now constructor | assumption].
  - apply consFst_some in H as (l' & H & ->).
    destruct (IH _ _ _ H) as [Hl Hr]; [assumption|]. split; [now constructor | assumption].
Qed.

Lemma parseValue_wf f : parsesWf (parseValue f).
Proof.
  induction f as [|f IH]; intros ts v r H Hts; [discriminate|].
  cbn [parseValue] in H.
  destruct ts as [|t ts]; [discriminate|].
  inversion Hts as [|? ? Ht Hts']; subst.
  destruct t; try discriminate;
    try (inversion H; subst; split; [now constructor | assumption]);
    try (inversion H; subst; destruct Ht; split; [now constructor | assumption]).
  - (* objects *)
    destruct ts as [|t' ts'].
    + destruct (parseMembers (parseValue f) f []) as [[kvs r']|] eqn:E; [|discriminate].
      inversion H; subst.
      destruct (parseMembers_wf _ _ IH _ _ _ E Hts') as [Hk Hr].
      split; [now apply buildObject_wf | assumption].
    + destruct t';
        try (inversion H; subst; split;
             [constructor; [exact I | constructor] | now inversion Hts']);
        (destruct (parseMembers (parseValue f) f _) as [[kvs r']|] eqn:E; [|discriminate];
         inversion H; subst;
         destruct (parseMembers_wf _ _ IH _ _ _ E Hts') as [Hk Hr];
         split; [now apply buildObject_wf | assumption]).
  - (* arrays *)
    destruct ts as [|t' ts'].
    + destruct (parseElements (parseValue f) f []) as [[vs r']|] eqn:E; [|discriminate].
      inversion H; subst.
      destruct (parseElements_wf _ _ IH _ _ _ E Hts') as [Hk Hr].
      split; [now constructor | assumption].
    + destruct t';
        try (inversion H; subst; split;
             [constructor; constructor | now inversion Hts']);
        (destruct (parseElements (parseValue f) f _) as [[vs r']|] eqn:E; [|discriminate];
         inversion H; subst;
         destruct (parseElements_wf _ _ IH _ _ _ E Hts') as [Hk Hr];
         split; [now constructor | assumption]).
Qed.

(** What [JSON.parse] returns is well formed, and it is not [undefined]. *)
Lemma JSON_parse_wf text v : JSON_parse text = Some v -> wf v.
Proof.
  unfold JSON_parse.
  destruct (lex (S (List.length text)) text) as [ts|] eqn:El; [|discriminate].
  destruct (parseValue (S (List.length ts)) ts) as [[v' r]|] eqn:Ep; [|discriminate].
  destruct r; [|discriminate]. intros [= <-].
  exact (proj1 (parseValue_wf _ _ _ _ Ep (lex_wf _ _ _ El))).
Qed.

(** ** The fuel of the parser is enough *)

Lemma consFst_length {B : Type} (a : N) (r : option (jsstring * B)) x b :
  consFst a r = Some (x, b) -> exists x', r = Some (x', b).
Proof.
  intros H. apply consFst_some in H as (l' & H & _). now exists l'.
Qed.

Lemma lexString_shorter_bounded n : forall s x r,
  (List.length s <= n)%nat -> lexString s = Some (x, r) ->
  (List.length r < List.length s)%nat.
Proof.
  induction n as [|n IH]; intros s x r Hn H.
  - destruct s; [discriminate | simpl in Hn; lia].
  - destruct s as [|c t]; [discriminate|]. simpl in Hn. cbn [lexString] in H.
    destruct (c =? 34); [inversion H; subst; simpl; lia|].
    destruct (c =? 92).
    + destruct t as [|e t']; [discriminate|].
      destruct (e =? 117).
      * destruct t' as [|h1 [|h2 [|h3 [|h4 t'']]]]; try discriminate.
        destruct (hex4 h1 h2 h3 h4); [|discriminate].
        apply consFst_length in H as [x' H].
        apply IH in H; simpl in *; lia.
      * destruct (unescape e); [|discriminate].
        apply consFst_length in H as [x' H].
        apply IH in H; simpl in *; lia.
    + destruct (c <? 32); [discriminate|].
      apply consFst_length in H as [x' H].
      apply IH in H; simpl in *; lia.
Qed.

Lemma lexString_shorter s x r :
  lexString s = Some (x, r) -> (List.length r < List.length s)%nat.
Proof. now apply (lexString_shorter_bounded (List.length s)). Qed.

Lemma spanDigits_length s : forall ds r,
  spanDigits s = (ds, r) -> List.length s = (List.length ds + List.length r)%nat.
Proof.
  induction s as [|c t IH]; intros ds r; simpl.
  - intros [= <- <-]. reflexivity.
  - destruct (isDigit c).
    + destruct (spanDigits t) as [ds' r'] eqn:E. intros [= <- <-].
      simpl. now rewrite (IH _ _ eq_refl).
    + intros [= <- <-]. reflexivity.
Qed.

Lemma lexFraction_length s fr r :
  lexFraction s = Some (fr, r) -> (List.length r <= List.length s)%nat.
Proof.
  unfold lexFraction. destruct s as [|c t]; [intros [= <- <-]; simpl; lia|].
  destruct (c =? 46); [|intros [= <- <-]; lia].
  destruct (spanDigits t) as [ds r'] eqn:E.
  apply spanDigits_length in E.
  destruct ds; [discriminate|]. intros [= <- <-]. simpl in *. lia.
Qed.

Lemma exponentDigits_length neg s x r :
  exponentDigits neg s = Some (x, r) -> (List.length r <= List.length s)%nat.
Proof.
  unfold exponentDigits. destruct (spanDigits s) as [ds r0] eqn:E.
  apply spanDigits_length in E. destruct ds; [discriminate|].
  intros [= _ <-]. simpl in *. lia.
Qed.

Lemma exponentOpt_length s x r :
  exponentOpt s = Some (x, r) -> (List.length r <= List.length s)%nat.
Proof.
  unfold exponentOpt. destruct s as [|c t]; [intros [= <- <-]; simpl; lia|].
  destruct ((c =? 101) || (c =? 69)); [|intros [= <- <-]; lia].
  destruct t as [|d u]; [discriminate|].
  destruct (d =? 45); [|destruct (d =? 43)];
    intros H; apply exponentDigits_length in H; simpl in *; lia.
Qed.

Lemma lexUnsigned_shorter neg s n r :
  lexUnsigned neg s = Some (n, r) -> (List.length r < List.length s)%nat.
Proof.
  unfold lexUnsigned, lexDecimal. destruct (spanDigits s) as [int r1] eqn:E.
  apply spanDigits_length in E.
  destruct int as [|d ds]; [discriminate|].
  destruct ((d =? 0) && negb (List.length ds =? 0)%nat); [discriminate|].
  destruct (lexFraction r1) as [[fr r2]|] eqn:Ef; [|discriminate].
  apply lexFraction_length in Ef.
  destruct (exponentOpt r2) as [[x r3]|] eqn:Ee; [|discriminate].
  apply exponentOpt_length in Ee.
  intros [= _ <-]. simpl in *. lia.
Qed.

Lemma lexNumber_shorter s n r :
  lexNumber s = Some (n, r) -> (List.length r < List.length s)%nat.
Proof.
  unfold lexNumber. destruct s as [|c t]; [discriminate|].
  destruct (c =? 45); intros H; apply lexUnsigned_shorter in H; simpl in *; lia.
Qed.

Lemma stripPrefix_length p : forall s r,
  stripPrefix p s = Some r -> List.length s = (List.length p + List.length r)%nat.
Proof.
  induction p as [|a p IH]; intros s r; simpl.
  - now intros [= <-].
  - destruct s as [|b s]; [discriminate|].
    destruct (a =? b); [|discriminate].
    intros H. simpl. now rewrite (IH _ _ H).
Qed.

Lemma lexWord_ext word tok s (k k' : jsstring -> option (list token)) :
  word <> [] ->
  (forall r, (List.length r < List.length s)%nat -> k r = k' r) ->
  lexWord word tok s k = lexWord word tok s k'.
Proof.
  intros Hw Hk. unfold lexWord.
  destruct (stripPrefix word s) as [r|] eqn:E; [|reflexivity].
  apply stripPrefix_length in E. rewrite Hk; [reflexivity|].
  destruct word; [contradiction | simpl in E; lia].
Qed.

Lemma lexStep_ext (k k' : jsstring -> option (list token)) s :
  (forall r, (List.length r < List.length s)%nat -> k r = k' r) ->
  lexStep k s = lexStep k' s.
Proof.
  intros Hk. unfold lexStep. destruct s as [|c t]; [reflexivity|].
  assert (Ht : k t = k' t) by (apply Hk; simpl; lia).
  repeat match goal with
         | |- (if ?b then _ else _) = (if ?b then _ else _) => destruct b
         end;
    rewrite ?Ht; try reflexivity;
    try (apply lexWord_ext; [discriminate | exact Hk]).
  - destruct (lexString t) as [[x r]|] eqn:E; [|reflexivity].
    apply lexString_shorter in E. rewrite Hk; [reflexivity | simpl; lia].
  - destruct (lexNumber (c :: t)) as [[x r]|] eqn:E; [|reflexivity].
    apply lexNumber_shorter in E. now rewrite Hk.
Qed.

(** With more fuel than the text has characters, the tokens do not
    depend on the fuel. *)
Lemma lex_enough f : forall f' s,
  (List.length s < f)%nat -> (List.length s < f')%nat -> lex f s = lex f' s.
Proof.
  induction f as [|f IH]; intros f' s H H'; [lia|].
  destruct f' as [|f']; [lia|]. cbn [lex].
  apply lexStep_ext. intros r Hr. apply IH; lia.
Qed.

Lemma parseElements_shorter pv n :
  (forall ts v r, pv ts = Some (v, r) -> (List.length r < List.length ts)%nat) ->
  forall ts vs r, parseElements pv n ts = Some (vs, r) ->
  (List.length r < List.length ts)%nat.
Proof.
  intros Hpv. induction n as [|n IH]; intros ts vs r H; [discriminate|].
  cbn [parseElements] in H.
  destruct (pv ts) as [[v rest]|] eqn:E; [|discriminate].
  apply Hpv in E. destruct rest as [|t rest]; [discriminate|].
  destruct t; try discriminate.
  - inversion H; subst. simpl in *. lia.
  - apply consFst_some in H as (l' & H & _). apply IH in H. simpl in *. lia.
Qed.

Lemma parseMembers_shorter pv n :
  (forall ts v r, pv ts = Some (v, r) -> (List.length r < List.length ts)%nat) ->
  forall ts kvs r, parseMembers pv n ts = Some (kvs, r) ->
  (List.length r < List.length ts)%nat.
Proof.
  intros Hpv. induction n as [|n IH]; intros ts kvs r H; [discriminate|].
  cbn [parseMembers] in H.
  destruct ts as [|[| | | | | |k| | | |] [|[] ts]]; try discriminate.
  destruct (pv ts) as [[v rest]|] eqn:E; [|discriminate].
  apply Hpv in E. destruct rest as [|t rest]; [discriminate|].
  destruct t; try discriminate.
  - inversion H; subst. simpl in *. lia.
  - apply consFst_some in H as (l' & H & _). apply IH in H. simpl in *. lia.
Qed.

Lemma parseValue_shorter f : forall ts v r,
  parseValue f ts = Some (v, r) -> (List.length r < List.length ts)%nat.
Proof.
  induction f as [|f IH]; intros ts v r H; [discriminate|].
  cbn [parseValue] in H.
  destruct ts as [|t ts]; [discriminate|].
  destruct t; try discriminate;
    try (inversion H; subst; simpl; lia).
  - destruct ts as [|t' ts'].
    + destruct (parseMembers (parseValue f) f []) as [[kvs r']|] eqn:E; [|discriminate].
      inversion H; subst. apply (parseMembers_shorter _ _ IH) in E. simpl in *. lia.
    + destruct t'; try (inversion H; subst; simpl; lia);
        (destruct (parseMembers (parseValue f) f _) as [[kvs r']|] eqn:E; [|discriminate];
         inversion H; subst; apply (parseMembers_shorter _ _ IH) in E; simpl in *; lia).
  - destruct ts as [|t' ts'].
    + destruct (parseElements (parseValue f) f []) as [[vs r']|] eqn:E; [|discriminate].
      inversion H; subst. apply (parseElements_shorter _ _ IH) in E. simpl in *. lia.
    + destruct t'; try (inversion H; subst; simpl; lia);
        (destruct (parseElements (parseValue f) f _) as [[vs r']|] eqn:E; [|discriminate];
         inversion H; subst; apply (parseElements_shorter _ _ IH) in E; simpl in *; lia).
Qed.

Lemma parseElements_ext pv pv' n : forall n' ts,
  (List.length ts < n)%nat -> (List.length ts < n')%nat ->
  (forall ts', (List.length ts' <= List.length ts)%nat -> pv ts' = pv' ts') ->
  (forall ts' v r, pv ts' = Some (v, r) -> (List.length r < List.length ts')%nat) ->
  parseElements pv n ts = parseElements pv' n' ts.
Proof.
  induction n as [|n IH]; intros n' ts Hn Hn' Hpv Hshort; [lia|].
  destruct n' as [|n']; [lia|]. cbn [parseElements].
  rewrite <- (Hpv ts (Nat.le_refl _)).
  destruct (pv ts) as [[v rest]|] eqn:E; [|reflexivity].
  apply Hshort in E. destruct rest as [|t rest]; [reflexivity|].
  destruct t; try reflexivity.
  rewrite (IH n' rest); [reflexivity | simpl in *; lia | simpl in *; lia | | exact Hshort].
  intros ts' Hts'. apply Hpv. simpl in *. lia.
Qed.

Lemma parseMembers_ext pv pv' n : forall n' ts,
  (List.length ts < n)%nat -> (List.length ts < n')%nat ->
  (forall ts', (List.length ts' <= List.length ts)%nat -> pv ts' = pv' ts') ->
  (forall ts' v r, pv ts' = Some (v, r) -> (List.length r < List.length ts')%nat) ->
  parseMembers pv n ts = parseMembers pv' n' ts.
Proof.
  induction n as [|n IH]; intros n' ts Hn Hn' Hpv Hshort; [lia|].
  destruct n' as [|n']; [lia|]. cbn [parseMembers].
  destruct ts as [|[| | | | | |k| | | |] [|[] ts]]; try reflexivity.
  rewrite <- (Hpv ts) by (simpl; lia).
  destruct (pv ts) as [[v rest]|] eqn:E; [|reflexivity].
  apply Hshort in E. destruct rest as [|t rest]; [reflexivity|].
  destruct t; try reflexivity.
  rewrite (IH n' rest); [reflexivity | simpl in *; lia | simpl in *; lia | | exact Hshort].
  intros ts' Hts'. apply Hpv. simpl in *. lia.
Qed.

(** With more fuel than there are tokens, the value does not depend on
    the fuel. *)
Lemma parseValue_enough f : forall f' ts,
  (List.length ts < f)%nat -> (List.length ts < f')%nat ->
  parseValue f ts = parseValue f' ts.
Proof.
  induction f as [|f IH]; intros f' ts H H'; [lia|].
  destruct f' as [|f']; [lia|]. cbn [parseValue].
  destruct ts as [|t ts]; [reflexivity|]. simpl in H, H'.
  assert (Hm : parseMembers (parseValue f) f ts = parseMembers (parseValue f') f' ts).
  { apply parseMembers_ext; try lia; [|apply parseValue_shorter].
    intros ts' Hts'. apply IH; lia. }
  assert (He : parseElements (parseValue f) f ts = parseElements (parseValue f') f' ts).
  { apply parseElements_ext; try lia; [|apply parseValue_shorter].
    intros ts' Hts'. apply IH; lia. }
  destruct t; try reflexivity.
  - destruct ts as [|t' ts']; [now rewrite Hm|].
    destruct t'; try reflexivity; now rewrite Hm.
  - destruct ts as [|t' ts']; [now rewrite He|].
    destruct t'; try reflexivity; now rewrite He.
Qed.

(** Whatever fuel reads a text as a value, the fuel of [JSON.parse]
    does: a text is never refused for want of fuel. *)
Theorem JSON_parse_fuel text f g ts v :
  lex f text = Some ts -> parseValue g ts = Some (v, []) ->
  JSON_parse text = Some v.
Proof.
  intros Hl Hp. unfold JSON_parse.
  assert (El : lex (S (List.length text)) text = Some ts).
  { destruct (Nat.le_gt_cases f (S (List.length text))) as [Hf|Hf].
    - now apply (lex_mono f).
    - rewrite <- Hl. apply lex_enough; lia. }
  rewrite El.
  assert (Ep : parseValue (S (List.length ts)) ts = Some (v, [])).
  { destruct (Nat.le_gt_cases g (S (List.length ts))) as [Hg|Hg].
    - now apply (parseValue_mono g).
    - rewrite <- Hp. apply parseValue_enough; lia. }
  now rewrite Ep.
Qed.

(** ** Assignment along a path that exists *)

Lemma ofString_canonical raw : canonical (ofString raw) /\ isDouble (ofString raw).
Proof.
  unfold ofString. destruct (trim raw) as [|c t];
    [split; [split; congruence | reflexivity]|].
  destruct (nonDecimalLiteral (c :: t));
    [split; [apply binary64_canonical | apply binary64_isDouble]|].
  match goal with
  | |- canonical (let '(neg, body) := ?p in _) /\ _ => destruct p as [neg body]
  end.
  destruct (JsString.eqb body (str "Infinity")); [split; exact I|].
  destruct (decimalLiteral body) as [[m e]|];
    [split; [apply binary64_canonical | apply binary64_isDouble] | split; exact I].
Qed.

(** The value a save applies is well formed. *)
Lemma newValueOf_wf nd raw v : newValueOf nd raw = Ok v -> wf v.
Proof.
  unfold newValueOf. destruct (leafRow nd) as [row|].
  - unfold coerceLeaf. destruct (type row).
    + intros [= <-]. constructor.
    + destruct (isNaN (ofString raw)); [discriminate|].
      intros [= <-]. constructor; apply ofString_canonical.
    + match goal with |- (if ?b then _ else _) = _ -> _ => destruct b end;
        [discriminate|]. intros [= <-]. constructor.
    + intros [= <-]. constructor.
    + destruct (JSON_parse raw) eqn:E; intros [= <-];
        [eapply JSON_parse_wf; eauto | constructor].
    + destruct (JSON_parse raw) eqn:E; intros [= <-];
        [eapply JSON_parse_wf; eauto | constructor].
  - destruct (JSON_parse raw) eqn:E; [|discriminate].
    intros [= <-]. eapply JSON_parse_wf; eauto.
Qed.

Lemma Forall_replaceNth (P : jsvalue -> Prop) l : forall i v,
  Forall P l -> P v -> Forall P (replaceNth l i v).
Proof.
  induction l as [|x l IH]; intros i v Hl Hv; simpl; [constructor|].
  inversion Hl; subst. destruct i; constructor; auto.
Qed.

Lemma arrSet_wf l i v : Forall wf l -> wf v -> Forall wf (arrSet l i v).
Proof.
  intros Hl Hv. unfold arrSet.
  destruct (N.to_nat i <? List.length l)%nat.
  - now apply Forall_replaceNth.
  - apply Forall_app. split; [exact Hl|]. apply Forall_app. split.
    + apply Forall_forall. intros x Hx. apply repeat_spec in Hx. subst. constructor.
    + now constructor.
Qed.

Lemma setProp_wf ptr k v r :
  wf ptr -> wf v -> setProp ptr k v = Some r -> wf r.
Proof.
  intros Hp Hv. destruct ptr as [| |b|n|s|l|m]; simpl; try discriminate;
    intros [= <-]; inversion Hp as [ | | | | |l' Hall|m' Hord Hall]; subst.
  - destruct (arrayIndex k); [|exact Hp]. constructor. now apply arrSet_wf.
  - constructor; [now apply objSet_ordered|].
    apply Forall_forall. intros [k0 v0] Hin.
    destruct (In_objSet _ _ _ _ _ Hin) as [H|[-> ->]]; [|exact Hv].
    rewrite Forall_forall in Hall. exact (Hall _ H).
Qed.

Lemma lookup_In m k c : lookup m k = Some c -> exists k', In (k', c) m.
Proof.
  induction m as [|[k' v'] m IH]; simpl; [discriminate|].
  destruct (JsString.eqb k' k).
  - intros [= <-]. exists k'. now left.
  - intros H. destruct (IH H) as [k0 H0]. exists k0. now right.
Qed.

Lemma nth_error_arrSet l i v : nth_error (arrSet l i v) (N.to_nat i) = Some v.
Proof.
  pose proof (nth_arrSet l i v) as H.
  assert (Hlen : (N.to_nat i < List.length (arrSet l i v))%nat).
  { unfold arrSet. destruct (N.to_nat i <? List.length l)%nat eqn:E.
    - apply Nat.ltb_lt in E.
      assert (Hr : forall l j x, List.length (replaceNth l j x) = List.length l).
      { intros l0. induction l0 as [|y l0 IH]; intros [|j] x; simpl; auto. }
      now rewrite Hr.
    - apply Nat.ltb_ge in E. rewrite !length_app, repeat_length. simpl. lia. }
  rewrite <- H at 2. now apply nth_error_nth'.
Qed.

(** The part of the document a valid path stops at. *)
Lemma validPath_child ptr seg rest :
  validPath ptr (seg :: rest) = true ->
  exists c, getProp ptr (propertyKey seg) = Some c /\ validPath c rest = true /\
            addressable ptr (propertyKey seg) /\
            (wf ptr -> wf c).
Proof.
  cbn [validPath]. set (k := propertyKey seg).
  destruct ptr as [| |b|n|s|l|m]; try discriminate.
  - destruct (arrayIndex k) as [i|] eqn:Ei; [|discriminate].
    destruct (nth_error l (N.to_nat i)) as [c|] eqn:En; [|discriminate].
    intros H. exists c. cbn [getProp addressable]. rewrite Ei.
    rewrite (nth_error_nth _ _ VUndef En). repeat split; auto; try congruence.
    intros Hw. inversion Hw as [ | | | | |l' Hall|]; subst.
    rewrite Forall_forall in Hall. apply Hall. eapply nth_error_In; eauto.
  - destruct (lookup m k) as [c|] eqn:El; [|discriminate].
    intros H. exists c. cbn [getProp addressable]. rewrite El. repeat split; auto.
    intros Hw. inversion Hw as [ | | | | | |m' Hord Hall]; subst.
    destruct (lookup_In _ _ _ El) as [k' Hin].
    rewrite Forall_forall in Hall. exact (Hall _ Hin).
Qed.

Lemma validPath_container c seg rest :
  validPath c (seg :: rest) = true -> isUndefined c = false /\ c <> VUndef.
Proof. destruct c; simpl; try discriminate; split; congruence. Qed.

Lemma validPath_after ptr seg rest c' r :
  addressable ptr (propertyKey seg) ->
  setProp ptr (propertyKey seg) c' = Some r ->
  validPath c' rest = true ->
  validPath r (seg :: rest) = true.
Proof.
  intros Ha Hs Hc. cbn [validPath]. set (k := propertyKey seg) in *.
  destruct ptr as [| |b|n|s|l|m]; cbn [addressable] in Ha; try contradiction;
    cbn [setProp] in Hs.
  - destruct (arrayIndex k) as [i|] eqn:Ei; [|congruence].
    inversion Hs; subst. now rewrite nth_error_arrSet.
  - inversion Hs; subst. now rewrite lookup_objSet_same.
Qed.

(** On a path that exists the assignment succeeds, and the path then
    leads to the new value. *)
Lemma assignAt_valid rest : forall ptr seg v,
  validPath ptr (seg :: rest) = true -> wf ptr -> wf v ->
  exists r, assignAt ptr seg rest v = Some r /\ wf r /\
            readPath r (seg :: rest) = Some v /\
            validPath r (seg :: rest) = true /\ r <> VUndef.
Proof.
  induction rest as [|next rest IH]; intros ptr seg v Hvalid Hw Hv.
  - destruct (validPath_child _ _ _ Hvalid) as (c & _ & _ & Ha & _).
    destruct (getProp_setProp_same ptr (propertyKey seg) v Ha) as (r & Hs & Hg & Ha').
    exists r. cbn [assignAt readPath]. rewrite Hs, Hg.
    repeat split; auto.
    + exact (setProp_wf _ _ _ _ Hw Hv Hs).
    + exact (validPath_after ptr seg [] v r Ha Hs eq_refl).
    + destruct ptr; simpl in Hs; try discriminate; inversion Hs;
        try destruct (arrayIndex _); discriminate.
  - destruct (validPath_child _ _ _ Hvalid) as (c & Hg & Hc & Ha & Hwc).
    destruct (validPath_container _ _ _ Hc) as [Hu _].
    destruct (IH c next v Hc (Hwc Hw) Hv) as (c' & Hc' & Hwc' & Hr & Hvc' & _).
    destruct (getProp_setProp_same ptr (propertyKey seg) c' Ha) as (r & Hs & Hg' & _).
    exists r. cbn [assignAt]. rewrite Hg, Hu, Hc', Hs.
    repeat split; auto.
    + exact (setProp_wf _ _ _ _ Hw Hwc' Hs).
    + change (readPath r (seg :: next :: rest))
        with (match getProp r (propertyKey seg) with
              | Some child => readPath child (next :: rest)
              | None => None
              end).
      now rewrite Hg'.
    + exact (validPath_after _ _ _ _ _ Ha Hs Hvc').
    + destruct ptr; simpl in Hs; try discriminate; inversion Hs;
        try destruct (arrayIndex _); discriminate.
Qed.

(** ** The round trip of a save *)

Lemma jsonify_representable v : wf v -> representable v = true -> jsonify v = v.
Proof.
  induction v as [| |b|n|s|l IH|m IH] using jsvalue_induction;
    intros Hw Hr;
    inversion Hw as [ | | |? Hc| |l' Hall|m' Hord Hall]; subst;
    try reflexivity.
  - destruct n as [|neg|neg m e]; try discriminate. simpl in *.
    destruct (m =? 0) eqn:E; [|reflexivity].
    apply N.eqb_eq in E. subst. destruct Hc as [He _].
    rewrite (He eq_refl). destruct neg; [discriminate | reflexivity].
  - rewrite jsonify_arr. f_equal. cbn [representable] in Hr.
    rewrite forallb_forall in Hr. rewrite Forall_forall in IH, Hall.
    rewrite <- (map_id l) at 2. apply map_ext_in. intros x Hx.
    specialize (IH x Hx (Hall x Hx) (Hr x Hx)). specialize (Hr x Hx).
    destruct x; try exact IH. discriminate.
  - rewrite jsonify_obj. f_equal. cbn [representable] in Hr.
    clear Hord Hw. induction m as [|[k x] m IHm]; [reflexivity|].
    inversion IH as [|? ? Hx Hm]; subst. inversion Hall as [|? ? Hwx Hwm]; subst.
    cbn [forallb snd] in Hr. apply andb_true_iff in Hr as [Hrx Hrm].
    cbn [flat_map]. rewrite (IHm Hm Hrm Hwm).
    unfold jsonifyMember. cbn [fst snd] in *.
    specialize (Hx Hwx Hrx).
    destruct x; try discriminate; cbn [app]; now rewrite ?Hx.
Qed.

Lemma lookup_jsonify m k c :
  lookup m k = Some c -> c <> VUndef ->
  lookup (flat_map jsonifyMember m) k = Some (jsonify c).
Proof.
  induction m as [|[k' v'] m IH]; simpl; [discriminate|].
  destruct (JsString.eqb k' k) eqn:E.
  - intros [= <-] Hc. unfold jsonifyMember. cbn [fst snd].
    destruct v'; try congruence; simpl; now rewrite E.
  - intros H Hc. unfold jsonifyMember at 1. cbn [fst snd].
    destruct v'; simpl; rewrite ?E; now apply IH.
Qed.

Lemma readPath_defined rest c v :
  validPath c rest = true -> readPath c rest = Some v -> v <> VUndef -> c <> VUndef.
Proof.
  destruct rest as [|seg rest]; simpl.
  - intros _ [= <-]. auto.
  - intros H _ _. destruct c; try discriminate.
Qed.

(** Along a path that exists, parsing the text of a value again gives
    what is left of the value at the end of the path. *)
Lemma readPath_jsonify P : forall d v,
  validPath d P = true -> readPath d P = Some v -> v <> VUndef ->
  readPath (jsonify d) P = Some (jsonify v).
Proof.
  induction P as [|seg rest IH]; intros d v Hvalid Hread Hv.
  - simpl in *. congruence.
  - cbn [validPath readPath] in *. set (k := propertyKey seg) in *.
    destruct d as [| |b|n|s|l|m]; try discriminate.
    + destruct (arrayIndex k) as [i|] eqn:Ei; [|discriminate].
      destruct (nth_error l (N.to_nat i)) as [c|] eqn:En; [|discriminate].
      cbn [getProp] in Hread. rewrite Ei, (nth_error_nth _ _ VUndef En) in Hread.
      pose proof (readPath_defined _ _ _ Hvalid Hread Hv) as Hc.
      rewrite jsonify_arr. cbn [getProp]. rewrite Ei.
      rewrite (nth_error_nth (List.map jsonifyElement l) (N.to_nat i) VUndef
                 (map_nth_error jsonifyElement _ _ En)).
      replace (jsonifyElement c) with (jsonify c) by (destruct c; try reflexivity; congruence).
      now apply IH.
    + destruct (lookup m k) as [c|] eqn:El; [|discriminate].
      cbn [getProp] in Hread. rewrite El in Hread.
      pose proof (readPath_defined _ _ _ Hvalid Hread Hv) as Hc.
      rewrite jsonify_obj. cbn [getProp].
      rewrite (lookup_jsonify _ _ _ El Hc).
      now apply IH.
Qed.

Lemma representable_defined v : representable v = true -> v <> VUndef.
Proof. destruct v; simpl; congruence. Qed.

Lemma applyAtPath_valid d P v :
  validPath d P = true -> wf d -> wf v -> v <> VUndef ->
  exists d', applyAtPath d P v = Some d' /\ wf d' /\
             readPath d' P = Some v /\ validPath d' P = true /\ d' <> VUndef.
Proof.
  intros Hvalid Hd Hv Hu. destruct P as [|seg rest].
  - exists v. simpl. auto.
  - now apply assignAt_valid.
Qed.

Lemma tryCalls_head throws c cs :
  exists made threw, tryCalls throws (c :: cs) = (c :: made, threw).
Proof.
  simpl. destruct (throws c); [now exists [], true|].
  destruct (tryCalls throws cs) as [made t]. now exists made, t.
Qed.

(** C1, amended. For every document text that parses, every path that
    addresses existing data of the document (the empty path included) and
    every coerced value that a JSON text can denote, one that holds no
    infinite number and no negative zero, the save hands over a text
    which, parsed again and walked along the path, gives exactly that
    value. *)
Theorem C1_round_trip_representable (throws : call -> bool) (st : modal)
  (nd : NodeData) (raw jsonState : jsstring) (d v : jsvalue) :
  JSON_parse jsonState = Some d ->
  validPath d (pathOf nd) = true ->
  newValueOf nd raw = Ok v ->
  representable v = true ->
  roundTrip throws st nd raw jsonState v.
Proof.
  intros Hd Hvalid Hnew Hrep.
  pose proof (JSON_parse_wf _ _ Hd) as Hwd.
  pose proof (newValueOf_wf _ _ _ Hnew) as Hwv.
  pose proof (representable_defined _ Hrep) as Hu.
  destruct (applyAtPath_valid d (pathOf nd) v Hvalid Hwd Hwv Hu)
    as (d' & Happ & Hwd' & Hread & Hvalid' & Hu').
  destruct (JSON_parse_stringify d' Hwd' Hu') as (text & Hs & Hp).
  exists text, (jsonify d'). repeat split.
  - unfold applyEditToJson. rewrite Hd, Hnew.
    fold (pathOf nd). rewrite Happ, Hs.
    destruct (tryCalls_head throws (SetJson (Some text))
                [SetContents (Some text) true; SetGraph (Some text);
                 SetSelectedNode_null]) as (made & threw & ->).
    destruct threw; reflexivity.
  - exact Hp.
  - rewrite (readPath_jsonify _ _ _ Hvalid' Hread Hu).
    now rewrite (jsonify_representable v Hwv Hrep).
Qed.

Lemma C1_round_trip_representable_witness :
  roundTrip (fun _ => false) (editingState (str "2.5e3")) limitLeaf
    (str "2.5e3") (jtext "{'limits': [10, 20], 'tags': ['a', -0]}")
    (VNum (Fin false 25 2)).
Proof.
  apply (C1_round_trip_representable (fun _ => false) (editingState (str "2.5e3"))
           limitLeaf (str "2.5e3") (jtext "{'limits': [10, 20], 'tags': ['a', -0]}")
           (VObj [(str "limits", VArr [VNum (Fin false 1 1); VNum (Fin false 2 1)]);
                  (str "tags", VArr [VStr (str "a"); VNum (Fin true 0 0)])])
           (VNum (Fin false 25 2)));
    reflexivity.
Defined.

(** C1 as stated fails: the text "Infinity" is coerced to the number
    Infinity, which is not NaN and so is accepted; [JSON.stringify] writes
    it as [null], and the document read again holds [null] at the path. *)
Lemma C1_counterexample_infinity :
  JSON_parse (jtext "{'limits': [10, 20]}")
    = Some (VObj [(str "limits", VArr [VNum (Fin false 1 1); VNum (Fin false 2 1)])]) /\
  validPath (VObj [(str "limits", VArr [VNum (Fin false 1 1); VNum (Fin false 2 1)])])
    (pathOf limitLeaf) = true /\
  newValueOf limitLeaf (str "Infinity") = Ok (VNum (Inf false)) /\
  savedText (applyEditToJson (fun _ => false) (Some limitLeaf)
               (jtext "{'limits': [10, 20]}") (editingState (str "Infinity"))
               (str "Infinity"))
    = Some [123; 10; 32; 32; 34; 108; 105; 109; 105; 116; 115; 34; 58; 32; 91; 10;
            32; 32; 32; 32; 110; 117; 108; 108; 44; 10; 32; 32; 32; 32; 50; 48; 10;
            32; 32; 93; 10; 125] /\
  ~ roundTrip (fun _ => false) (editingState (str "Infinity")) limitLeaf
      (str "Infinity") (jtext "{'limits': [10, 20]}") (VNum (Inf false)).
Proof.
  repeat split.
  intros (text & d' & Hs & Hp & Hr).
  vm_compute in Hs. injection Hs as <-.
  vm_compute in Hp. injection Hp as <-.
  vm_compute in Hr. discriminate.
Qed.

(** A numeral past the largest binary64 value is the number Infinity as
    well: on a number leaf the text [1e400] is accepted and saved as
    [null]. A numeral between two binary64 values is the nearer one. *)
Example save_overflowing_numeral :
  ofString (str "1e400") = Inf false /\
  newValueOf limitLeaf (str "1e400") = Ok (VNum (Inf false)) /\
  savedText (applyEditToJson (fun _ => false) (Some limitLeaf)
               (jtext "{'limits': [10, 20]}") (editingState (str "1e400"))
               (str "1e400"))
    = Some [123; 10; 32; 32; 34; 108; 105; 109; 105; 116; 115; 34; 58; 32; 91; 10;
            32; 32; 32; 32; 110; 117; 108; 108; 44; 10; 32; 32; 32; 32; 50; 48; 10;
            32; 32; 93; 10; 125] /\
  ofString (str "9007199254740993") = Fin false 9007199254740992 0 /\
  ofString (str "0.3000000000000000444") = Fin false 30000000000000004 (-17) /\
  ofString (str "1.7976931348623159e308") = Inf false /\
  ofString (str "-1e-400") = Fin true 0 0 /\
  JSON_parse (str "1e400") = Some (VNum (Inf false)) /\
  JSON_parse (str "4.9e-324") = Some (VNum (Fin false 5 (-324))).
Proof. vm_compute. repeat split. Qed.

(* ================================================================== *)
(** * Further properties of the save *)

(** ** What a save hands to the stores *)

Lemma parseValue_defined f ts v r : parseValue f ts = Some (v, r) -> v <> VUndef.
Proof.
  destruct f as [|f]; [discriminate|]. cbn [parseValue].
  destruct ts as [|t ts]; [discriminate|].
  destruct t; try discriminate; try (intros [= <- _]; discriminate).
  - destruct ts as [|t' ts'].
    + destruct (parseMembers _ _ _) as [[kvs r']|]; [|discriminate].
      intros [= <- _]. discriminate.
    + destruct t'; try (intros [= <- _]; discriminate);
        (destruct (parseMembers _ _ _) as [[kvs r']|]; [|discriminate];
         intros [= <- _]; discriminate).
  - destruct ts as [|t' ts'].
    + destruct (parseElements _ _ _) as [[vs r']|]; [|discriminate].
      intros [= <- _]. discriminate.
    + destruct t'; try (intros [= <- _]; discriminate);
        (destruct (parseElements _ _ _) as [[vs r']|]; [|discriminate];
         intros [= <- _]; discriminate).
Qed.

Lemma JSON_parse_defined text v : JSON_parse text = Some v -> v <> VUndef.
Proof.
  unfold JSON_parse.
  destruct (lex _ text) as [ts|]; [|discriminate].
  destruct (parseValue _ ts) as [[v' r]|] eqn:E; [|discriminate].
  destruct r; [|discriminate]. intros [= <-].
  eapply parseValue_defined; eauto.
Qed.

(** The value a save applies is never [undefined]. *)
Lemma newValueOf_defined nd raw v : newValueOf nd raw = Ok v -> v <> VUndef.
Proof.
  unfold newValueOf. destruct (leafRow nd) as [row|].
  - unfold coerceLeaf. destruct (type row);
      try (intros [= <-]; discriminate).
    + destruct (isNaN (ofString raw)); [discriminate|]. intros [= <-]. discriminate.
    + match goal with |- (if ?b then _ else _) = _ -> _ => destruct b end;
        [discriminate|]. intros [= <-]. discriminate.
    + destruct (JSON_parse raw) eqn:E; intros [= <-];
        [eapply JSON_parse_defined; eauto | discriminate].
    + destruct (JSON_parse raw) eqn:E; intros [= <-];
        [eapply JSON_parse_defined; eauto | discriminate].
  - destruct (JSON_parse raw) eqn:E; [|discriminate].
    intros [= <-]. eapply JSON_parse_defined; eauto.
Qed.

Lemma getProp_wf ptr k c : wf ptr -> getProp ptr k = Some c -> wf c.
Proof.
  intros Hw. destruct ptr as [| |b|n|s|l|m]; simpl; try discriminate;
    intros [= <-]; try constructor.
  - destruct (arrayIndex k); [|constructor].
    destruct (nth_error s (N.to_nat n)); constructor.
  - inversion Hw as [ | | | | |l' Hall|]; subst.
    destruct (arrayIndex k) as [i|]; [|constructor].
    destruct (nth_in_or_default (N.to_nat i) l VUndef) as [Hin| ->]; [|constructor].
    rewrite Forall_forall in Hall. now apply Hall.
  - inversion Hw as [ | | | | | |m' Hord Hall]; subst.
    destruct (lookup m k) as [c|] eqn:E; [|constructor].
    destruct (lookup_In _ _ _ E) as [k' Hin].
    rewrite Forall_forall in Hall. exact (Hall _ Hin).
Qed.

Lemma setProp_container ptr k v r : setProp ptr k v = Some r -> isContainer r = true.
Proof.
  destruct ptr; simpl; try discriminate; intros [= <-];
    try destruct (arrayIndex k); reflexivity.
Qed.

(** The assignment keeps a well-formed document well formed, and what it
    returns is an array or an object. *)
Lemma assignAt_wf rest : forall ptr seg v r,
  wf ptr -> wf v -> assignAt ptr seg rest v = Some r ->
  wf r /\ isContainer r = true.
Proof.
  induction rest as [|next rest IH]; intros ptr seg v r Hp Hv; cbn [assignAt].
  - intros H. split; [exact (setProp_wf _ _ _ _ Hp Hv H) | exact (setProp_container _ _ _ _ H)].
  - destruct (getProp ptr (propertyKey seg)) as [cur|] eqn:Eg; [|discriminate].
    destruct (isUndefined cur).
    + destruct (setProp ptr (propertyKey seg) (VObj [])) as [ptr1|] eqn:E1; [|discriminate].
      destruct (assignAt (VObj []) next rest v) as [child|] eqn:Ec; [|discriminate].
      intros H.
      assert (Hw1 : wf ptr1)
        by (apply (setProp_wf _ _ _ _ Hp (wf_obj [] I (Forall_nil _)) E1)).
      destruct (IH _ _ _ _ (wf_obj [] I (Forall_nil _)) Hv Ec) as [Hwc _].
      split; [exact (setProp_wf _ _ _ _ Hw1 Hwc H) | exact (setProp_container _ _ _ _ H)].
    + destruct (assignAt cur next rest v) as [child|] eqn:Ec; [|discriminate].
      intros H.
      destruct (IH _ _ _ _ (getProp_wf _ _ _ Hp Eg) Hv Ec) as [Hwc _].
      split; [exact (setProp_wf _ _ _ _ Hp Hwc H) | exact (setProp_container _ _ _ _ H)].
Qed.

Lemma applyAtPath_wf d P v d' :
  wf d -> wf v -> v <> VUndef -> applyAtPath d P v = Some d' ->
  wf d' /\ d' <> VUndef.
Proof.
  intros Hd Hv Hu. destruct P as [|seg rest]; simpl.
  - intros [= <-]. auto.
  - intros H. destruct (assignAt_wf _ _ _ _ _ Hd Hv H) as [Hw Hc].
    split; [exact Hw|]. destruct d'; discriminate.
Qed.

Lemma tryCalls_subset throws cs : forall made threw c,
  tryCalls throws cs = (made, threw) -> In c made -> In c cs.
Proof.
  induction cs as [|c0 cs IH]; intros made threw c; simpl.
  - intros [= <- _] [].
  - destruct (throws c0).
    + intros [= <- _] [<-|[]]. now left.
    + destruct (tryCalls throws cs) as [made' t'] eqn:E.
      intros [= <- _] [<-|Hin]; [now left | right; eapply IH; eauto].
Qed.

(** X1. Whatever a save hands to the stores is one text, the same for
    the json store, the file contents and the graph, and that text parses
    as JSON: the stores never receive a broken document, nor [undefined]. *)
Theorem save_hands_over_json (throws : call -> bool) (nd : NodeData)
  (jsonState raw : jsstring) (st st' : modal) (calls : list call) :
  applyEditToJson throws (Some nd) jsonState st raw = Returned st' calls ->
  calls = [] \/
  exists text doc,
    JSON_parse text = Some doc /\
    hd_error calls = Some (SetJson (Some text)) /\
    forall c t, In c calls -> storedText c = Some t -> t = Some text.
Proof.
  unfold applyEditToJson.
  destruct (JSON_parse jsonState) as [d|] eqn:Ed; [|intros [= _ <-]; now left].
  destruct (newValueOf nd raw) as [v|message] eqn:Ev; [|intros [= _ <-]; now left].
  destruct (applyAtPath d _ v) as [d'|] eqn:Ea; [|discriminate].
  destruct (applyAtPath_wf _ _ _ _ (JSON_parse_wf _ _ Ed) (newValueOf_wf _ _ _ Ev)
              (newValueOf_defined _ _ _ Ev) Ea) as [Hw Hu].
  destruct (JSON_parse_stringify d' Hw Hu) as (text & -> & Hp).
  destruct (tryCalls_head throws (SetJson (Some text))
              [SetContents (Some text) true; SetGraph (Some text);
               SetSelectedNode_null]) as (made & threw & E).
  pose proof (fun c => tryCalls_subset throws _ _ _ c E) as Hsub.
  rewrite E. intros H. right. exists text, (jsonify d').
  assert (Hc : calls = SetJson (Some text) :: made)
    by (destruct threw; now inversion H).
  subst calls. split; [exact Hp|]. split; [reflexivity|].
  intros c t Hin Ht. apply Hsub in Hin.
  destruct Hin as [<-|[<-|[<-|[<-|[]]]]]; simpl in Ht; congruence.
Qed.

Lemma save_hands_over_json_witness :
  [SetJson (Some (str "7")); SetContents (Some (str "7")) true;
   SetGraph (Some (str "7")); SetSelectedNode_null] = [] \/
  exists text doc,
    JSON_parse text = Some doc /\
    hd_error [SetJson (Some (str "7")); SetContents (Some (str "7")) true;
              SetGraph (Some (str "7")); SetSelectedNode_null]
      = Some (SetJson (Some text)) /\
    forall c t,
      In c [SetJson (Some (str "7")); SetContents (Some (str "7")) true;
            SetGraph (Some (str "7")); SetSelectedNode_null] ->
      storedText c = Some t -> t = Some text.
Proof.
  apply (save_hands_over_json (fun _ => false)
           {| text := [ {| key := None; value := SNum (Fin false 1 0);
                           type := TNumber |} ];
              path := None |}
           (str "1") (str " 7 ") (editingState (str " 7 ")) closed).
  reflexivity.
Defined.

Lemma tryCalls_all throws cs : forall made,
  tryCalls throws cs = (made, false) ->
  made = cs /\ forall c, In c cs -> throws c = false.
Proof.
  induction cs as [|c0 cs IH]; intros made; simpl.
  - intros [= <-]. split; [reflexivity | intros c []].
  - destruct (throws c0) eqn:E0; [discriminate|].
    destruct (tryCalls throws cs) as [made' t'].
    intros [= <- ->]. destruct (IH _ eq_refl) as [-> Hall].
    split; [reflexivity|]. intros c [<-|Hin]; auto.
Qed.

(** X2. A save that returns has done one of three things. With no
    selection it has done nothing: the modal is as it was and no store
    was called. Or it has closed the modal, and then it has made its
    four calls, in their order and with one text, none of which threw.
    Or it has set an error and left the edited text and the editing flag
    as they were, and then, unless the error is the failure of a store,
    it has called no store. A call that threw always gives the error
    ApplyFailed. *)
Theorem save_closes_or_keeps (throws : call -> bool) (nodeData : option NodeData)
  (jsonState raw : jsstring) (st st' : modal) (calls : list call) :
  applyEditToJson throws nodeData jsonState st raw = Returned st' calls ->
  ((nodeData = None /\ st' = st /\ calls = []) \/
   (nodeData <> None /\ st' = closed /\
    (exists t, calls = [SetJson t; SetContents t true; SetGraph t;
                        SetSelectedNode_null]) /\
    forall c, In c calls -> throws c = false) \/
   (nodeData <> None /\
    exists msg,
      st' = setError st (Some msg) /\
      edited st' = edited st /\ editing st' = editing st /\
      (msg <> ApplyFailed -> calls = []))) /\
  ((exists c, In c calls /\ throws c = true) ->
   st' = setError st (Some ApplyFailed)).
Proof.
  unfold applyEditToJson. destruct nodeData as [nd|].
  2:{ intros [= <- <-]. split; [now left | intros (c & [] & _)]. }
  destruct (JSON_parse jsonState) as [d|].
  2:{ intros [= <- <-]. split; [|intros (c & [] & _)].
      right. right. split; [discriminate|]. eexists. repeat split. }
  destruct (newValueOf nd raw) as [v|message].
  2:{ intros [= <- <-]. split; [|intros (c & [] & _)].
      right. right. split; [discriminate|]. eexists. repeat split. }
  destruct (applyAtPath d _ v) as [d'|]; [|discriminate].
  destruct (tryCalls throws _) as [made threw] eqn:E.
  destruct threw; intros [= <- <-].
  - split; [|reflexivity].
    right. right. split; [discriminate|].
    exists ApplyFailed. repeat split. congruence.
  - destruct (tryCalls_all _ _ _ E) as [-> Hall]. split.
    + right. left. split; [discriminate|].
      split; [reflexivity|]. split; [eexists; reflexivity | exact Hall].
    + intros (c & Hin & Hc). rewrite (Hall c Hin) in Hc. discriminate.
Qed.

Lemma save_closes_or_keeps_witness :
  let st := editingState (str "maybe") in
  let st' := setError st (Some InvalidBoolean) in
  ((Some booleanLeaf = None /\ st' = st /\ @nil call = []) \/
   (Some booleanLeaf <> None /\ st' = closed /\
    (exists t, @nil call = [SetJson t; SetContents t true; SetGraph t;
                            SetSelectedNode_null]) /\
    forall c, In c (@nil call) -> false = false) \/
   (Some booleanLeaf <> None /\
    exists msg,
      st' = setError st (Some msg) /\
      edited st' = edited st /\ editing st' = editing st /\
      (msg <> ApplyFailed -> @nil call = []))) /\
  ((exists c, In c (@nil call) /\ false = true) ->
   st' = setError st (Some ApplyFailed)).
Proof.
  intros st st'.
  apply (save_closes_or_keeps (fun _ => false) (Some booleanLeaf)
           (jtext "{'active': true}") (str "maybe") st st' []).
  reflexivity.
Defined.

(** X3. The errors a save reports are five, each with its cause: the
    document does not parse; a number leaf whose text converts to NaN; a
    boolean leaf; a composite selection whose text does not parse; a
    store that threw. A leaf of type string, null, object or array is
    never refused. *)
Theorem save_errors_classified (throws : call -> bool) (nd : NodeData)
  (jsonState raw : jsstring) (st st' : modal) (calls : list call) (msg : string) :
  applyEditToJson throws (Some nd) jsonState st raw = Returned st' calls ->
  error st' = Some msg ->
  (msg = MalformedDocument /\ JSON_parse jsonState = None) \/
  (msg = InvalidNumber /\ isNaN (ofString raw) = true /\
     exists row, leafRow nd = Some row /\ type row = TNumber) \/
  (msg = InvalidBoolean /\
     exists row, leafRow nd = Some row /\ type row = TBoolean) \/
  (msg = InvalidFragment /\ leafRow nd = None /\ JSON_parse raw = None) \/
  (msg = ApplyFailed /\ exists c, In c calls /\ throws c = true).
Proof.
  unfold applyEditToJson.
  destruct (JSON_parse jsonState) as [d|] eqn:Ed;
    [|intros [= <- _]; simpl; intros [= <-]; now left].
  destruct (newValueOf nd raw) as [v|message] eqn:Ev.
  - destruct (applyAtPath d _ v) as [d'|]; [|discriminate].
    set (cs := [SetJson _; _; _; _]).
    destruct (tryCalls throws cs) as [made threw] eqn:E.
    destruct threw; intros [= <- <-]; simpl; [|discriminate].
    intros [= <-]. do 4 right. split; [reflexivity|].
    clear -E. revert made E. induction cs as [|c cs IH]; intros made; simpl.
    + discriminate.
    + destruct (throws c) eqn:Et.
      * intros [= <-]. exists c. split; [now left | exact Et].
      * destruct (tryCalls throws cs) as [made' t'] eqn:E'.
        intros [= <- ->]. destruct (IH _ eq_refl) as (c' & Hin & Hc').
        exists c'. split; [now right | exact Hc'].
  - intros [= <- _]. simpl. intros [= <-]. right.
    unfold newValueOf in Ev. destruct (leafRow nd) as [row|] eqn:El.
    + unfold coerceLeaf in Ev. destruct (type row) eqn:Et; try discriminate.
      * destruct (isNaN (ofString raw)) eqn:En; [|discriminate].
        inversion Ev; subst. left. split; [reflexivity|]. split; [reflexivity|].
        now exists row.
      * match type of Ev with (if ?b then _ else _) = _ => destruct b end;
          [|discriminate].
        inversion Ev; subst. right. left. split; [reflexivity | now exists row].
      * destruct (JSON_parse raw); discriminate.
      * destruct (JSON_parse raw); discriminate.
    + destruct (JSON_parse raw) eqn:Er; [discriminate|].
      inversion Ev; subst. right. right. left. auto.
Qed.

Lemma save_errors_classified_witness :
  (InvalidNumber = MalformedDocument /\
     JSON_parse (jtext "{'count': 7}") = None) \/
  (InvalidNumber = InvalidNumber /\ isNaN (ofString (str "seven")) = true /\
     exists row, leafRow numberLeaf = Some row /\ type row = TNumber) \/
  (InvalidNumber = InvalidBoolean /\
     exists row, leafRow numberLeaf = Some row /\ type row = TBoolean) \/
  (InvalidNumber = InvalidFragment /\ leafRow numberLeaf = None /\
     JSON_parse (str "seven") = None) \/
  (InvalidNumber = ApplyFailed /\ exists c, In c (@nil call) /\ false = true).
Proof.
  apply (save_errors_classified (fun _ => false) numberLeaf
           (jtext "{'count': 7}") (str "seven") (editingState (str "seven"))
           (setError (editingState (str "seven")) (Some InvalidNumber)) []
           InvalidNumber); reflexivity.
Defined.

Lemma newValueOf_messages nd raw m :
  newValueOf nd raw = Err m ->
  m = InvalidNumber \/ m = InvalidBoolean \/ m = InvalidFragment.
Proof.
  unfold newValueOf. destruct (leafRow nd) as [row|].
  - unfold coerceLeaf. destruct (type row); try discriminate.
    + destruct (isNaN (ofString raw)); [|discriminate]. intros [= <-]. auto.
    + match goal with |- (if ?b then _ else _) = _ -> _ => destruct b end;
        [|discriminate]. intros [= <-]. auto.
    + destruct (JSON_parse raw); discriminate.
    + destruct (JSON_parse raw); discriminate.
  - destruct (JSON_parse raw); [discriminate|]. intros [= <-]. auto.
Qed.

Lemma tryCalls_threw throws cs : forall made,
  tryCalls throws cs = (made, true) ->
  exists front c back,
    cs = front ++ c :: back /\ made = front ++ [c] /\ throws c = true /\
    forall x, In x front -> throws x = false.
Proof.
  induction cs as [|c0 cs IH]; intros made; simpl; [discriminate|].
  destruct (throws c0) eqn:E0.
  - intros [= <-]. exists [], c0, cs. repeat split; auto. intros x [].
  - destruct (tryCalls throws cs) as [made' t'].
    intros [= <- ->].
    destruct (IH _ eq_refl) as (front & c & back & -> & -> & Hc & Hfront).
    exists (c0 :: front), c, back. repeat split; auto.
    intros x [<-|Hx]; auto.
Qed.

(** X4. When a store throws, the save stops at that call and undoes
    nothing: the calls made are the calls of the sequence up to the one
    that threw, each of them with the new text, and the modal keeps the
    edit with the error ApplyFailed. So when it is not [setJson] that
    threw, the json store holds the new document while the modal reports
    a failure. *)
Theorem save_store_failure (throws : call -> bool) (nd : NodeData)
  (jsonState raw : jsstring) (st st' : modal) (calls : list call) :
  applyEditToJson throws (Some nd) jsonState st raw = Returned st' calls ->
  error st' = Some ApplyFailed ->
  st' = setError st (Some ApplyFailed) /\
  exists t front c back,
    [SetJson t; SetContents t true; SetGraph t; SetSelectedNode_null]
      = front ++ c :: back /\
    calls = front ++ [c] /\
    throws c = true /\
    (forall x, In x front -> throws x = false) /\
    (throws (SetJson t) = false -> hd_error calls = Some (SetJson t)).
Proof.
  unfold applyEditToJson.
  destruct (JSON_parse jsonState) as [d|];
    [|intros [= <- _]; simpl; discriminate].
  destruct (newValueOf nd raw) as [v|message] eqn:Ev.
  - destruct (applyAtPath d _ v) as [d'|]; [|discriminate].
    destruct (tryCalls throws _) as [made threw] eqn:E.
    destruct threw; intros [= <- <-]; simpl; [|discriminate]. intros _.
    split; [reflexivity|].
    destruct (tryCalls_threw _ _ _ E) as (front & c & back & Hcs & -> & Hc & Hfront).
    exists (JSON_stringify d'), front, c, back. repeat split; auto.
    intros Hj. destruct front as [|x front].
    + simpl in Hcs. inversion Hcs; subst. congruence.
    + simpl in Hcs. inversion Hcs; subst. reflexivity.
  - intros [= <- _]. simpl. intros [= H].
    destruct (newValueOf_messages _ _ _ Ev) as [->|[->| ->]]; discriminate.
Qed.

Lemma save_store_failure_witness :
  let throws := fun c => match c with SetGraph _ => true | _ => false end in
  let st := editingState (str "Ann") in
  setError st (Some ApplyFailed) = setError st (Some ApplyFailed) /\
  exists t front c back,
    [SetJson t; SetContents t true; SetGraph t; SetSelectedNode_null]
      = front ++ c :: back /\
    [SetJson (Some (jtext "'Ann'")); SetContents (Some (jtext "'Ann'")) true;
     SetGraph (Some (jtext "'Ann'"))] = front ++ [c] /\
    throws c = true /\
    (forall x, In x front -> throws x = false) /\
    (throws (SetJson t) = false ->
     hd_error [SetJson (Some (jtext "'Ann'")); SetContents (Some (jtext "'Ann'")) true;
               SetGraph (Some (jtext "'Ann'"))] = Some (SetJson t)).
Proof.
  intros throws st.
  apply (save_store_failure throws (stringLeaf []) (str "1") (str "Ann") st
           (setError st (Some ApplyFailed))
           [SetJson (Some (jtext "'Ann'")); SetContents (Some (jtext "'Ann'")) true;
            SetGraph (Some (jtext "'Ann'"))]); reflexivity.
Defined.

(** ** The assignment leaves the rest of the document alone *)

Lemma nth_error_replaceNth_other l : forall i j v,
  i <> j -> nth_error (replaceNth l i v) j = nth_error l j.
Proof.
  induction l as [|x l IH]; intros i j v Hne; simpl; [reflexivity|].
  destruct i, j; simpl; try reflexivity; [congruence|]. apply IH. congruence.
Qed.

Lemma length_replaceNth l : forall i v,
  List.length (replaceNth l i v) = List.length l.
Proof.
  induction l as [|x l IH]; intros i v; simpl; [reflexivity|].
  destruct i; simpl; [reflexivity|]. now rewrite IH.
Qed.

Lemma nth_default_of_error (l : list jsvalue) j :
  nth j l VUndef = match nth_error l j with Some x => x | None => VUndef end.
Proof.
  revert j. induction l as [|x l IH]; intros [|j]; simpl; auto.
Qed.

Lemma nth_arrSet_other l i j v :
  N.to_nat i <> j -> nth j (arrSet l i v) VUndef = nth j l VUndef.
Proof.
  intros Hne. unfold arrSet.
  destruct (N.to_nat i <? List.length l)%nat eqn:E.
  - rewrite !nth_default_of_error. now rewrite nth_error_replaceNth_other.
  - apply Nat.ltb_ge in E.
    destruct (Nat.lt_ge_cases j (List.length l)) as [Hj|Hj].
    + now rewrite app_nth1.
    + rewrite app_nth2 by exact Hj. rewrite (nth_overflow l) by exact Hj.
      destruct (Nat.lt_ge_cases (j - List.length l) (N.to_nat i - List.length l))
        as [Hk|Hk].
      * rewrite app_nth1 by (now rewrite repeat_length).
        apply nth_repeat_lt. exact Hk.
      * rewrite app_nth2 by (now rewrite repeat_length).
        rewrite repeat_length.
        destruct (j - List.length l - (N.to_nat i - List.length l))%nat
          as [|n] eqn:En; [lia|]. simpl. now destruct n.
Qed.

(** An assignment to one property is not seen by a read of another. *)
Lemma getProp_setProp_other ptr k k' x r :
  setProp ptr k x = Some r -> JsString.eqb k k' = false ->
  getProp r k' = getProp ptr k'.
Proof.
  intros Hs Hne. destruct ptr as [| |b|n|s|l|m]; simpl in Hs; try discriminate;
    inversion Hs; subst r; clear Hs.
  - destruct (arrayIndex k) as [i|] eqn:Ei; [|reflexivity]. simpl.
    destruct (arrayIndex k') as [j|] eqn:Ej; [|reflexivity].
    rewrite nth_arrSet_other; [reflexivity|].
    intros E. apply N2Nat.inj in E. subst j.
    apply jsstring_eqb_neq in Hne. apply Hne. eapply arrayIndex_inj; eauto.
  - simpl. now rewrite lookup_objSet_other.
Qed.

Lemma validPath_cons v seg rest :
  validPath v (seg :: rest) =
    match ownProp v (propertyKey seg) with
    | Some c => validPath c rest
    | None => false
    end.
Proof.
  destruct v; try reflexivity. simpl.
  destruct (arrayIndex (propertyKey seg)); reflexivity.
Qed.

Lemma ownProp_getProp v k c : ownProp v k = Some c -> getProp v k = Some c.
Proof.
  destruct v as [| |b|n|s|l|m]; simpl; try discriminate.
  - destruct (arrayIndex k) as [i|]; [|discriminate]. intros H.
    rewrite nth_default_of_error, H. reflexivity.
  - now intros ->.
Qed.

Lemma ownProp_setProp_same ptr k c x :
  ownProp ptr k = Some c ->
  exists r, setProp ptr k x = Some r /\ ownProp r k = Some x.
Proof.
  destruct ptr as [| |b|n|s|l|m]; simpl; try discriminate.
  - destruct (arrayIndex k) as [i|] eqn:Ei; [|discriminate]. intros _.
    eexists. split; [reflexivity|]. simpl. rewrite Ei. apply nth_error_arrSet.
  - intros _. eexists. split; [reflexivity|]. simpl. apply lookup_objSet_same.
Qed.

Lemma ownProp_setProp_other ptr k k' c x r :
  ownProp ptr k = Some c -> setProp ptr k x = Some r ->
  JsString.eqb k k' = false -> ownProp r k' = ownProp ptr k'.
Proof.
  intros Ho Hs Hne. destruct ptr as [| |b|n|s|l|m]; simpl in *; try discriminate.
  - destruct (arrayIndex k) as [i|] eqn:Ei; [|discriminate].
    inversion Hs; subst r; clear Hs. simpl.
    destruct (arrayIndex k') as [j|] eqn:Ej; [|reflexivity].
    assert (Hlt : (N.to_nat i < List.length l)%nat)
      by (apply nth_error_Some; congruence).
    unfold arrSet. apply Nat.ltb_lt in Hlt. rewrite Hlt.
    apply nth_error_replaceNth_other.
    intros E. apply N2Nat.inj in E. subst j.
    apply jsstring_eqb_neq in Hne. apply Hne. eapply arrayIndex_inj; eauto.
  - inversion Hs; subst r. simpl. now apply lookup_objSet_other.
Qed.

Lemma offPath_cons seg rest Q :
  offPath (seg :: rest) Q = true ->
  exists seg' rest', Q = seg' :: rest' /\
    (JsString.eqb (propertyKey seg) (propertyKey seg') = false \/
     propertyKey seg = propertyKey seg' /\ offPath rest rest' = true).
Proof.
  destruct Q as [|seg' rest']; simpl; [discriminate|].
  destruct (JsString.eqb (propertyKey seg) (propertyKey seg')) eqn:E; intros H;
    exists seg', rest'; split; auto.
  right. split; [now apply jsstring_eqb_eq | exact H].
Qed.

(** The assignment at a valid path changes what is read at that path
    and below it, nothing else: a path that leaves it reads the same
    value, and is valid when it was. *)
Lemma assignAt_frame rest : forall ptr seg v r Q,
  validPath ptr (seg :: rest) = true ->
  assignAt ptr seg rest v = Some r ->
  offPath (seg :: rest) Q = true ->
  readPath r Q = readPath ptr Q /\ validPath r Q = validPath ptr Q.
Proof.
  induction rest as [|next rest IH]; intros ptr seg v r Q Hvalid Ha Hoff;
    destruct (offPath_cons _ _ _ Hoff) as (seg' & rest' & -> & Hcase);
    rewrite validPath_cons in Hvalid;
    destruct (ownProp ptr (propertyKey seg)) as [c|] eqn:Eo; try discriminate.
  - cbn [assignAt] in Ha.
    destruct Hcase as [Hne|[_ Hoff']]; [|destruct rest'; discriminate].
    rewrite !validPath_cons. cbn [readPath].
    rewrite (getProp_setProp_other _ _ _ _ _ Ha Hne).
    rewrite (ownProp_setProp_other _ _ _ _ _ _ Eo Ha Hne). auto.
  - cbn [assignAt] in Ha. rewrite (ownProp_getProp _ _ _ Eo) in Ha.
    destruct (validPath_container _ _ _ Hvalid) as [Hu _]. rewrite Hu in Ha.
    destruct (assignAt c next rest v) as [child|] eqn:Ec; [|discriminate].
    destruct Hcase as [Hne|[Hk Hoff']].
    + rewrite !validPath_cons. cbn [readPath].
      rewrite (getProp_setProp_other _ _ _ _ _ Ha Hne).
      rewrite (ownProp_setProp_other _ _ _ _ _ _ Eo Ha Hne). auto.
    + destruct (IH _ _ _ _ _ Hvalid Ec Hoff') as [Hr Hv].
      destruct (ownProp_setProp_same ptr (propertyKey seg) c child Eo)
        as (r' & Hs & Ho').
      rewrite Ha in Hs. inversion Hs; subst r'.
      rewrite !validPath_cons. cbn [readPath]. rewrite <- Hk.
      rewrite (ownProp_getProp _ _ _ Ho'), (ownProp_getProp _ _ _ Eo), Ho', Eo.
      auto.
Qed.

(** ** What a parsed document holds *)

Lemma fold_objSet_holeFree kvs : forall acc,
  forallb (fun kv => holeFree (snd kv)) acc = true ->
  forallb (fun kv => holeFree (snd kv)) kvs = true ->
  forallb (fun kv => holeFree (snd kv))
    (fold_left (fun o kv => objSet o (fst kv) (snd kv)) kvs acc) = true.
Proof.
  induction kvs as [|[k v] kvs IH]; intros acc Ha Hk; simpl; [exact Ha|].
  simpl in Hk. apply andb_true_iff in Hk as [Hv Hk].
  apply IH; [|exact Hk]. apply forallb_forall. intros [k0 v0] Hin.
  destruct (In_objSet _ _ _ _ _ Hin) as [H|[-> ->]]; [|exact Hv].
  rewrite forallb_forall in Ha. exact (Ha _ H).
Qed.

Lemma parseElements_holeFree pv n :
  (forall ts v r, pv ts = Some (v, r) -> holeFree v = true) ->
  forall ts vs r, parseElements pv n ts = Some (vs, r) ->
  forallb holeFree vs = true.
Proof.
  intros Hpv. induction n as [|n IH]; intros ts vs r H; [discriminate|].
  cbn [parseElements] in H.
  destruct (pv ts) as [[v rest]|] eqn:E; [|discriminate].
  pose proof (Hpv _ _ _ E) as Hv.
  destruct rest as [|t rest]; [discriminate|].
  destruct t; try discriminate.
  - inversion H; subst. simpl. now rewrite Hv.
  - apply consFst_some in H as (l' & H & ->). simpl. rewrite Hv. eapply IH; eauto.
Qed.

Lemma parseMembers_holeFree pv n :
  (forall ts v r, pv ts = Some (v, r) -> holeFree v = true) ->
  forall ts kvs r, parseMembers pv n ts = Some (kvs, r) ->
  forallb (fun kv => holeFree (snd kv)) kvs = true.
Proof.
  intros Hpv. induction n as [|n IH]; intros ts kvs r H; [discriminate|].
  cbn [parseMembers] in H.
  destruct ts as [|[| | | | | |k| | | |] [|[] ts]]; try discriminate.
  destruct (pv ts) as [[v rest]|] eqn:E; [|discriminate].
  pose proof (Hpv _ _ _ E) as Hv.
  destruct rest as [|t rest]; [discriminate|].
  destruct t; try discriminate.
  - inversion H; subst. simpl. now rewrite Hv.
  - apply consFst_some in H as (l' & H & ->). simpl. rewrite Hv. eapply IH; eauto.
Qed.

Lemma parseValue_holeFree f : forall ts v r,
  parseValue f ts = Some (v, r) -> holeFree v = true.
Proof.
  induction f as [|f IH]; intros ts v r H; [discriminate|].
  cbn [parseValue] in H.
  destruct ts as [|t ts]; [discriminate|].
  destruct t; try discriminate; try (inversion H; subst; reflexivity).
  - destruct ts as [|t' ts'].
    + destruct (parseMembers (parseValue f) f []) as [[kvs r']|] eqn:E; [|discriminate].
      inversion H; subst. cbn [holeFree]. apply fold_objSet_holeFree; [reflexivity|].
      exact (parseMembers_holeFree _ _ IH _ _ _ E).
    + destruct t'; try (inversion H; subst; reflexivity);
        (destruct (parseMembers (parseValue f) f _) as [[kvs r']|] eqn:E; [|discriminate];
         inversion H; subst; cbn [holeFree];
         apply fold_objSet_holeFree; [reflexivity|];
         exact (parseMembers_holeFree _ _ IH _ _ _ E)).
  - destruct ts as [|t' ts'].
    + destruct (parseElements (parseValue f) f []) as [[vs r']|] eqn:E; [|discriminate].
      inversion H; subst. cbn [holeFree].
      exact (parseElements_holeFree _ _ IH _ _ _ E).
    + destruct t'; try (inversion H; subst; reflexivity);
        (destruct (parseElements (parseValue f) f _) as [[vs r']|] eqn:E; [|discriminate];
         inversion H; subst; cbn [holeFree];
         exact (parseElements_holeFree _ _ IH _ _ _ E)).
Qed.

(** [JSON.parse] returns no [undefined], at no depth. *)
Lemma JSON_parse_holeFree text v : JSON_parse text = Some v -> holeFree v = true.
Proof.
  unfold JSON_parse.
  destruct (lex _ text) as [ts|]; [|discriminate].
  destruct (parseValue _ ts) as [[v' r]|] eqn:E; [|discriminate].
  destruct r; [|discriminate]. intros [= <-].
  eapply parseValue_holeFree; eauto.
Qed.

Lemma ownProp_holeFree v k c :
  holeFree v = true -> ownProp v k = Some c -> holeFree c = true.
Proof.
  destruct v as [| |b|n|s|l|m]; simpl; try discriminate; intros Hh.
  - destruct (arrayIndex k); [|discriminate]. intros H.
    apply nth_error_In in H. rewrite forallb_forall in Hh. now apply Hh.
  - intros H. destruct (lookup_In _ _ _ H) as [k' Hin].
    rewrite forallb_forall in Hh. exact (Hh _ Hin).
Qed.

Lemma readPath_holeFree Q : forall d w,
  holeFree d = true -> validPath d Q = true -> readPath d Q = Some w ->
  holeFree w = true.
Proof.
  induction Q as [|seg rest IH]; intros d w Hh Hv Hr.
  - simpl in Hr. congruence.
  - rewrite validPath_cons in Hv. cbn [readPath] in Hr.
    destruct (ownProp d (propertyKey seg)) as [c|] eqn:Eo; [|discriminate].
    rewrite (ownProp_getProp _ _ _ Eo) in Hr.
    exact (IH _ _ (ownProp_holeFree _ _ _ Hh Eo) Hv Hr).
Qed.

Lemma holeFree_defined v : holeFree v = true -> v <> VUndef.
Proof. destruct v; simpl; congruence. Qed.

(** The text a save hands to the json store. *)
Lemma save_text throws st nd raw jsonState d v d' text :
  JSON_parse jsonState = Some d -> newValueOf nd raw = Ok v ->
  applyAtPath d (pathOf nd) v = Some d' -> JSON_stringify d' = Some text ->
  savedText (applyEditToJson throws (Some nd) jsonState st raw) = Some text.
Proof.
  intros Hd Hnew Happ Hs. unfold applyEditToJson. rewrite Hd, Hnew.
  fold (pathOf nd). rewrite Happ, Hs.
  destruct (tryCalls_head throws (SetJson (Some text))
              [SetContents (Some text) true; SetGraph (Some text);
               SetSelectedNode_null]) as (made & threw & ->).
  destruct threw; reflexivity.
Qed.

(** X5. A save at a path that addresses existing data changes the
    document at that path and below it only: every other existing place
    [Q] of the document, one that leaves the path at some segment, reads
    in the saved text what it read before, in the form its JSON text
    denotes. *)
Theorem save_keeps_the_rest (throws : call -> bool) (st : modal) (nd : NodeData)
  (raw jsonState : jsstring) (d v w : jsvalue) (Q : list segment) :
  JSON_parse jsonState = Some d ->
  validPath d (pathOf nd) = true ->
  newValueOf nd raw = Ok v ->
  offPath (pathOf nd) Q = true ->
  validPath d Q = true ->
  readPath d Q = Some w ->
  exists text d',
    savedText (applyEditToJson throws (Some nd) jsonState st raw) = Some text /\
    JSON_parse text = Some d' /\
    readPath d' Q = Some (jsonify w).
Proof.
  intros Hd Hvalid Hnew Hoff HvQ HrQ.
  pose proof (JSON_parse_wf _ _ Hd) as Hwd.
  pose proof (newValueOf_wf _ _ _ Hnew) as Hwv.
  pose proof (newValueOf_defined _ _ _ Hnew) as Hu.
  destruct (applyAtPath_valid d (pathOf nd) v Hvalid Hwd Hwv Hu)
    as (d1 & Happ & Hwd1 & _ & _ & Hu1).
  destruct (JSON_parse_stringify d1 Hwd1 Hu1) as (text & Hs & Hp).
  exists text, (jsonify d1).
  split; [exact (save_text throws st nd raw jsonState d v d1 text Hd Hnew Happ Hs)|].
  split; [exact Hp|].
  destruct (pathOf nd) as [|seg rest] eqn:EP; [discriminate|].
  cbn [applyAtPath] in Happ.
  destruct (assignAt_frame _ _ _ _ _ _ Hvalid Happ Hoff) as [Hr Hv'].
  apply readPath_jsonify.
  - now rewrite Hv'.
  - now rewrite Hr.
  - apply holeFree_defined.
    exact (readPath_holeFree _ _ _ (JSON_parse_holeFree _ _ Hd) HvQ HrQ).
Qed.

Lemma save_keeps_the_rest_witness :
  exists text d',
    savedText (applyEditToJson (fun _ => false) (Some limitLeaf)
                 (jtext "{'limits': [10, 20], 'name': 'Ann'}")
                 (editingState (str "5")) (str "5")) = Some text /\
    JSON_parse text = Some d' /\
    readPath d' [SegKey (str "limits"); SegIdx 1]
      = Some (jsonify (VNum (Fin false 2 1))).
Proof.
  apply (save_keeps_the_rest (fun _ => false) (editingState (str "5")) limitLeaf
           (str "5") (jtext "{'limits': [10, 20], 'name': 'Ann'}")
           (VObj [(str "limits", VArr [VNum (Fin false 1 1); VNum (Fin false 2 1)]);
                  (str "name", VStr (str "Ann"))])
           (VNum (Fin false 5 0)) (VNum (Fin false 2 1))
           [SegKey (str "limits"); SegIdx 1]); reflexivity.
Defined.

(** ** The value at the path after a save, and a path through [null] *)

(** The round trip of a save at a valid path, for every value: the text
    handed over, parsed again and walked along the path, gives the value
    in the form its JSON text denotes. *)
Lemma round_trip_jsonify (throws : call -> bool) (st : modal) (nd : NodeData)
  (raw jsonState : jsstring) (d v : jsvalue) :
  JSON_parse jsonState = Some d ->
  validPath d (pathOf nd) = true ->
  newValueOf nd raw = Ok v ->
  roundTrip throws st nd raw jsonState (jsonify v).
Proof.
  intros Hd Hvalid Hnew.
  pose proof (JSON_parse_wf _ _ Hd) as Hwd.
  pose proof (newValueOf_wf _ _ _ Hnew) as Hwv.
  pose proof (newValueOf_defined _ _ _ Hnew) as Hu.
  destruct (applyAtPath_valid d (pathOf nd) v Hvalid Hwd Hwv Hu)
    as (d' & Happ & Hwd' & Hread & Hvalid' & Hu').
  destruct (JSON_parse_stringify d' Hwd' Hu') as (text & Hs & Hp).
  exists text, (jsonify d').
  split; [exact (save_text throws st nd raw jsonState d v d' text Hd Hnew Happ Hs)|].
  split; [exact Hp|]. exact (readPath_jsonify _ _ _ Hvalid' Hread Hu).
Qed.

(** X6. After a save at a path that addresses existing data, the saved
    text, parsed again, holds at the path the accepted value in the form
    JSON carries it, whatever the value is: an infinity typed into a
    number leaf is stored as [null], the negative zero as zero, every
    other value as it is. *)
Theorem save_stores_json_form (throws : call -> bool) (st : modal) (nd : NodeData)
  (raw jsonState : jsstring) (d v : jsvalue) :
  JSON_parse jsonState = Some d ->
  validPath d (pathOf nd) = true ->
  newValueOf nd raw = Ok v ->
  roundTrip throws st nd raw jsonState (jsonify v).
Proof.
  intros Hd Hvalid Hnew.
  destruct (applyAtPath_valid d (pathOf nd) v Hvalid (JSON_parse_wf _ _ Hd)
              (newValueOf_wf _ _ _ Hnew) (newValueOf_defined _ _ _ Hnew))
    as (d' & Happ & Hwd' & Hread & Hvalid' & Hu').
  destruct (JSON_parse_stringify d' Hwd' Hu') as (text & Hs & Hp).
  exists text, (jsonify d'). split; [|split].
  - exact (save_text throws st nd raw jsonState d v d' text Hd Hnew Happ Hs).
  - exact Hp.
  - exact (readPath_jsonify _ _ _ Hvalid' Hread (newValueOf_defined _ _ _ Hnew)).
Qed.

Lemma save_stores_json_form_witness :
  roundTrip (fun _ => false) (editingState (str "-Infinity")) limitLeaf
    (str "-Infinity") (jtext "{'limits': [10, 20]}") VNull.
Proof.
  apply (save_stores_json_form (fun _ => false) (editingState (str "-Infinity"))
           limitLeaf (str "-Infinity") (jtext "{'limits': [10, 20]}")
           (VObj [(str "limits", VArr [VNum (Fin false 1 1); VNum (Fin false 2 1)])])
           (VNum (Inf true))); reflexivity.
Defined.

Lemma applyAtPath_through_null pre : forall d seg rest v,
  readPath d pre = Some VNull -> applyAtPath d (pre ++ seg :: rest) v = None.
Proof.
  induction pre as [|s pre IH]; intros d seg rest v Hr.
  - simpl in Hr. inversion Hr; subst. apply assignAt_null.
  - cbn [readPath] in Hr.
    destruct (getProp d (propertyKey s)) as [c|] eqn:Eg; [|discriminate].
    specialize (IH c seg rest v Hr).
    cbn [app applyAtPath].
    destruct (pre ++ seg :: rest) as [|next rest'] eqn:E;
      [destruct pre; discriminate|].
    cbn [assignAt]. rewrite Eg.
    destruct c; cbn [isUndefined];
      try (cbn [applyAtPath] in IH; now rewrite IH).
    destruct pre; simpl in Hr; [discriminate|]. discriminate.
Qed.

(** X7. When the path of the selection runs through a [null] of the
    document, at any depth, the save ends in the TypeError of the walk:
    no error is set, no store is called, the modal stays as it was. *)
Theorem save_through_null (throws : call -> bool) (st : modal) (nd : NodeData)
  (raw jsonState : jsstring) (d v : jsvalue) (pre rest : list segment)
  (seg : segment) :
  JSON_parse jsonState = Some d ->
  newValueOf nd raw = Ok v ->
  path nd = Some (pre ++ seg :: rest) ->
  readPath d pre = Some VNull ->
  applyEditToJson throws (Some nd) jsonState st raw = Uncaught [].
Proof.
  intros Hd Hnew Hp Hr. unfold applyEditToJson. rewrite Hd, Hnew, Hp.
  now rewrite (applyAtPath_through_null pre d seg rest v Hr).
Qed.

Lemma save_through_null_witness :
  applyEditToJson (fun _ => false)
    (Some (stringLeaf [SegKey (str "customer"); SegKey (str "name")]))
    (jtext "{'customer': null}") (editingState (str "Ann")) (str "Ann")
  = Uncaught [].
Proof.
  apply (save_through_null (fun _ => false) (editingState (str "Ann"))
           (stringLeaf [SegKey (str "customer"); SegKey (str "name")])
           (str "Ann") (jtext "{'customer': null}")
           (VObj [(str "customer", VNull)]) (VStr (str "Ann"))
           [SegKey (str "customer")] [] (SegKey (str "name")));
    reflexivity.
Defined.

(** ** [Number] reads back what [String] prints *)

Lemma decimalLiteral_eq s :
  decimalLiteral s =
    let (int, r1) := spanDigits s in
    let '(frac, r2) :=
      match r1 with
      | c :: t => if c =? 46 then spanDigits t else ([], r1)
      | [] => ([], r1)
      end in
    match int, frac with
    | [], [] => None
    | _, _ =>
        match exponentOpt r2 with
        | Some (x, []) =>
            Some (of_digits (int ++ frac), (x - Z.of_nat (List.length frac))%Z)
        | _ => None
        end
    end.
Proof.
  unfold decimalLiteral. destruct (spanDigits s) as [int r1].
  destruct r1 as [|c t]; [reflexivity|].
  destruct c as [|p]; [reflexivity|].
  do 6 (try destruct p as [p|p|]); reflexivity.
Qed.

Lemma ofString_eq raw :
  ofString raw =
    match trim raw with
    | [] => Fin false 0 0
    | c :: t =>
        match nonDecimalLiteral (c :: t) with
        | Some n => binary64 false n 0
        | None =>
            let '(neg, body) :=
              if c =? 45 then (true, t)
              else if c =? 43 then (false, t)
              else (false, c :: t) in
            if JsString.eqb body (str "Infinity") then Inf neg
            else
              match decimalLiteral body with
              | Some (m, e) => binary64 neg m e
              | None => NaN
              end
        end
    end.
Proof.
  unfold ofString. destruct (trim raw) as [|c t]; [reflexivity|].
  destruct (nonDecimalLiteral (c :: t)); [reflexivity|].
  destruct c as [|p]; [reflexivity|].
  do 6 (try destruct p as [p|p|]); reflexivity.
Qed.

Lemma nonDecimalLiteral_eq s :
  nonDecimalLiteral s =
    match s with
    | c :: p :: d :: ds =>
        if c =? 48 then
          if (p =? 120) || (p =? 88) then radixDigits 16 (d :: ds) 0
          else if (p =? 111) || (p =? 79) then radixDigits 8 (d :: ds) 0
          else if (p =? 98) || (p =? 66) then radixDigits 2 (d :: ds) 0
          else None
        else None
    | _ => None
    end.
Proof.
  destruct s as [|c [|p [|d ds]]];
    try (destruct c as [|q]; [reflexivity|];
         do 6 (try destruct q as [q|q|]); reflexivity).
  reflexivity.
Qed.

Lemma isNumeralChar_cases c :
  isNumeralChar c = true ->
  48 <= c <= 57 \/ c = 45 \/ c = 46 \/ c = 101 \/ c = 43.
Proof.
  unfold isNumeralChar, isDigit.
  rewrite !orb_true_iff, andb_true_iff, !N.eqb_eq, !N.leb_le. tauto.
Qed.

Lemma numeral_not_space c : isNumeralChar c = true -> isWhiteSpace c = false.
Proof.
  intros H. apply isNumeralChar_cases in H. unfold isWhiteSpace.
  repeat (apply orb_false_intro);
    try (apply N.eqb_neq; lia).
  apply andb_false_iff. left. apply N.leb_gt. lia.
Qed.

Lemma trimStart_id s :
  Forall (fun c => isWhiteSpace c = false) s -> trimStart s = s.
Proof. intros [|c t Hc _]; simpl; [reflexivity | now rewrite Hc]. Qed.

Lemma trim_id s : Forall (fun c => isWhiteSpace c = false) s -> trim s = s.
Proof.
  intros H. unfold trim, trimEnd. rewrite (trimStart_id s H).
  rewrite trimStart_id; [apply rev_involutive|].
  apply Forall_forall. intros c Hc. apply in_rev in Hc.
  rewrite Forall_forall in H. now apply H.
Qed.

Lemma numeral_chars ds :
  Forall (fun d => d < 10) ds -> Forall (fun c => isNumeralChar c = true) (chars ds).
Proof.
  intros H. unfold chars. apply Forall_map.
  eapply Forall_impl; [|exact H]. intros d Hd. simpl in Hd.
  unfold isNumeralChar, isDigit, digitChar.
  replace (48 <=? 48 + d) with true by (symmetry; apply N.leb_le; lia).
  replace (48 + d <=? 57) with true by (symmetry; apply N.leb_le; lia).
  reflexivity.
Qed.

Lemma Forall_lt10_firstn (ds : list N) n :
  Forall (fun d => d < 10) ds -> Forall (fun d => d < 10) (firstn n ds).
Proof.
  intros H. rewrite <- (firstn_skipn n ds) in H. now apply Forall_app in H.
Qed.

Lemma Forall_lt10_skipn (ds : list N) n :
  Forall (fun d => d < 10) ds -> Forall (fun d => d < 10) (skipn n ds).
Proof.
  intros H. rewrite <- (firstn_skipn n ds) in H. now apply Forall_app in H.
Qed.

Lemma numeral_exponentPart n :
  Forall (fun c => isNumeralChar c = true) (exponentPart n).
Proof.
  unfold exponentPart. constructor; [reflexivity|].
  constructor; [destruct (n - 1 <? 0)%Z; reflexivity|].
  destruct (decimal_digits (Z.abs_N (n - 1))) as (ds & -> & _ & Hlt & _).
  now apply numeral_chars.
Qed.

(** The numeral [Number::toString] prints is made of digits, a sign, a
    point and the letter of the exponent. *)
Lemma numeral_toString_pos m e :
  Forall (fun c => isNumeralChar c = true) (toString_pos m e).
Proof.
  pose proof (digits_lt10 m) as Hlt. unfold toString_pos.
  set (s := digits m) in *. set (k := Z.of_nat (List.length s)).
  set (n := (e + k)%Z).
  destruct ((k <=? n)%Z && (n <=? 21)%Z).
  - apply Forall_app. split; [now apply numeral_chars|].
    rewrite zeros_chars. apply numeral_chars, Forall_lt10_zeros.
  - destruct ((0 <? n)%Z && (n <=? 21)%Z).
    + apply Forall_app. split; [apply numeral_chars, Forall_lt10_firstn, Hlt|].
      constructor; [reflexivity|]. apply numeral_chars, Forall_lt10_skipn, Hlt.
    + destruct ((-6 <? n)%Z && (n <=? 0)%Z).
      * constructor; [reflexivity|]. constructor; [reflexivity|].
        apply Forall_app. split; [|now apply numeral_chars].
        rewrite zeros_chars. apply numeral_chars, Forall_lt10_zeros.
      * destruct s as [|d [|d' ds]]; [constructor| |].
        -- pose proof (numeral_chars _ Hlt) as H. inversion H; subst.
           constructor; [assumption | apply numeral_exponentPart].
        -- pose proof (numeral_chars _ Hlt) as H. inversion H; subst.
           constructor; [assumption|]. constructor; [reflexivity|].
           apply Forall_app. split; [assumption | apply numeral_exponentPart].
Qed.

Lemma nonDecimalLiteral_numeral s :
  Forall (fun c => isNumeralChar c = true) s -> nonDecimalLiteral s = None.
Proof.
  intros H. rewrite nonDecimalLiteral_eq.
  destruct s as [|c [|p [|d ds]]]; try reflexivity.
  inversion H as [|? ? _ H']; subst. inversion H' as [|? ? Hp _]; subst.
  apply isNumeralChar_cases in Hp.
  destruct (c =? 48); [|reflexivity].
  replace (p =? 120) with false by (symmetry; apply N.eqb_neq; lia).
  replace (p =? 88) with false by (symmetry; apply N.eqb_neq; lia).
  replace (p =? 111) with false by (symmetry; apply N.eqb_neq; lia).
  replace (p =? 79) with false by (symmetry; apply N.eqb_neq; lia).
  replace (p =? 98) with false by (symmetry; apply N.eqb_neq; lia).
  replace (p =? 66) with false by (symmetry; apply N.eqb_neq; lia).
  reflexivity.
Qed.

(** The decimal of a number token that spans the whole text is that of
    a literal of [Number]. *)
Lemma decimalLiteral_lexDecimal s m e :
  lexDecimal s = Some (m, e, []) -> decimalLiteral s = Some (m, e).
Proof.
  rewrite decimalLiteral_eq. unfold lexDecimal, lexFraction.
  destruct (spanDigits s) as [int r1].
  destruct int as [|d ds]; [discriminate|].
  destruct ((d =? 0) && negb (List.length ds =? 0)%nat); [discriminate|].
  destruct r1 as [|c t].
  - destruct (exponentOpt []) as [[x r3]|]; [|discriminate].
    now intros [= <- <- ->].
  - destruct (c =? 46).
    + destruct (spanDigits t) as [fr r]. destruct fr as [|f fr]; [discriminate|].
      destruct (exponentOpt r) as [[x r3]|]; [|discriminate].
      now intros [= <- <- ->].
    + destruct (exponentOpt (c :: t)) as [[x r3]|]; [|discriminate].
      now intros [= <- <- ->].
Qed.

(** The literal of [Number] that the numeral of a positive canonical
    number is. *)
Lemma decimalLiteral_toString_pos m e :
  m <> 0 -> m mod 10 <> 0 ->
  exists a b, decimalLiteral (toString_pos m e) = Some (a, b) /\
              normalize a b = (m, e).
Proof.
  intros Hm Hd.
  destruct (lexDecimal_toString_pos m e [] Hm Hd I) as (a & b & H & Hn).
  rewrite app_nil_r in H. exists a, b. split; [|exact Hn].
  now apply decimalLiteral_lexDecimal.
Qed.

Lemma eqb_Infinity_digit c t :
  isDigit c = true -> JsString.eqb (c :: t) (str "Infinity") = false.
Proof.
  intros H. unfold isDigit in H. apply andb_true_iff in H as [_ H].
  apply N.leb_le in H.
  change (str "Infinity") with (73 :: str "nfinity"). cbn [JsString.eqb].
  replace (c =? 73) with false by (symmetry; apply N.eqb_neq; lia). reflexivity.
Qed.

Lemma ofString_toString_pos (neg : bool) m e :
  m <> 0 -> m mod 10 <> 0 ->
  ofString ((if neg then [45] else []) ++ toString_pos m e) = binary64 neg m e.
Proof.
  intros Hm Hd.
  pose proof (numeral_toString_pos m e) as Hnum.
  destruct (decimalLiteral_toString_pos m e Hm Hd) as (m' & e' & Hdec & Hn).
  pose proof (binary64_normalize neg m' e' m e Hn) as Hfin.
  destruct (toString_pos_head m e Hm Hd) as (c & t & Hs & Hc).
  assert (Hall : Forall (fun c => isNumeralChar c = true)
                   ((if neg then [45] else []) ++ toString_pos m e)).
  { apply Forall_app. split; [|exact Hnum].
    destruct neg; [constructor; [reflexivity | constructor] | constructor]. }
  rewrite ofString_eq. rewrite trim_id
    by (eapply Forall_impl; [|exact Hall]; intros a; apply numeral_not_space).
  pose proof (nonDecimalLiteral_numeral _ Hall) as Hnd.
  destruct neg; cbn [app] in *.
  - rewrite Hnd. change (45 =? 45) with true. cbv iota beta. rewrite Hs at 1.
    rewrite (eqb_Infinity_digit _ _ Hc). now rewrite Hdec.
  - rewrite Hs in *. rewrite Hnd.
    assert (H45 : (c =? 45) = false).
    { unfold isDigit in Hc. apply andb_true_iff in Hc as [Hc _].
      apply N.leb_le in Hc. apply N.eqb_neq. lia. }
    assert (H43 : (c =? 43) = false).
    { unfold isDigit in Hc. apply andb_true_iff in Hc as [Hc _].
      apply N.leb_le in Hc. apply N.eqb_neq. lia. }
    rewrite H45, H43. rewrite (eqb_Infinity_digit _ _ Hc). now rewrite Hdec.
Qed.

(** [Number (String (n))] is [n], for every number but NaN and the
    negative zero. *)
Lemma ofString_toString n :
  (plainNumber n /\ isDouble n) \/ (exists neg, n = Inf neg) ->
  ofString (toString n) = n.
Proof.
  intros [[H Hx]|[neg ->]].
  - destruct n as [|neg|neg m e]; try contradiction. destruct H as [H0 H1].
    change (binary64 neg m e = Fin neg m e) in Hx.
    unfold toString. destruct (N.eqb_spec m 0) as [->|Hm].
    + destruct (H0 eq_refl) as [-> ->]. reflexivity.
    + rewrite <- Hx. apply ofString_toString_pos; [exact Hm | exact (H1 Hm)].
  - destruct neg; reflexivity.
Qed.

(** ** Edit, then Save with the text as it was put *)

Lemma addRow_wf acc row :
  wf (VObj (fst acc)) -> rowCanonical row -> wf (VObj (fst (addRow acc row))).
Proof.
  intros Hw Hc. unfold addRow.
  destruct (negb (isContainerType (type row))); [|exact Hw].
  destruct (hasKey row); [|exact Hw].
  unfold assignRow. destruct acc as [own proto]. cbn [fst] in Hw.
  destruct (proto && JsString.eqb (keyOf row) (str "__proto__")).
  - destruct (value row); exact Hw.
  - cbn [fst].
    apply (setProp_wf (VObj own) (keyOf row) (ofScalar (value row))); auto.
    unfold rowCanonical in Hc. destruct (value row); constructor; apply Hc.
Qed.

Lemma rowsObject_wf rows : Forall rowCanonical rows -> wf (VObj (rowsObject rows)).
Proof.
  unfold rowsObject. intros H.
  assert (G : forall acc, wf (VObj (fst acc)) ->
                          wf (VObj (fst (fold_left addRow rows acc)))).
  { induction H as [|row rows Hr _ IH]; intros acc Hacc; simpl; [exact Hacc|].
    apply IH. now apply addRow_wf. }
  apply G. constructor; [exact I | constructor].
Qed.

Lemma jsonify_idempotent v : wf v -> v <> VUndef -> jsonify (jsonify v) = jsonify v.
Proof.
  intros Hw Hu.
  destruct (JSON_parse_stringify v Hw Hu) as (text & Hs & Hp).
  destruct (JSON_parse_stringify (jsonify v) (JSON_parse_wf _ _ Hp)
              (JSON_parse_defined _ _ Hp)) as (text' & Hs' & Hp').
  unfold JSON_stringify in *. rewrite serialize_jsonify in Hs'. congruence.
Qed.

(** The text [normalizeNodeData] makes of a composite row set is a JSON
    text, the one of the mapping of its rows. *)
Lemma normalizeNodeData_parses rows :
  isComposite rows = true -> Forall rowCanonical rows ->
  JSON_parse (normalizeNodeData rows) = Some (jsonify (VObj (rowsObject rows))).
Proof.
  intros Hc Hrows.
  destruct (JSON_parse_stringify (VObj (rowsObject rows)) (rowsObject_wf rows Hrows))
    as (text & Hs & Hp); [discriminate|].
  assert (E : stringifyObject (rowsObject rows) = text)
    by (unfold stringifyObject; now rewrite Hs).
  destruct rows as [|row [|row' rows']].
  - reflexivity.
  - simpl in Hc. unfold normalizeNodeData. rewrite Hc. cbn [negb].
    now rewrite E.
  - unfold normalizeNodeData. now rewrite E.
Qed.

Lemma leafRow_none_composite nd : leafRow nd = None -> isComposite (text nd) = true.
Proof.
  unfold leafRow, isComposite. destruct (text nd) as [|row [|row' rows]]; auto.
  destruct (hasKey row); [reflexivity | discriminate].
Qed.

(** X8. Edit, then Save with the text left as Edit put it, on a
    composite selection at a path that addresses existing data: the
    save is accepted, and the saved document holds at the path the
    mapping [normalizeNodeData] builds from the rows, the one of the
    rows that have a key and a type other than object or array, nothing
    else. The nested objects and arrays the place held are not in the
    seed and so are not in the saved value. *)
Theorem edit_save_composite (throws : call -> bool) (st : modal) (nd : NodeData)
  (jsonState : jsstring) (d : jsvalue) :
  JSON_parse jsonState = Some d ->
  validPath d (pathOf nd) = true ->
  leafRow nd = None ->
  Forall rowCanonical (text nd) ->
  let st1 := handleEdit (Some nd) st in
  newValueOf nd (edited st1) = Ok (jsonify (VObj (rowsObject (text nd)))) /\
  exists saved d',
    savedText (handleSave throws (Some nd) jsonState st1) = Some saved /\
    JSON_parse saved = Some d' /\
    readPath d' (pathOf nd) = Some (jsonify (VObj (rowsObject (text nd)))).
Proof.
  intros Hd Hvalid Hleaf Hrows st1.
  assert (Hnew : newValueOf nd (edited st1)
                 = Ok (jsonify (VObj (rowsObject (text nd))))).
  { unfold newValueOf. rewrite Hleaf. unfold st1, handleEdit. cbn [edited].
    now rewrite (normalizeNodeData_parses _ (leafRow_none_composite _ Hleaf) Hrows). }
  split; [exact Hnew|].
  rewrite <- (jsonify_idempotent (VObj (rowsObject (text nd)))
                (rowsObject_wf _ Hrows)) by discriminate.
  exact (round_trip_jsonify throws st1 nd (edited st1) jsonState d _ Hd Hvalid Hnew).
Qed.

(** X9. Edit, then Save with the text left as Edit put it, on a leaf
    whose type is the type of its value (a string, a number a JSON
    document can hold, a boolean or null): the coercion gives the value
    back, and at a path that addresses existing data the saved document
    holds that value at the path. *)
Theorem edit_save_leaf (throws : call -> bool) (st : modal) (nd : NodeData)
  (row : NodeRow) (jsonState : jsstring) (d : jsvalue) :
  JSON_parse jsonState = Some d ->
  validPath d (pathOf nd) = true ->
  leafRow nd = Some row ->
  rowTyped row ->
  let st1 := handleEdit (Some nd) st in
  newValueOf nd (edited st1) = Ok (ofScalar (value row)) /\
  exists saved d',
    savedText (handleSave throws (Some nd) jsonState st1) = Some saved /\
    JSON_parse saved = Some d' /\
    readPath d' (pathOf nd) = Some (ofScalar (value row)).
Proof.
  intros Hd Hvalid Hleaf Htyped st1.
  assert (Htext : text nd = [row] /\ hasKey row = false).
  { unfold leafRow in Hleaf. destruct (text nd) as [|r [|r' rows]]; try discriminate.
    destruct (hasKey r) eqn:E; [discriminate|]. inversion Hleaf; subst. auto. }
  destruct Htext as [Htext Hkey].
  assert (Hseed : edited st1 = ToString (value row)).
  { unfold st1, handleEdit. cbn [edited]. rewrite Htext.
    unfold normalizeNodeData. now rewrite Hkey. }
  assert (Hnew : newValueOf nd (edited st1) = Ok (ofScalar (value row))).
  { unfold newValueOf. rewrite Hleaf, Hseed. unfold rowTyped in Htyped.
    destruct (value row) as [x|n|b|]; destruct (type row); try contradiction.
    - reflexivity.
    - unfold coerceLeaf, ToString. rewrite (ofString_toString n (or_introl Htyped)).
      destruct Htyped as [Hp _].
      destruct n; [contradiction| contradiction |reflexivity].
    - destruct b; reflexivity.
    - reflexivity. }
  split; [exact Hnew|].
  assert (Hj : jsonify (ofScalar (value row)) = ofScalar (value row)).
  { unfold rowTyped in Htyped.
    destruct (value row) as [x|n|b|]; try reflexivity.
    destruct (type row); try contradiction. destruct Htyped as [Htyped _].
    destruct n as [|neg|neg m e]; try contradiction. simpl.
    destruct Htyped as [H0 _]. destruct (N.eqb_spec m 0) as [->|Hm]; [|reflexivity].
    destruct (H0 eq_refl) as [-> ->]. reflexivity. }
  rewrite <- Hj.
  exact (round_trip_jsonify throws st1 nd (edited st1) jsonState d _ Hd Hvalid Hnew).
Qed.

Lemma edit_save_composite_witness :
  let nd := {| text := [ {| key := Some (str "name"); value := SStr (str "Ann");
                            type := TString |};
                         {| key := Some (str "orders"); value := SNull;
                            type := TArray |} ];
               path := Some [SegKey (str "customer")] |} in
  let st1 := handleEdit (Some nd) closed in
  newValueOf nd (edited st1) = Ok (VObj [(str "name", VStr (str "Ann"))]) /\
  exists saved d',
    savedText (handleSave (fun _ => false) (Some nd)
                 (jtext "{'customer': {'name': 'Ann', 'orders': [1, 2]}}") st1)
      = Some saved /\
    JSON_parse saved = Some d' /\
    readPath d' (pathOf nd) = Some (VObj [(str "name", VStr (str "Ann"))]).
Proof.
  intros nd.
  apply (edit_save_composite (fun _ => false) closed nd
           (jtext "{'customer': {'name': 'Ann', 'orders': [1, 2]}}")
           (VObj [(str "customer",
                   VObj [(str "name", VStr (str "Ann"));
                         (str "orders", VArr [VNum (Fin false 1 0);
                                              VNum (Fin false 2 0)])])])).
  - reflexivity.
  - reflexivity.
  - reflexivity.
  - repeat constructor.
Defined.

Lemma edit_save_leaf_witness :
  let st1 := handleEdit (Some limitLeaf) closed in
  newValueOf limitLeaf (edited st1) = Ok (VNum (Fin false 1 1)) /\
  exists saved d',
    savedText (handleSave (fun _ => false) (Some limitLeaf)
                 (jtext "{'limits': [10, 20]}") st1) = Some saved /\
    JSON_parse saved = Some d' /\
    readPath d' (pathOf limitLeaf) = Some (VNum (Fin false 1 1)).
Proof.
  apply (edit_save_leaf (fun _ => false) closed limitLeaf
           {| key := None; value := SNum (Fin false 1 1); type := TNumber |}
           (jtext "{'limits': [10, 20]}")
           (VObj [(str "limits", VArr [VNum (Fin false 1 1); VNum (Fin false 2 1)])])).
  - reflexivity.
  - reflexivity.
  - reflexivity.
  - split; [split; [intros H; discriminate | intros _; discriminate]|].
    reflexivity.
Defined.

Lemma trimStart_blank s :
  (forall c, In c s -> isWhiteSpace c = true) -> trimStart s = [].
Proof.
  induction s as [|c s IH]; intros H; simpl; [reflexivity|].
  rewrite (H c (or_introl eq_refl)). apply IH. intros x Hx. apply H. now right.
Qed.

(** X10. On a number leaf an edited text that is empty, or made of
    white space only, is not refused: it is the number zero, and a save
    at a path that addresses existing data stores 0 there. *)
Theorem save_blank_number (throws : call -> bool) (st : modal) (nd : NodeData)
  (row : NodeRow) (raw jsonState : jsstring) (d : jsvalue) :
  leafRow nd = Some row ->
  type row = TNumber ->
  (forall c, In c raw -> isWhiteSpace c = true) ->
  JSON_parse jsonState = Some d ->
  validPath d (pathOf nd) = true ->
  newValueOf nd raw = Ok (VNum (Fin false 0 0)) /\
  roundTrip throws st nd raw jsonState (VNum (Fin false 0 0)).
Proof.
  intros Hleaf Hty Hblank Hd Hvalid.
  assert (Hnew : newValueOf nd raw = Ok (VNum (Fin false 0 0))).
  { unfold newValueOf. rewrite Hleaf, Hty. unfold coerceLeaf, ofString, trim.
    rewrite (trimStart_blank raw Hblank). reflexivity. }
  split; [exact Hnew|].
  exact (round_trip_jsonify throws st nd raw jsonState d _ Hd Hvalid Hnew).
Qed.

Lemma save_blank_number_witness :
  newValueOf limitLeaf (str "  ") = Ok (VNum (Fin false 0 0)) /\
  roundTrip (fun _ => false) (editingState (str "  ")) limitLeaf (str "  ")
    (jtext "{'limits': [10, 20]}") (VNum (Fin false 0 0)).
Proof.
  apply (save_blank_number (fun _ => false) (editingState (str "  ")) limitLeaf
           {| key := None; value := SNum (Fin false 1 1); type := TNumber |}
           (str "  ") (jtext "{'limits': [10, 20]}")
           (VObj [(str "limits", VArr [VNum (Fin false 1 1); VNum (Fin false 2 1)])])).
  - reflexivity.
  - reflexivity.
  - intros c Hc. simpl in Hc. destruct Hc as [<-|[<-|[]]]; reflexivity.
  - reflexivity.
  - reflexivity.
Defined.

(** X11. The mapping [normalizeNodeData] builds from the rows holds,
    under a key other than [__proto__], the value of the last row that
    has this key and a type other than object or array, and nothing
    under a key no such row has: of two rows with one key the later
    wins. *)
Theorem rowsObject_lookup (rows : list NodeRow) (k : jsstring) :
  k <> str "__proto__" ->
  lookup (rowsObject rows) k =
    match find (fun row => negb (isContainerType (type row)) && hasKey row
                           && JsString.eqb (keyOf row) k) (rev rows) with
    | Some row => Some (ofScalar (value row))
    | None => None
    end.
Proof.
  intros Hk. unfold rowsObject.
  assert (G : forall acc,
            lookup (fst (fold_left addRow rows acc)) k =
              match find (fun row => negb (isContainerType (type row)) && hasKey row
                                     && JsString.eqb (keyOf row) k) (rev rows) with
              | Some row => Some (ofScalar (value row))
              | None => lookup (fst acc) k
              end).
  { induction rows as [|r rows IH] using rev_ind; intros acc; [reflexivity|].
    rewrite fold_left_app, rev_app_distr. cbn [fold_left rev app find].
    unfold addRow at 1.
    destruct (negb (isContainerType (type r))); cbn [andb]; [|apply IH].
    destruct (hasKey r); cbn [andb]; [|apply IH].
    unfold assignRow. destruct (fold_left addRow rows acc) as [own proto] eqn:E.
    specialize (IH acc). rewrite E in IH. cbn [fst] in IH.
    destruct (JsString.eqb (keyOf r) k) eqn:Ek.
    - apply jsstring_eqb_eq in Ek. subst k.
      replace (JsString.eqb (keyOf r) (str "__proto__")) with false
        by (symmetry; now apply jsstring_eqb_neq).
      rewrite andb_false_r. cbn [fst]. apply lookup_objSet_same.
    - destruct (proto && JsString.eqb (keyOf r) (str "__proto__")).
      + destruct (value r); exact IH.
      + cbn [fst]. rewrite lookup_objSet_other by exact Ek. exact IH. }
  now rewrite G.
Qed.

Lemma rowsObject_lookup_witness :
  lookup (rowsObject
            [ {| key := Some (str "id"); value := SNum (Fin false 1 0);
                 type := TNumber |};
              {| key := Some (str "tags"); value := SNull; type := TArray |};
              {| key := Some (str "id"); value := SStr (str "a7");
                 type := TString |} ]) (str "id")
  = Some (VStr (str "a7")).
Proof.
  apply (rowsObject_lookup
           [ {| key := Some (str "id"); value := SNum (Fin false 1 0);
                type := TNumber |};
             {| key := Some (str "tags"); value := SNull; type := TArray |};
             {| key := Some (str "id"); value := SStr (str "a7");
                type := TString |} ] (str "id")).
  discriminate.
Defined.

(** ** The path shown in the modal *)

Lemma pathText_groups seg p :
  91 :: joinWith [93; 91] (List.map segmentText (seg :: p)) ++ [93]
    = concat (List.map bracketed (seg :: p)).
Proof.
  revert seg. induction p as [|seg' p IH]; intros seg.
  - simpl. unfold bracketed. now rewrite app_nil_r.
  - change (joinWith [93; 91] (List.map segmentText (seg :: seg' :: p)))
      with (segmentText seg ++ [93; 91]
              ++ joinWith [93; 91] (List.map segmentText (seg' :: p))).
    change (concat (List.map bracketed (seg :: seg' :: p)))
      with (bracketed seg ++ concat (List.map bracketed (seg' :: p))).
    rewrite <- IH. unfold bracketed. cbn [app]. f_equal.
    rewrite <- !app_assoc. reflexivity.
Qed.

Lemma jsonPathToString_groups p :
  jsonPathToString (Some p) = 36 :: concat (List.map bracketed p).
Proof.
  destruct p as [|seg p]; [reflexivity|].
  unfold jsonPathToString. now rewrite pathText_groups.
Qed.

(** X12. The path text is the root marker exactly for no path and for
    the empty path, and the text of a path that goes one segment further
    is the text of the path followed by that segment between brackets:
    the text of a place begins with the text of every place above it. *)
Theorem jsonPathToString_extends :
  (forall path, jsonPathToString path = str "$" <-> path = None \/ path = Some []) /\
  (forall p seg,
     jsonPathToString (Some (p ++ [seg]))
       = jsonPathToString (Some p) ++ bracketed seg) /\
  (forall p q,
     jsonPathToString (Some (p ++ q))
       = jsonPathToString (Some p) ++ concat (List.map bracketed q)).
Proof.
  assert (G : forall p q,
            jsonPathToString (Some (p ++ q))
              = jsonPathToString (Some p) ++ concat (List.map bracketed q)).
  { intros p q. rewrite !jsonPathToString_groups, map_app, concat_app. reflexivity. }
  split; [|split].
  - intros [[|seg p]|]; split; auto.
    + rewrite jsonPathToString_groups. cbn [List.map concat]. unfold bracketed.
      cbn [app]. discriminate.
    + intros [H|H]; discriminate.
  - intros p seg. rewrite G. cbn [List.map concat]. now rewrite app_nil_r.
  - exact G.
Qed.

Lemma split_first (c : N) a : forall b r r',
  ~ In c a -> ~ In c b -> a ++ c :: r = b ++ c :: r' -> a = b /\ r = r'.
Proof.
  induction a as [|x a IH]; intros [|y b] r r' Ha Hb H; simpl in *.
  - inversion H. auto.
  - inversion H; subst. tauto.
  - inversion H; subst. tauto.
  - inversion H; subst. destruct (IH b r r') as [-> ->]; auto.
Qed.

Lemma decimal_shape n :
  n <> 0 -> exists m j, n = m * 10 ^ N.of_nat j /\ m <> 0 /\ m mod 10 <> 0.
Proof.
  induction n as [|n Hn IH] using decimal_induction; [congruence|]. intros _.
  destruct (N.eq_dec (n mod 10) 0) as [E|E].
  - assert (Hq : n / 10 <> 0).
    { intros Hq. pose proof (N.div_mod n 10 ltac:(lia)) as D. rewrite Hq, E in D. lia. }
    destruct (IH Hq) as (m & j & Hm & Hm0 & Hm10).
    exists m, (S j). split; [|auto].
    pose proof (N.div_mod n 10 ltac:(lia)) as D. rewrite E, Hm in D.
    rewrite Nat2N.inj_succ, N.pow_succ_r'. lia.
  - exists n, O. simpl. split; [lia | auto].
Qed.

Lemma ofN_shape n :
  (n = 0 /\ ofN n = Fin false 0 0) \/
  (exists m j, n = m * 10 ^ N.of_nat j /\ m <> 0 /\ m mod 10 <> 0 /\
               ofN n = Fin false m (Z.of_nat j)).
Proof.
  destruct (N.eq_dec n 0) as [->|Hn]; [left; split; reflexivity|]. right.
  destruct (decimal_shape n Hn) as (m & j & -> & Hm & Hd).
  exists m, j. repeat split; auto. unfold ofN. now apply mkFin_pow.
Qed.

Lemma ofN_plain n : plainNumber (ofN n).
Proof.
  destruct (ofN_shape n) as [[_ ->]|(m & j & _ & Hm & Hd & ->)]; simpl.
  - split; [auto | congruence].
  - split; [contradiction | auto].
Qed.

Lemma ofN_inj n n' : ofN n = ofN n' -> n = n'.
Proof.
  destruct (ofN_shape n) as [[-> ->]|(m & j & -> & Hm & Hd & ->)];
    destruct (ofN_shape n') as [[-> ->]|(m' & j' & -> & Hm' & Hd' & ->)];
    intros H; inversion H; subst; try congruence.
  apply Nat2Z.inj in H2. now subst.
Qed.

Lemma toString_pos_inj m e m' e' :
  m <> 0 -> m mod 10 <> 0 -> m' <> 0 -> m' mod 10 <> 0 ->
  toString_pos m e = toString_pos m' e' -> m = m' /\ e = e'.
Proof.
  intros Hm Hd Hm' Hd' H.
  destruct (decimalLiteral_toString_pos m e Hm Hd) as (a & b & Hl & Hn).
  destruct (decimalLiteral_toString_pos m' e' Hm' Hd') as (a' & b' & Hl' & Hn').
  rewrite H, Hl' in Hl. injection Hl as <- <-.
  rewrite Hn' in Hn. now injection Hn as -> ->.
Qed.

Lemma toString_pos_not_zero m e :
  m <> 0 -> m mod 10 <> 0 -> toString_pos m e <> [48].
Proof.
  intros Hm Hd H.
  destruct (decimalLiteral_toString_pos m e Hm Hd) as (a & b & Hl & Hn).
  rewrite H in Hl. injection Hl as <- <-. injection Hn as <- _. congruence.
Qed.

Lemma toString_ofN_inj n n' : toString (ofN n) = toString (ofN n') -> n = n'.
Proof.
  destruct (ofN_shape n) as [[-> ->]|(m & j & -> & Hm & Hd & ->)];
    destruct (ofN_shape n') as [[-> ->]|(m' & j' & -> & Hm' & Hd' & ->)];
    [reflexivity | | |]; cbn [toString].
  - apply N.eqb_neq in Hm' as E. rewrite E. cbn [app N.eqb]. intros H.
    symmetry in H. now apply toString_pos_not_zero in H.
  - apply N.eqb_neq in Hm as E. rewrite E. cbn [app N.eqb]. intros H.
    now apply toString_pos_not_zero in H.
  - apply N.eqb_neq in Hm as E. apply N.eqb_neq in Hm' as E'. rewrite E, E'.
    cbn [app]. intros H.
    apply toString_pos_inj in H as [-> H]; auto.
    apply Nat2Z.inj in H. now subst.
Qed.

Lemma numeral_toString_ofN n :
  Forall (fun c => isNumeralChar c = true) (toString (ofN n)).
Proof.
  destruct (ofN n) as [|neg|neg m e] eqn:E.
  - pose proof (ofN_plain n) as H. rewrite E in H. contradiction.
  - pose proof (ofN_plain n) as H. rewrite E in H. contradiction.
  - unfold toString. destruct (m =? 0); [constructor; [reflexivity | constructor]|].
    apply Forall_app. split; [|apply numeral_toString_pos].
    destruct neg; [constructor; [reflexivity | constructor] | constructor].
Qed.

Lemma numeral_not_in c s :
  isNumeralChar c = false -> Forall (fun x => isNumeralChar x = true) s -> ~ In c s.
Proof.
  intros Hc Hs Hin. rewrite Forall_forall in Hs. apply Hs in Hin. congruence.
Qed.

Lemma groups_inj p : forall q,
  Forall quoteFree p -> Forall quoteFree q ->
  concat (List.map bracketed p) = concat (List.map bracketed q) -> p = q.
Proof.
  induction p as [|s p IH]; intros [|s' q] Hp Hq H.
  - reflexivity.
  - discriminate.
  - discriminate.
  - inversion Hp as [|? ? Hs Hp']; subst. inversion Hq as [|? ? Hs' Hq']; subst.
    cbn [List.map concat] in H. unfold bracketed in H.
    cbn [app] in H. rewrite <- !app_assoc in H. cbn [app] in H.
    inversion H as [H'].
    destruct s as [a|n], s' as [b|n']; cbn [segmentText quoteFree] in *.
    + cbn [app] in H'. inversion H' as [H2]. rewrite <- !app_assoc in H2.
      cbn [app] in H2.
      destruct (split_first 34 a b _ _ Hs Hs' H2) as [-> Hr].
      inversion Hr as [Hr']. f_equal. now apply IH.
    + exfalso. pose proof (numeral_toString_ofN n') as Hn.
      destruct (toString (ofN n')) as [|c t] eqn:E.
      * pose proof (toString_head (ofN n') (ofN_plain n')) as (c & t & Ec & _).
        congruence.
      * cbn [app] in H'. inversion H'; subst. inversion Hn; subst. discriminate.
    + exfalso. pose proof (numeral_toString_ofN n) as Hn.
      destruct (toString (ofN n)) as [|c t] eqn:E.
      * pose proof (toString_head (ofN n) (ofN_plain n)) as (c & t & Ec & _).
        congruence.
      * cbn [app] in H'. inversion H'; subst. inversion Hn; subst. discriminate.
    + destruct (split_first 93 _ _ _ _
                  (numeral_not_in 93 _ eq_refl (numeral_toString_ofN n))
                  (numeral_not_in 93 _ eq_refl (numeral_toString_ofN n')) H')
        as [Hn Hr].
      apply toString_ofN_inj in Hn. subst n'. f_equal. now apply IH.
Qed.

(** X13. The path text tells the path when no key holds a double
    quote: two such paths with the same text are the same path, segment
    by segment, an index being told from the key of the same digits. A
    key is printed between quotes with no escape, so one key with quotes
    and brackets in it reads as two keys. *)
Theorem jsonPathToString_injective :
  (forall p q,
     Forall quoteFree p -> Forall quoteFree q ->
     jsonPathToString (Some p) = jsonPathToString (Some q) -> p = q) /\
  (forall n, jsonPathToString (Some [SegIdx n])
             <> jsonPathToString (Some [SegKey (toString (ofN n))])) /\
  (forall a b,
     jsonPathToString (Some [SegKey (a ++ jtext "']['" ++ b)])
       = jsonPathToString (Some [SegKey a; SegKey b])).
Proof.
  split; [|split].
  - intros p q Hp Hq H. rewrite !jsonPathToString_groups in H.
    inversion H as [H']. now apply groups_inj.
  - intros n H. rewrite !jsonPathToString_groups in H.
    cbn [List.map concat] in H. unfold bracketed in H. cbn [segmentText app] in H.
    inversion H as [H'].
    pose proof (numeral_toString_ofN n) as Hn.
    destruct (toString (ofN n)) as [|c t] eqn:E.
    + pose proof (toString_head (ofN n) (ofN_plain n)) as (c & t & Ec & _).
      congruence.
    + cbn [app] in H'. inversion H'; subst. inversion Hn; subst. discriminate.
  - intros a b. rewrite !jsonPathToString_groups.
    cbn [List.map concat]. unfold bracketed. cbn [segmentText].
    change (jtext "']['") with [34; 93; 91; 34].
    repeat (rewrite <- ?app_assoc; cbn [app]). reflexivity.
Qed.

Lemma jsonPathToString_extends_witness :
  jsonPathToString (Some ([SegKey (str "customer")] ++ [SegIdx 0]))
    = jsonPathToString (Some [SegKey (str "customer")]) ++ bracketed (SegIdx 0).
Proof.
  exact (proj1 (proj2 jsonPathToString_extends) [SegKey (str "customer")] (SegIdx 0)).
Defined.

Lemma jsonPathToString_injective_witness :
  [SegKey (str "customer"); SegIdx 0] = [SegKey (str "customer"); SegIdx 0].
Proof.
  apply (proj1 jsonPathToString_injective).
  - repeat constructor. simpl. intros H; repeat destruct H as [H|H]; discriminate || exact H.
  - repeat constructor. simpl. intros H; repeat destruct H as [H|H]; discriminate || exact H.
  - reflexivity.
Defined.

(** ** The Save button of the text editor *)

Lemma tryEffects_cases (throws : TextEditor.effect -> option TextEditor.thrown) cs :
  (TextEditor.tryEffects throws cs = (cs, None) /\
   forall c, In c cs -> throws c = None) \/
  (exists front c back err,
     cs = front ++ c :: back /\
     (forall x, In x front -> throws x = None) /\
     throws c = Some err /\
     TextEditor.tryEffects throws cs = (front ++ [c], Some err)).
Proof.
  induction cs as [|c0 cs IH]; simpl.
  - left. split; [reflexivity | intros c []].
  - destruct (throws c0) as [e0|] eqn:E0.
    + right. exists [], c0, cs, e0. repeat split; auto. intros x [].
    + destruct IH as [[-> Hall]|(front & c & back & err & -> & Hfront & Hc & ->)].
      * left. split; [reflexivity|]. intros c [<-|Hin]; auto.
      * right. exists (c0 :: front), c, back, err. repeat split; auto.
        intros x [<-|Hx]; auto.
Qed.

(** X14. A click on Save ends with a toast. When the conversion fails,
    the only call is the error toast with the message of what the
    conversion threw. When it gives a value, [setJson], [setContents],
    [setHasChanges] and the success toast are called in that order, up
    to the first that throws; if none throws the promise resolves after
    the success toast, and if one throws the next and last call is the
    error toast with the message of what that call threw. The message is
    the thrown value when it is a string, else its [message], else
    "Failed to save" when that is [null] or [undefined]. The promise is
    rejected only when the error toast itself throws. The file store is
    given the contents the handler read, with [hasChanges] false and
    [skipUpdate] true, and the json store the text of the converted
    value, and nothing else. *)
Theorem saveClick_ends_in_toast (format : Type)
  (contentToJson : jsstring -> format -> jsvalue + TextEditor.thrown)
  (throws : TextEditor.effect -> option TextEditor.thrown)
  (contents : jsstring) (fileType : format) :
  let r := TextEditor.saveClick format contentToJson throws contents fileType in
  let fails := fun (made : list TextEditor.effect) (err : TextEditor.thrown) =>
    let t := TextEditor.ToastError (TextEditor.messageOf err) in
    r = match throws t with
        | Some _ => TextEditor.Rejected (made ++ [t])
        | None => TextEditor.Resolved (made ++ [t])
        end in
  (forall err, contentToJson contents fileType = inr err -> fails [] err) /\
  (forall parsed, contentToJson contents fileType = inl parsed ->
     let calls := [TextEditor.StoreJson (JSON_stringify parsed);
                   TextEditor.StoreContents contents false true;
                   TextEditor.StoreHasChanges false;
                   TextEditor.ToastSuccess "Saved and graph updated"] in
     ((forall c, In c calls -> throws c = None) /\ r = TextEditor.Resolved calls) \/
     (exists front c back err,
        calls = front ++ c :: back /\
        (forall x, In x front -> throws x = None) /\
        throws c = Some err /\
        fails (front ++ [c]) err)) /\
  ((forall s, TextEditor.messageOf (TextEditor.ThrownString s) = VStr s) /\
   TextEditor.messageOf TextEditor.ThrownNullish = VStr (str "Failed to save") /\
   (forall m, TextEditor.messageOf (TextEditor.ThrownOther m) =
              match m with
              | VUndef | VNull => VStr (str "Failed to save")
              | _ => m
              end)) /\
  (forall c h s,
     In (TextEditor.StoreContents c h s) (TextEditor.callsOf r) ->
     c = contents /\ h = false /\ s = true) /\
  (forall j, In (TextEditor.StoreJson j) (TextEditor.callsOf r) ->
     exists parsed, contentToJson contents fileType = inl parsed /\
                    j = JSON_stringify parsed).
Proof.
  intros r fails. subst r fails. cbv beta.
  unfold TextEditor.saveClick, TextEditor.catchBlock.
  split; [|split; [|split; [|split]]].
  - intros err ->. reflexivity.
  - intros parsed Hp. rewrite Hp. cbv zeta.
    destruct (tryEffects_cases throws
                [TextEditor.StoreJson (JSON_stringify parsed);
                 TextEditor.StoreContents contents false true;
                 TextEditor.StoreHasChanges false;
                 TextEditor.ToastSuccess "Saved and graph updated"])
      as [[E Hall]|(front & c & back & err & Hcs & Hfront & Hc & E)];
      rewrite E.
    + left. auto.
    + right. exists front, c, back, err. auto.
  - split; [reflexivity|]. split; [reflexivity|]. intros m. now destruct m.
  - intros c h s.
    destruct (contentToJson contents fileType) as [parsed|err].
    + destruct (tryEffects_cases throws
                  [TextEditor.StoreJson (JSON_stringify parsed);
                   TextEditor.StoreContents contents false true;
                   TextEditor.StoreHasChanges false;
                   TextEditor.ToastSuccess "Saved and graph updated"])
        as [[E Hall]|(front & c0 & back & err & Hcs & Hfront & Hc & E)];
        rewrite E.
      * cbn [TextEditor.callsOf]. intros H.
        repeat destruct H as [H|H]; try discriminate; try contradiction.
        inversion H. auto.
      * intros H.
        assert (Hin : In (TextEditor.StoreContents c h s)
                        ((front ++ [c0]) ++
                         [TextEditor.ToastError (TextEditor.messageOf err)]))
          by (destruct (throws (TextEditor.ToastError _)); exact H).
        apply in_app_or in Hin. destruct Hin as [Hin|[Hin|[]]]; [|discriminate].
        assert (Hin' : In (TextEditor.StoreContents c h s) (front ++ c0 :: back)).
        { apply in_app_or in Hin. apply in_or_app.
          destruct Hin as [Hin|[<-|[]]]; [now left | right; now left]. }
        rewrite <- Hcs in Hin'.
        repeat destruct Hin' as [Hin'|Hin']; try discriminate; try contradiction.
        inversion Hin'. auto.
    + intros H.
      assert (Hin : In (TextEditor.StoreContents c h s)
                      ([] ++ [TextEditor.ToastError (TextEditor.messageOf err)]))
        by (destruct (throws (TextEditor.ToastError _)); exact H).
      destruct Hin as [Hin|[]]. discriminate.
  - intros j.
    destruct (contentToJson contents fileType) as [parsed|err].
    + destruct (tryEffects_cases throws
                  [TextEditor.StoreJson (JSON_stringify parsed);
                   TextEditor.StoreContents contents false true;
                   TextEditor.StoreHasChanges false;
                   TextEditor.ToastSuccess "Saved and graph updated"])
        as [[E Hall]|(front & c0 & back & err & Hcs & Hfront & Hc & E)];
        rewrite E.
      * cbn [TextEditor.callsOf]. intros H.
        repeat destruct H as [H|H]; try discriminate; try contradiction.
        inversion H. eauto.
      * intros H.
        assert (Hin : In (TextEditor.StoreJson j)
                        ((front ++ [c0]) ++
                         [TextEditor.ToastError (TextEditor.messageOf err)]))
          by (destruct (throws (TextEditor.ToastError _)); exact H).
        apply in_app_or in Hin. destruct Hin as [Hin|[Hin|[]]]; [|discriminate].
        assert (Hin' : In (TextEditor.StoreJson j) (front ++ c0 :: back)).
        { apply in_app_or in Hin. apply in_or_app.
          destruct Hin as [Hin|[<-|[]]]; [now left | right; now left]. }
        rewrite <- Hcs in Hin'.
        repeat destruct Hin' as [Hin'|Hin']; try discriminate; try contradiction.
        inversion Hin'. eauto.
    + intros H.
      assert (Hin : In (TextEditor.StoreJson j)
                      ([] ++ [TextEditor.ToastError (TextEditor.messageOf err)]))
        by (destruct (throws (TextEditor.ToastError _)); exact H).
      destruct Hin as [Hin|[]]. discriminate.
Qed.

Lemma saveClick_ends_in_toast_witness :
  let contentToJson :=
    fun (c : jsstring) (_ : unit) =>
      match JSON_parse c with
      | Some v => inl v
      | None => inr (TextEditor.ThrownString (str "Invalid JSON"))
      end in
  TextEditor.saveClick unit contentToJson (fun _ => None) (str "[1") tt
  = TextEditor.Resolved [TextEditor.ToastError (VStr (str "Invalid JSON"))].
Proof.
  intros contentToJson.
  exact (proj1 (saveClick_ends_in_toast unit contentToJson (fun _ => None)
                  (str "[1") tt)
           (TextEditor.ThrownString (str "Invalid JSON")) eq_refl).
Defined.

(** A document that parses is never reported as malformed. *)
Lemma parsed_document_accepted (throws : call -> bool) nd jsonState st raw d st' calls :
  JSON_parse jsonState = Some d ->
  applyEditToJson throws (Some nd) jsonState st raw = Returned st' calls ->
  error st' <> Some MalformedDocument.
Proof.
  intros Hd. unfold applyEditToJson. rewrite Hd.
  destruct (newValueOf nd raw) as [v|m] eqn:Ev.
  - destruct (applyAtPath d _ v); [|discriminate].
    destruct (tryCalls throws _) as [made threw].
    destruct threw; intros [= <- _]; simpl; discriminate.
  - intros [= <- _]. simpl.
    destruct (newValueOf_messages _ _ _ Ev) as [->|[->| ->]]; discriminate.
Qed.

(** X15. When the conversion gives a value and no call throws, a click
    on Save makes its four calls and resolves; the text it hands to the
    json store is a JSON text of the value, so that a save of the node
    modal on that text never reports a malformed document. *)
Theorem saveClick_stores_json (format : Type)
  (contentToJson : jsstring -> format -> jsvalue + TextEditor.thrown)
  (throws : TextEditor.effect -> option TextEditor.thrown)
  (contents : jsstring) (fileType : format) (parsed : jsvalue) :
  contentToJson contents fileType = inl parsed ->
  wf parsed -> parsed <> VUndef ->
  (forall c, throws c = None) ->
  exists text,
    TextEditor.saveClick format contentToJson throws contents fileType
      = TextEditor.Resolved
          [TextEditor.StoreJson (Some text);
           TextEditor.StoreContents contents false true;
           TextEditor.StoreHasChanges false;
           TextEditor.ToastSuccess "Saved and graph updated"] /\
    JSON_parse text = Some (jsonify parsed) /\
    forall (storeThrows : call -> bool) nd st raw st' calls,
      applyEditToJson storeThrows (Some nd) text st raw = Returned st' calls ->
      error st' <> Some MalformedDocument.
Proof.
  intros Hc Hw Hu Hthrows.
  destruct (JSON_parse_stringify parsed Hw Hu) as (text & Hs & Hp).
  exists text. split; [|split].
  - unfold TextEditor.saveClick. rewrite Hc, Hs.
    cbn [TextEditor.tryEffects]. now rewrite !Hthrows.
  - exact Hp.
  - intros storeThrows nd st raw st' calls.
    exact (parsed_document_accepted storeThrows nd text st raw _ st' calls Hp).
Qed.

Lemma saveClick_stores_json_witness :
  exists text,
    TextEditor.saveClick unit
      (fun c _ => match JSON_parse c with
                  | Some v => inl v
                  | None => inr (TextEditor.ThrownString (str "Invalid JSON"))
                  end)
      (fun _ => None) (jtext "{'b':1,'a':[true]}") tt
      = TextEditor.Resolved
          [TextEditor.StoreJson (Some text);
           TextEditor.StoreContents (jtext "{'b':1,'a':[true]}") false true;
           TextEditor.StoreHasChanges false;
           TextEditor.ToastSuccess "Saved and graph updated"] /\
    JSON_parse text
      = Some (jsonify (VObj [(str "b", VNum (Fin false 1 0));
                             (str "a", VArr [VBool true])])) /\
    forall (storeThrows : call -> bool) nd st raw st' calls,
      applyEditToJson storeThrows (Some nd) text st raw = Returned st' calls ->
      error st' <> Some MalformedDocument.
Proof.
  apply (saveClick_stores_json unit
           (fun c _ => match JSON_parse c with
                       | Some v => inl v
                       | None => inr (TextEditor.ThrownString (str "Invalid JSON"))
                       end)
           (fun _ => None) (jtext "{'b':1,'a':[true]}") tt
           (VObj [(str "b", VNum (Fin false 1 0)); (str "a", VArr [VBool true])])).
  - reflexivity.
  - apply (JSON_parse_wf (jtext "{'b':1,'a':[true]}")). reflexivity.
  - discriminate.
  - reflexivity.
Defined.


(** ** The shape of the document above the edited place *)

Lemma validPath_app pre : forall d tail,
  validPath d (pre ++ tail) = true ->
  validPath d pre = true /\
  exists c, readPath d pre = Some c /\ validPath c tail = true.
Proof.
  induction pre as [|s pre IH]; intros d tail H.
  - split; [reflexivity|]. now exists d.
  - cbn [app] in H. rewrite validPath_cons in *.
    destruct (ownProp d (propertyKey s)) as [c0|] eqn:Eo; [|discriminate].
    destruct (IH _ _ H) as [Hv (c & Hr & Hc)]. split; [exact Hv|].
    exists c. cbn [readPath]. rewrite (ownProp_getProp _ _ _ Eo). auto.
Qed.

Lemma readPath_wf pre : forall d c, wf d -> readPath d pre = Some c -> wf c.
Proof.
  induction pre as [|s pre IH]; intros d c Hw H.
  - simpl in H. congruence.
  - cbn [readPath] in H.
    destruct (getProp d (propertyKey s)) as [c0|] eqn:Eg; [|discriminate].
    exact (IH _ _ (getProp_wf _ _ _ Hw Eg) H).
Qed.

(** The assignment at a path that goes on from a valid path is the
    assignment of the rest in the value the valid path reads, put back
    at the valid path. *)
Lemma applyAtPath_prefix pre : forall d c seg rest v,
  validPath d pre = true -> readPath d pre = Some c -> c <> VUndef ->
  applyAtPath d (pre ++ seg :: rest) v =
    match assignAt c seg rest v with
    | Some c' => applyAtPath d pre c'
    | None => None
    end.
Proof.
  induction pre as [|s pre IH]; intros d c seg rest v Hv Hr Hc.
  - simpl in Hr. inversion Hr; subst. cbn [app applyAtPath].
    now destruct (assignAt c seg rest v).
  - pose proof Hv as Hv0. rewrite validPath_cons in Hv.
    destruct (ownProp d (propertyKey s)) as [c0|] eqn:Eo; [|discriminate].
    pose proof (ownProp_getProp _ _ _ Eo) as Eg.
    cbn [readPath] in Hr. rewrite Eg in Hr.
    assert (Hu : isUndefined c0 = false).
    { destruct pre as [|p1 pre1].
      - simpl in Hr. inversion Hr; subst. destruct c; try reflexivity. congruence.
      - apply (validPath_container _ _ _ Hv). }
    specialize (IH c0 c seg rest v Hv Hr Hc).
    cbn [app applyAtPath].
    destruct (pre ++ seg :: rest) as [|next rest'] eqn:E;
      [destruct pre; discriminate|].
    cbn [assignAt]. rewrite Eg, Hu. cbn [applyAtPath] in IH. rewrite IH.
    destruct (assignAt c seg rest v) as [c'|]; [|reflexivity].
    destruct pre as [|p1 pre1]; cbn [applyAtPath assignAt].
    + reflexivity.
    + now rewrite Eg, Hu.
Qed.

Lemma assignAt_container ptr seg rest v r :
  assignAt ptr seg rest v = Some r -> isContainer r = true.
Proof.
  destruct rest as [|next rest]; cbn [assignAt].
  - apply setProp_container.
  - destruct (getProp ptr (propertyKey seg)) as [cur|]; [|discriminate].
    destruct (isUndefined cur).
    + destruct (setProp ptr (propertyKey seg) (VObj [])) as [ptr1|]; [|discriminate].
      destruct (assignAt (VObj []) next rest v); [|discriminate].
      apply setProp_container.
    + destruct (assignAt cur next rest v); [|discriminate].
      apply setProp_container.
Qed.

Lemma keys_jsonify (m : list (jsstring * jsvalue)) :
  Forall (fun kv => snd kv <> VUndef) m ->
  List.map fst (flat_map jsonifyMember m) = List.map fst m.
Proof.
  induction 1 as [|[k x] m Hx _ IH]; [reflexivity|].
  cbn [flat_map List.map fst]. unfold jsonifyMember at 1. cbn [fst snd] in *.
  destruct x; try congruence; cbn [app List.map fst]; now rewrite IH.
Qed.

Lemma setProp_shape_jsonify c k x c0 c' :
  ownProp c k = Some c0 -> holeFree c = true -> x <> VUndef ->
  setProp c k x = Some c' -> sameShape c (jsonify c').
Proof.
  intros Ho Hh Hx Hs. destruct c as [| |b|n|s|l|m]; simpl in Ho; try discriminate.
  - destruct (arrayIndex k) as [i|] eqn:Ei; [|discriminate].
    simpl in Hs. rewrite Ei in Hs. inversion Hs; subst c'.
    rewrite jsonify_arr. cbn [sameShape]. rewrite length_map.
    assert (Hlt : (N.to_nat i < List.length l)%nat)
      by (apply nth_error_Some; congruence).
    unfold arrSet. apply Nat.ltb_lt in Hlt. rewrite Hlt.
    now rewrite length_replaceNth.
  - simpl in Hs. inversion Hs; subst c'. unfold objSet. rewrite Ho.
    rewrite jsonify_obj. cbn [sameShape]. rewrite keys_jsonify.
    + now rewrite keys_replaceKey.
    + apply Forall_forall. intros [k0 v0] Hin. cbn [snd].
      destruct (In_replaceKey _ _ _ _ _ Hin) as [H|[_ ->]]; [|exact Hx].
      cbn [holeFree] in Hh. rewrite forallb_forall in Hh.
      apply holeFree_defined. exact (Hh _ H).
Qed.

Lemma assignAt_valid_shape c seg rest v c' :
  validPath c (seg :: rest) = true -> holeFree c = true -> v <> VUndef ->
  assignAt c seg rest v = Some c' -> sameShape c (jsonify c').
Proof.
  intros Hv Hh Hu Ha. rewrite validPath_cons in Hv.
  destruct (ownProp c (propertyKey seg)) as [c0|] eqn:Eo; [|discriminate].
  destruct rest as [|next rest]; cbn [assignAt] in Ha.
  - exact (setProp_shape_jsonify _ _ _ _ _ Eo Hh Hu Ha).
  - rewrite (ownProp_getProp _ _ _ Eo) in Ha.
    destruct (validPath_container _ _ _ Hv) as [Hc _]. rewrite Hc in Ha.
    destruct (assignAt c0 next rest v) as [child|] eqn:Ec; [|discriminate].
    apply (setProp_shape_jsonify _ _ child _ _ Eo Hh); [|exact Ha].
    apply assignAt_container in Ec. destruct child; discriminate.
Qed.

(** The save of [c'] at the valid path [pre], where [c'] is what the
    rest of the path makes of the value at [pre]. *)
Lemma save_at_prefix (throws : call -> bool) (st : modal) (nd : NodeData)
  (raw jsonState : jsstring) (d v c c' : jsvalue) (pre rest : list segment)
  (seg : segment) :
  JSON_parse jsonState = Some d ->
  newValueOf nd raw = Ok v ->
  pathOf nd = pre ++ seg :: rest ->
  validPath d pre = true ->
  readPath d pre = Some c -> c <> VUndef ->
  assignAt c seg rest v = Some c' -> wf c' -> c' <> VUndef ->
  exists text d',
    savedText (applyEditToJson throws (Some nd) jsonState st raw) = Some text /\
    JSON_parse text = Some d' /\
    readPath d' pre = Some (jsonify c').
Proof.
  intros Hd Hnew Hp Hv Hr Hc Ha Hw' Hu'.
  pose proof (JSON_parse_wf _ _ Hd) as Hwd.
  pose proof (applyAtPath_prefix pre d c seg rest v Hv Hr Hc) as Happ.
  rewrite Ha in Happ.
  destruct (applyAtPath_valid d pre c' Hv Hwd Hw' Hu')
    as (d1 & Happ1 & Hwd1 & Hread1 & Hvalid1 & Hu1).
  rewrite Happ1, <- Hp in Happ.
  destruct (JSON_parse_stringify d1 Hwd1 Hu1) as (text & Hs & Hparse).
  exists text, (jsonify d1).
  split; [exact (save_text throws st nd raw jsonState d v d1 text Hd Hnew Happ Hs)|].
  split; [exact Hparse|]. exact (readPath_jsonify _ _ _ Hvalid1 Hread1 Hu').
Qed.

(** X16. A save at a path that addresses existing data adds no key,
    removes none and moves none, and keeps the length of every array, at
    every place above the edited one: the value the saved document holds
    there has the keys, in their order, or the length it had. *)
Theorem save_keeps_shape (throws : call -> bool) (st : modal) (nd : NodeData)
  (raw jsonState : jsstring) (d v : jsvalue) (pre rest : list segment)
  (seg : segment) :
  JSON_parse jsonState = Some d ->
  newValueOf nd raw = Ok v ->
  pathOf nd = pre ++ seg :: rest ->
  validPath d (pathOf nd) = true ->
  exists text d' c c',
    savedText (applyEditToJson throws (Some nd) jsonState st raw) = Some text /\
    JSON_parse text = Some d' /\
    readPath d pre = Some c /\
    readPath d' pre = Some c' /\
    sameShape c c'.
Proof.
  intros Hd Hnew Hp Hvalid. rewrite Hp in Hvalid.
  destruct (validPath_app pre d (seg :: rest) Hvalid) as [Hv (c & Hr & Hc)].
  pose proof (JSON_parse_wf _ _ Hd) as Hwd.
  pose proof (readPath_wf _ _ _ Hwd Hr) as Hwc.
  pose proof (newValueOf_wf _ _ _ Hnew) as Hwv.
  pose proof (newValueOf_defined _ _ _ Hnew) as Hu.
  destruct (validPath_container _ _ _ Hc) as [_ Hcu].
  destruct (assignAt_valid rest c seg v Hc Hwc Hwv)
    as (c' & Ha & Hw' & _ & _ & Hu').
  destruct (save_at_prefix throws st nd raw jsonState d v c c' pre rest seg
              Hd Hnew Hp Hv Hr Hcu Ha Hw' Hu') as (text & d' & Hsaved & Hparse & Hread).
  exists text, d', c, (jsonify c'). repeat split; auto.
  apply (assignAt_valid_shape c seg rest v c' Hc); auto.
  exact (readPath_holeFree _ _ _ (JSON_parse_holeFree _ _ Hd) Hv Hr).
Qed.

Lemma save_keeps_shape_witness :
  exists text d' c c',
    savedText (applyEditToJson (fun _ => false) (Some limitLeaf)
                 (jtext "{'limits': [10, 20], 'name': 'Ann'}")
                 (editingState (str "5")) (str "5")) = Some text /\
    JSON_parse text = Some d' /\
    readPath (VObj [(str "limits", VArr [VNum (Fin false 1 1); VNum (Fin false 2 1)]);
                    (str "name", VStr (str "Ann"))]) [SegKey (str "limits")] = Some c /\
    readPath d' [SegKey (str "limits")] = Some c' /\
    sameShape c c'.
Proof.
  apply (save_keeps_shape (fun _ => false) (editingState (str "5")) limitLeaf
           (str "5") (jtext "{'limits': [10, 20], 'name': 'Ann'}")
           (VObj [(str "limits", VArr [VNum (Fin false 1 1); VNum (Fin false 2 1)]);
                  (str "name", VStr (str "Ann"))])
           (VNum (Fin false 5 0)) [SegKey (str "limits")] [] (SegIdx 0));
    reflexivity.
Defined.

Lemma jsonifyElement_defined x : x <> VUndef -> jsonifyElement x = jsonify x.
Proof. destruct x; intros H; try reflexivity. congruence. Qed.

(** X17. A save whose last segment is an index at or past the end of
    an existing array makes the array grow: in the saved document it
    holds the elements it had, then [null] for every index skipped, then
    the new value. This is for a saved text shorter than 2^28 - 16
    code units, a length every engine can make a string of: past the
    length an engine allows, [JSON.stringify] throws a RangeError. *)
Theorem save_past_the_end (throws : call -> bool) (st : modal) (nd : NodeData)
  (raw jsonState : jsstring) (d v : jsvalue) (pre : list segment)
  (seg : segment) (l : list jsvalue) (i : N) :
  JSON_parse jsonState = Some d ->
  newValueOf nd raw = Ok v ->
  pathOf nd = pre ++ [seg] ->
  validPath d pre = true ->
  readPath d pre = Some (VArr l) ->
  arrayIndex (propertyKey seg) = Some i ->
  (List.length l <= N.to_nat i)%nat ->
  (forall text,
     savedText (applyEditToJson throws (Some nd) jsonState st raw) = Some text ->
     N.of_nat (List.length text) < 268435440) ->
  exists text d',
    savedText (applyEditToJson throws (Some nd) jsonState st raw) = Some text /\
    JSON_parse text = Some d' /\
    readPath d' pre =
      Some (VArr (List.map jsonify l
                    ++ repeat VNull (N.to_nat i - List.length l)
                    ++ [jsonify v])).
Proof.
  intros Hd Hnew Hp Hv Hr Hi Hlen _.
  pose proof (JSON_parse_wf _ _ Hd) as Hwd.
  pose proof (readPath_wf _ _ _ Hwd Hr) as Hwc.
  pose proof (newValueOf_wf _ _ _ Hnew) as Hwv.
  pose proof (newValueOf_defined _ _ _ Hnew) as Hu.
  assert (Ha : assignAt (VArr l) seg [] v = Some (VArr (arrSet l i v)))
    by (cbn [assignAt setProp]; now rewrite Hi).
  assert (Hw' : wf (VArr (arrSet l i v)))
    by (exact (setProp_wf _ _ _ _ Hwc Hwv Ha)).
  destruct (save_at_prefix throws st nd raw jsonState d v (VArr l) _ pre [] seg
              Hd Hnew Hp Hv Hr ltac:(discriminate) Ha Hw' ltac:(discriminate))
    as (text & d' & Hsaved & Hparse & Hread).
  exists text, d'. split; [exact Hsaved|]. split; [exact Hparse|].
  rewrite Hread, jsonify_arr. do 2 f_equal.
  unfold arrSet. apply Nat.ltb_ge in Hlen. rewrite Hlen.
  rewrite !map_app, map_repeat. cbn [List.map jsonifyElement].
  rewrite (jsonifyElement_defined v Hu). f_equal.
  apply map_ext_in. intros x Hx. apply jsonifyElement_defined.
  pose proof (readPath_holeFree _ _ _ (JSON_parse_holeFree _ _ Hd) Hv Hr) as Hh.
  cbn [holeFree] in Hh. rewrite forallb_forall in Hh.
  apply holeFree_defined. now apply Hh.
Qed.

Lemma save_past_the_end_witness :
  exists text d',
    savedText (applyEditToJson (fun _ => false)
                 (Some {| text := [ {| key := None; value := SNum (Fin false 1 1);
                                       type := TNumber |} ];
                          path := Some [SegKey (str "limits"); SegIdx 4] |})
                 (jtext "{'limits': [10, 20]}")
                 (editingState (str "50")) (str "50")) = Some text /\
    JSON_parse text = Some d' /\
    readPath d' [SegKey (str "limits")] =
      Some (VArr [VNum (Fin false 1 1); VNum (Fin false 2 1); VNull; VNull;
                  VNum (Fin false 5 1)]).
Proof.
  apply (save_past_the_end (fun _ => false) (editingState (str "50"))
           {| text := [ {| key := None; value := SNum (Fin false 1 1);
                           type := TNumber |} ];
              path := Some [SegKey (str "limits"); SegIdx 4] |}
           (str "50") (jtext "{'limits': [10, 20]}")
           (VObj [(str "limits", VArr [VNum (Fin false 1 1); VNum (Fin false 2 1)])])
           (VNum (Fin false 5 1)) [SegKey (str "limits")] (SegIdx 4)
           [VNum (Fin false 1 1); VNum (Fin false 2 1)] 4);
    try reflexivity.
  - simpl. lia.
  - intros text H. vm_compute in H. injection H as <-. reflexivity.
Defined.
